(** * Ray/Leela analysis driver: protocol client, response parser,
      checkpoint cache and variation expander.

    A shallow embedding of [sgftools/ray.py] (class [CLI]) and of
    [analyzetools/analyze.py] / [sgfanalyze.py] ([do_analyze],
    [do_variations]).

    Conventions of the embedding:
    - a Python exception is a value of [exn]; code that may raise returns
      [result A];
    - Python [int] is [Z]; Python [float] is an exact rational [Q]
      (rounding is not modelled), and a float division checks its divisor
      because Python raises [ZeroDivisionError];
    - a Python [dict] with string keys is a [gmap string pyval];
    - [str] is [string] (one byte per character). *)

From Stdlib Require Import ZArith QArith Lqa Lia Ascii DecimalString DecimalZ.
From stdpp Require Import base option list strings gmap.

Open Scope Z_scope.

(** ** Exceptions and the error monad *)

Inductive exn : Type :=
  | KeyError (key : string)
  | IndexError
  | ValueError
  | TypeError
  | ZeroDivisionError
  | AssertionError
  | NameError
  | Exception (msg : string).

Inductive result (A : Type) : Type :=
  | Ok (a : A)
  | Raise (e : exn).
Arguments Ok {A} a.
Arguments Raise {A} e.

#[global] Instance result_ret : MRet result := fun A a => Ok a.
#[global] Instance result_bind : MBind result := fun A B f m =>
  match m with
  | Ok a => f a
  | Raise e => Raise e
  end.

Definition is_ok {A} (r : result A) : bool :=
  match r with Ok _ => true | Raise _ => false end.

(** [mapM] in the error monad, left to right, stopping at the first raise. *)
Fixpoint traverse {A B} (f : A -> result B) (l : list A) : result (list B) :=
  match l with
  | [] => Ok []
  | x :: l' => y ← f x; ys ← traverse f l'; Ok (y :: ys)
  end.

(** ** Python string primitives used by the client *)

Module PyStr.

(** [s[i]] with Python's negative indices. *)
Definition getitem (s : string) (i : Z) : result ascii :=
  let n := Z.of_nat (String.length s) in
  let k := if i <? 0 then i + n else i in
  if (0 <=? k) && (k <? n) then
    match String.get (Z.to_nat k) s with
    | Some c => Ok c
    | None => Raise IndexError
    end
  else Raise IndexError.

(** [s.index(c)] for a one-character [c]. *)
Fixpoint index_from (k : Z) (s : string) (c : ascii) : result Z :=
  match s with
  | EmptyString => Raise ValueError
  | String d s' => if Ascii.eqb d c then Ok k else index_from (k + 1) s' c
  end.
Definition index (s : string) (c : ascii) : result Z := index_from 0 s c.

(** [s[1:]] *)
Definition tail (s : string) : string :=
  match s with EmptyString => EmptyString | String _ s' => s' end.

(** [c.lower()] on ASCII. *)
Definition lower (c : ascii) : ascii :=
  let n := nat_of_ascii c in
  if (65 <=? n)%nat && (n <=? 90)%nat then ascii_of_nat (n + 32) else c.

(** ['%d' % n] *)
Definition of_int (n : Z) : string := NilZero.string_of_int (Z.to_int n).

(** Characters Python treats as white space, within ASCII. *)
Definition is_space (c : ascii) : bool :=
  let n := nat_of_ascii c in
  ((9 <=? n)%nat && (n <=? 13)%nat) || ((28 <=? n)%nat && (n <=? 32)%nat).

Definition digit_val (c : ascii) : option Z :=
  let n := nat_of_ascii c in
  if (48 <=? n)%nat && (n <=? 57)%nat then Some (Z.of_nat (n - 48)) else None.

Fixpoint lstrip (s : string) : string :=
  match s with
  | String c s' => if is_space c then lstrip s' else s
  | EmptyString => EmptyString
  end.

Fixpoint rev_acc (s acc : string) : string :=
  match s with
  | EmptyString => acc
  | String c s' => rev_acc s' (String c acc)
  end.
Definition rev (s : string) : string := rev_acc s EmptyString.

(** [s.strip()] *)
Definition strip (s : string) : string := rev (lstrip (rev (lstrip s))).

(** Digits of an integer literal after the first one: a digit, or a single
    underscore followed by a digit. *)
Fixpoint digits_from (acc : Z) (s : string) : option Z :=
  match s with
  | EmptyString => Some acc
  | String c s' =>
      match digit_val c with
      | Some d => digits_from (10 * acc + d) s'
      | None =>
          if Ascii.eqb c "_"%char then
            match s' with
            | String c' s'' =>
                match digit_val c' with
                | Some d => digits_from (10 * acc + d) s''
                | None => None
                end
            | EmptyString => None
            end
          else None
      end
  end.

Definition unsigned_literal (s : string) : option Z :=
  match s with
  | String c s' =>
      match digit_val c with
      | Some d => digits_from d s'
      | None => None
      end
  | EmptyString => None
  end.

(** [int(s)] in base ten: surrounding white space, an optional sign, then
    digits (single underscores allowed between digits). *)
Definition to_int (s : string) : result Z :=
  let body := strip s in
  let r :=
    match body with
    | String "-" s' => option_map Z.opp (unsigned_literal s')
    | String "+" s' => unsigned_literal s'
    | _ => unsigned_literal body
    end in
  match r with
  | Some n => Ok n
  | None => Raise ValueError
  end.

(** [s.split()]: maximal runs of non-space characters. *)
Fixpoint split_go (cur : string) (s : string) : list string :=
  match s with
  | EmptyString =>
      match cur with EmptyString => [] | _ => [rev cur] end
  | String c s' =>
      if is_space c then
        match cur with
        | EmptyString => split_go EmptyString s'
        | _ => rev cur :: split_go EmptyString s'
        end
      else split_go (String c cur) s'
  end.
Definition split (s : string) : list string := split_go EmptyString s.

(** [sub in s] *)
Fixpoint contains (sub s : string) : bool :=
  String.prefix sub s ||
  match s with
  | EmptyString => false
  | String _ s' => contains sub s'
  end.

(** ["".join(l)] and [sep.join(l)] *)
Definition concat (l : list string) : string := String.concat "" l.

End PyStr.

(** ** Coordinates (CLI.convert_position, CLI.parse_position) *)

Definition SGF_COORD : string := "abcdefghijklmnopqrstuvwxy".
Definition BOARD_COORD : string := "abcdefghjklmnopqrstuvwxyz".

Definition convert_position (board_size : Z) (pos : string) : result string :=
  c0 ← PyStr.getitem pos 0;
  i ← PyStr.index SGF_COORD c0;
  x ← PyStr.getitem BOARD_COORD i;
  c1 ← PyStr.getitem pos 1;
  j ← PyStr.index SGF_COORD c1;
  let y := board_size - j in
  Ok (String x (PyStr.of_int y)).

Definition parse_position (board_size : Z) (pos : string) : result string :=
  if String.eqb pos "pass" then Ok ""
  else
    c0 ← PyStr.getitem pos 0;
    x ← PyStr.index BOARD_COORD (PyStr.lower c0);
    n ← PyStr.to_int (PyStr.tail pos);
    let y := board_size - n in
    a ← PyStr.getitem SGF_COORD x;
    b ← PyStr.getitem SGF_COORD y;
    Ok (String a (String b EmptyString)).

(** The points of a board: column [i] and line [j] from the top in the
    record's letters, column [i] and row number [row] in the engine's. *)
Definition letter (alphabet : string) (i : nat) : ascii :=
  default "a"%char (String.get i alphabet).
Definition sgf_point (i j : nat) : string :=
  String (letter SGF_COORD i) (String (letter SGF_COORD j) EmptyString).
Definition board_point (i : nat) (row : Z) : string :=
  String (letter BOARD_COORD i) (PyStr.of_int row).

(** The same engine coordinate with its column letter in capitals, as the
    engine prints it. *)
Definition capital (c : ascii) : ascii :=
  let n := nat_of_ascii c in
  if (97 <=? n)%nat && (n <=? 122)%nat then ascii_of_nat (n - 32) else c.
Definition board_point_capital (i : nat) (row : Z) : string :=
  String (capital (letter BOARD_COORD i)) (PyStr.of_int row).

(** Both round trips at one point of one board, as a test. *)
Definition result_is (r : result string) (s : string) : bool :=
  match r with Ok s' => String.eqb s' s | Raise _ => false end.
Definition round_trips (bs i j : nat) : bool :=
  let size := Z.of_nat bs in
  let p := sgf_point i j in
  let c := board_point i (Z.of_nat (j + 1)) in
  let c' := board_point_capital i (Z.of_nat (j + 1)) in
  result_is (convert_position size p ≫= parse_position size) p
  && result_is (parse_position size c ≫= convert_position size) c
  && result_is (parse_position size c' ≫= convert_position size) c.
Definition round_trips_on_board (bs : nat) : bool :=
  forallb (fun i => forallb (round_trips bs i) (seq 0 bs)) (seq 0 bs).

(** ** Python values and dictionaries *)

Inductive pyval : Type :=
  | VInt (n : Z)
  | VFloat (q : Q)
  | VStr (s : string)
  | VBool (b : bool)
  | VList (l : list string).

Abbreviation dict := (gmap string pyval).

(** [d[k]] *)
Definition item (d : dict) (k : string) : result pyval :=
  match d !! k with
  | Some v => Ok v
  | None => Raise (KeyError k)
  end.

(** [k in d] *)
Definition has_key (d : dict) (k : string) : bool := bool_decide (is_Some (d !! k)).

(** [v == w] on the values the client stores. *)
Definition pyval_eqb (v w : pyval) : bool :=
  match v, w with
  | VInt a, VInt b => a =? b
  | VFloat a, VFloat b => Qeq_bool a b
  | VInt a, VFloat b | VFloat b, VInt a => Qeq_bool (inject_Z a) b
  | VStr a, VStr b => String.eqb a b
  | VBool a, VBool b => Bool.eqb a b
  | VList a, VList b => bool_decide (a = b)
  | _, _ => false
  end.

Definition as_int (v : pyval) : result Z :=
  match v with
  | VInt n => Ok n
  | VBool b => Ok (if b then 1 else 0)
  | _ => Raise TypeError
  end.

(** A number as a float. *)
Definition as_float (v : pyval) : result Q :=
  match v with
  | VInt n => Ok (inject_Z n)
  | VFloat q => Ok q
  | VBool b => Ok (if b then 1%Q else 0%Q)
  | _ => Raise TypeError
  end.

(** ** The client object (the fields of [CLI] that the modelled methods read) *)

Record CLI : Type := mkCLI {
  board_size : Z;
  is_handicap_game : bool;
  history : list string;
}.

Definition set_history (self : CLI) (h : list string) : CLI :=
  mkCLI (board_size self) (is_handicap_game self) h.

(** CLI.whose_turn *)
Definition whose_turn (self : CLI) : string :=
  match last (history self) with
  | None => if is_handicap_game self then "white" else "black"
  | Some cmd => if PyStr.contains "white" cmd then "black" else "white"
  end.

(** CLI.add_move *)
Definition add_move (self : CLI) (color pos : string) : result CLI :=
  move ← (if String.eqb pos "" || String.eqb pos "tt" then Ok "pass"
          else convert_position (board_size self) pos);
  let cmd := "play " +:+ color +:+ " " +:+ move in
  Ok (set_history self (history self ++ [cmd])).

(** CLI.pop_move *)
Definition pop_move (self : CLI) : result CLI :=
  match history self with
  | [] => Raise IndexError
  | h => Ok (set_history self (removelast h))
  end.

(** CLI.to_fraction, given the reading of [float(...)]. *)
Definition to_fraction (py_float : string -> result Q) (v : string) : result Q :=
  x ← py_float (PyStr.strip v);
  Ok ((1 # 100) * x)%Q.

(** ** The engine dialect

    [ray.py] keeps its patterns in module-level constants
    ([bookmove_regex], [status_regex], ...).  A pattern is modelled by what
    [re.match] / [re.search] returns for it: [None], or the list of captured
    groups 1, 2, ...  [py_float] is Python's [float] on strings, as an exact
    rational. *)

Class Dialect : Type := {
  bookmove_regex : string -> option (list string);
  status_regex : string -> option (list string);
  move_regex : string -> option (list string);
  best_regex : string -> option (list string);
  stats_regex : string -> option (list string);
  finished_regex : string -> option (list string);
  py_float : string -> result Q;
}.

(** [m.group(k)] for [k >= 1] *)
Definition group (m : list string) (k : nat) : result string :=
  match m !! (k - 1)%nat with
  | Some g => Ok g
  | None => Raise IndexError
  end.


(** ** The response parser (CLI.parse) *)

(** The line printed for a missing statistic. *)
Definition warning_line (k : string) : string :=
  "WARNING: analysis stats missing " +:+ k +:+ " data".

Section Parser.
Context {D : Dialect}.
Variable self : CLI.

(** The nested [flip_winrate]. *)
Definition flip_winrate (wr : Q) : Q :=
  if String.eqb (whose_turn self) "white" then (1 - wr)%Q else wr.

(** The locals of [parse] that live across the loop over [stderr].
    [info] is the local of that name: the record of the last candidate
    line matched, unbound until one is. *)
Record locals : Type := mkLocals {
  stats : dict;
  move_list : list dict;
  info : option dict;
  finished : bool;
  summarized : bool;
}.

Definition locals0 : locals := mkLocals ∅ [] None false false.

Definition on_bookmove (line : string) (l : locals) : result locals :=
  match bookmove_regex line with
  | Some m =>
      g1 ← group m 1; b ← PyStr.to_int g1;
      g2 ← group m 2; p ← PyStr.to_int g2;
      Ok (mkLocals (<["positions" := VInt p]> (<["bookmoves" := VInt b]> (stats l)))
                   (move_list l) (info l) (finished l) (summarized l))
  | None => Ok l
  end.

Definition on_status (line : string) (l : locals) : result locals :=
  match status_regex line with
  | Some m =>
      g1 ← group m 1; mc ← py_float g1;
      g2 ← group m 2; nn ← py_float g2;
      g3 ← group m 3;
      Ok (mkLocals (<["margin" := VStr g3]>
                      (<["nn_winrate" := VFloat (flip_winrate nn)]>
                         (<["mc_winrate" := VFloat (flip_winrate mc)]> (stats l))))
                   (move_list l) (info l) (finished l) (summarized l))
  | None => Ok l
  end.

Definition on_move (line : string) (l : locals) : result locals :=
  match move_regex line with
  | Some m =>
      g1 ← group m 1; pos ← parse_position (board_size self) g1;
      g2 ← group m 2; visits ← PyStr.to_int g2;
      g3 ← group m 3; winrate ← to_fraction py_float g3;
      g4 ← group m 4; mc_winrate ← to_fraction py_float g4;
      g5 ← group m 5; nn_winrate ← to_fraction py_float g5;
      g6 ← group m 6; nn_count ← PyStr.to_int g6;
      g7 ← group m 7; policy_prob ← to_fraction py_float g7;
      g8 ← group m 8; pv ← traverse (parse_position (board_size self)) (PyStr.split g8);
      let i : dict :=
        <["pv" := VList pv]> (
        <["policy_prob" := VFloat policy_prob]> (
        <["nn_count" := VInt nn_count]> (
        <["nn_winrate" := VFloat (flip_winrate nn_winrate)]> (
        <["mc_winrate" := VFloat (flip_winrate mc_winrate)]> (
        <["winrate" := VFloat (flip_winrate winrate)]> (
        <["visits" := VInt visits]> (
        <["pos" := VStr pos]> ∅))))))) in
      Ok (mkLocals (stats l) (move_list l ++ [i]) (Some i) (finished l) (summarized l))
  | None => Ok l
  end.

Definition on_best (line : string) (l : locals) : result locals :=
  match best_regex line with
  | Some m =>
      g3 ← group m 3;
      first ← match PyStr.split g3 with
              | p :: _ => Ok p
              | [] => Raise IndexError
              end;
      best ← parse_position (board_size self) first;
      g2 ← group m 2; wr ← to_fraction py_float g2;
      Ok (mkLocals (<["winrate" := VFloat (flip_winrate wr)]>
                      (<["best" := VStr best]> (stats l)))
                   (move_list l) (info l) (finished l) (summarized l))
  | None => Ok l
  end.

Definition on_stats (line : string) (l : locals) : result locals :=
  match stats_regex line with
  | Some m =>
      g1 ← group m 1; v ← PyStr.to_int g1;
      Ok (mkLocals (<["visits" := VInt v]> (stats l))
                   (move_list l) (info l) (finished l) true)
  | None => Ok l
  end.

(** One turn of [for line in stderr]. *)
Definition scan_line (raw : string) (l : locals) : result locals :=
  let line := PyStr.strip raw in
  let l := mkLocals (stats l) (move_list l) (info l)
             (finished l || String.prefix "================" line)
             (summarized l) in
  l ← on_bookmove line l;
  l ← on_status line l;
  l ← on_move line l;
  if finished l && negb (summarized l) then
    l ← on_best line l;
    on_stats line l
  else Ok l.

Fixpoint scan_from (l : locals) (stderr : list string) : result locals :=
  match stderr with
  | [] => Ok l
  | raw :: rest => l' ← scan_line raw l; scan_from l' rest
  end.

(** The loop over [stderr], from fresh locals. *)
Definition scan (stderr : list string) : result locals := scan_from locals0 stderr.

(** The search for the chosen move in the joined [stdout]. *)
Definition find_chosen (stdout : list string) (st : dict) : result dict :=
  match finished_regex (PyStr.concat stdout) with
  | Some m =>
      g1 ← group m 1;
      chosen ← (if String.eqb g1 "resign" then Ok "resign"
                else parse_position (board_size self) g1);
      Ok (<["chosen" := VStr chosen]> st)
  | None => Ok st
  end.

Definition required_keys : list string :=
  ["mc_winrate"; "margin"; "best"; "winrate"; "visits"].

(** The lines the missing-data check prints. *)
Definition warnings (st : dict) : list string :=
  map warning_line (filter (fun k => has_key st k = false) required_keys).

(** The [key] function handed to [sorted].  Its parameter is not used: the
    body reads the enclosing local [info]. *)
Definition sort_key (st : dict) (inf : option dict) (key : dict) : result Z :=
  match inf with
  | None => Raise NameError
  | Some i =>
      p ← item i "pos";
      b ← item st "best";
      if pyval_eqb p b then Ok 1000000000000000
      else v ← item i "visits"; as_int v
  end.

(** [sorted(l, key=..., reverse=True)]: every key is computed first, then
    the list is sorted by decreasing key, equal keys keeping their order. *)
Fixpoint insert_desc {A} (k : Z) (x : A) (l : list (Z * A)) : list (Z * A) :=
  match l with
  | [] => [(k, x)]
  | (k', y) :: l' =>
      if k <? k' then (k', y) :: insert_desc k x l' else (k, x) :: (k', y) :: l'
  end.

Fixpoint sort_desc {A} (l : list (Z * A)) : list (Z * A) :=
  match l with
  | [] => []
  | (k, x) :: l' => insert_desc k x (sort_desc l')
  end.

Definition sorted_reverse {A} (key : A -> result Z) (l : list A) : result (list A) :=
  keys ← traverse key l;
  Ok (map snd (sort_desc (zip keys l))).

(** [[info for (i, info) in enumerate(l) if i == 0 or info['visits'] > 0]] *)
Fixpoint keep_visited (i : nat) (l : list dict) : result (list dict) :=
  match l with
  | [] => Ok []
  | x :: l' =>
      keep ← (if (i =? 0)%nat then Ok true
              else v ← item x "visits"; n ← as_int v; Ok (0 <? n));
      rest ← keep_visited (S i) l';
      Ok (if keep : bool then x :: rest else rest)
  end.

(** What follows the two scans: either the book branch or the ordering,
    filtering and resign replacement.  The first component is what was
    printed as warnings before the code returned or raised. *)
Definition conclude (l : locals) (st : dict) : list string * result (dict * list dict) :=
  if has_key st "bookmoves" && (length (move_list l) =? 0)%nat then
    ([], chosen ← item st "chosen";
         Ok (st, move_list l ++ [<["is_book" := VBool true]> (<["pos" := chosen]> ∅)]))
  else
    (warnings st,
     ordered ← sorted_reverse (sort_key st (info l)) (move_list l);
     kept ← keep_visited 0 ordered;
     chosen ← item st "chosen";
     if pyval_eqb chosen (VStr "resign") then
       best ← item st "best";
       Ok (<["chosen" := best]> st, kept)
     else Ok (st, kept)).

(** CLI.parse: the printed warnings, and the returned pair or the
    exception raised. *)
Definition parse (stdout stderr : list string) : list string * result (dict * list dict) :=
  match scan stderr with
  | Raise e => ([], Raise e)
  | Ok l =>
      match find_chosen stdout (stats l) with
      | Raise e => ([], Raise e)
      | Ok st => conclude l st
      end
  end.

End Parser.

(** The visit count of a candidate record, 0 when it has none. *)
Definition visits_of (d : dict) : Z :=
  match d !! "visits" with
  | Some (VInt n) => n
  | Some (VBool true) => 1
  | _ => 0
  end.

(** The filter of the candidate list in words: position 0 stays, a later
    candidate stays when it was visited. *)
Definition retain (ordered : list dict) : list dict :=
  match ordered with
  | [] => []
  | x :: rest => x :: filter (fun d => 0 < visits_of d) rest
  end.

(** A candidate record as a candidate line leaves it. *)
Definition parsed_candidate (d : dict) : Prop :=
  exists p v, d !! "pos" = Some (VStr p) /\ d !! "visits" = Some (VInt v).

(** What the loop over [stderr] maintains: every record of the list comes
    from a candidate line, and [info] is the last of them. *)
Definition scanned (l : locals) : Prop :=
  Forall parsed_candidate (move_list l) /\ info l = last (move_list l).

(** ** A small concrete dialect

    The patterns are a contract with one engine binary.  To run the parser
    on transcripts, this dialect reads lines of blank-separated fields
    introduced by a keyword: [book B P], [status MC NN MARGIN],
    [move POS VISITS WR MC NN COUNT POLICY PV...], [best X WR PV...],
    [visits N]; the chosen move is the field after [=] on stdout.  Floats
    are plain decimals. *)

Module Demo.

(** A line [tag f1 ... fn-1 rest...] gives the groups [f1; ...; fn-1; rest]. *)
Definition fields (tag : string) (n : nat) (line : string) : option (list string) :=
  match PyStr.split line with
  | t :: rest =>
      if String.eqb t tag && (n - 1 <=? length rest)%nat then
        Some (take (n - 1) rest ++ [String.concat " " (drop (n - 1) rest)])
      else None
  | [] => None
  end.

Fixpoint after_marker (tokens : list string) : option (list string) :=
  match tokens with
  | t :: rest =>
      if String.eqb t "=" then
        match rest with
        | mv :: _ => Some [mv]
        | [] => None
        end
      else after_marker rest
  | [] => None
  end.

(** Digits after the decimal point: value and scale. *)
Fixpoint fraction (num : Z) (den : positive) (s : string) : option Q :=
  match s with
  | EmptyString => Some (num # den)
  | String c s' =>
      match PyStr.digit_val c with
      | Some d => fraction (10 * num + d) (10 * den) s'
      | None => None
      end
  end.

Fixpoint decimal (num : Z) (s : string) : option Q :=
  match s with
  | EmptyString => Some (inject_Z num)
  | String c s' =>
      if Ascii.eqb c "."%char then fraction num 1 s'
      else match PyStr.digit_val c with
           | Some d => decimal (10 * num + d) s'
           | None => None
           end
  end.

Definition float_of (s : string) : result Q :=
  match s with
  | EmptyString => Raise ValueError
  | String c s' =>
      match (if Ascii.eqb c "-"%char then option_map Qopp (decimal 0 s')
             else decimal 0 s) with
      | Some q => Ok (Qred q)
      | None => Raise ValueError
      end
  end.

Definition dialect : Dialect := {|
  bookmove_regex := fields "book" 2;
  status_regex := fields "status" 3;
  move_regex := fields "move" 8;
  best_regex := fields "best" 3;
  stats_regex := fields "visits" 1;
  finished_regex := fun text => after_marker (PyStr.split text);
  py_float := float_of;
|}.

(** Black to move on an empty 19x19 board, and white to move after one
    black stone. *)
Definition black_to_move : CLI := mkCLI 19 false [].
Definition white_to_move : CLI := mkCLI 19 false ["play black d16"].

(** Four candidate lines with visit counts 5, 0, 0 and 50, the summary
    naming the fourth as best. *)
Definition transcript_err : list string :=
  [ "move C3 5 40.0 41.0 42.0 3 10.0 C3 D4";
    "move D4 0 10.0 11.0 12.0 0 20.0 D4";
    "move E5 0 20.0 21.0 22.0 0 30.0 E5";
    "move Q16 50 60.0 61.0 62.0 9 40.0 Q16 D4 pass";
    "================";
    "best 1 60.0 Q16 D4";
    "visits 55" ].
Definition transcript_out : list string := ["= Q16"].

(** What the two scans leave for these transcripts. *)
Definition scanned_locals : locals :=
  match scan (D:=dialect) black_to_move transcript_err with
  | Ok l => l
  | Raise _ => locals0
  end.
Definition scanned_stats : dict :=
  match find_chosen (D:=dialect) black_to_move transcript_out (stats scanned_locals) with
  | Ok st => st
  | Raise _ => ∅
  end.
Definition parsed : list string * result (dict * list dict) :=
  parse (D:=dialect) black_to_move transcript_out transcript_err.
Definition returned_stats : dict :=
  match parsed.2 with Ok (st, _) => st | Raise _ => ∅ end.
Definition returned_moves : list dict :=
  match parsed.2 with Ok (_, ml) => ml | Raise _ => [] end.

(** Position and visit count of each record of a list. *)
Definition summary (ml : list dict) : list (option pyval * Z) :=
  map (fun d => (d !! "pos", visits_of d)) ml.

End Demo.

(** ** The protocol client (CLI.send_command)

    The reader thread fills the stdout queue while the client polls it.
    What the client observes is, for each polling round, the lines that
    [readline()] hands out before it reports an empty queue: [polls k] for
    round [k].  (A round in which the queue never runs dry is outside this
    model: the source would spin in its inner loop.)  [self.p] stays set
    for the whole call, the client being the only one to clear it. *)

Module Client.

Definition timeout : nat := 200.

Inductive round : Type :=
  | Acked          (** the expected count was reached: [return None] *)
  | Waiting (success_count : Z).  (** [readline()] gave [""]: [break] *)

(** The inner [while True] over one round's lines. *)
Fixpoint read_round (expected success_count : Z) (lines : list string) : round :=
  match lines with
  | [] => Waiting success_count
  | s :: rest =>
      if PyStr.contains "=" s then
        if expected <=? success_count + 1 then Acked
        else read_round expected (success_count + 1) rest
      else if String.eqb s "" then Waiting success_count
      else read_round expected success_count rest
  end.

(** The outer [while tries <= timeout]; [left] rounds remain.  The answer
    is the round in which the call returned, if it did. *)
Fixpoint wait (polls : nat -> list string) (expected : Z)
    (left tries : nat) (success_count : Z) : option nat :=
  match left with
  | O => None
  | S left' =>
      match read_round expected success_count (polls tries) with
      | Acked => Some tries
      | Waiting c => wait polls expected left' (S tries) c
      end
  end.

Definition failure (cmd : string) : exn :=
  Exception ("Failed to send command '" +:+ cmd +:+ "' to Ray").

(** CLI.send_command: what was written to the engine's stdin, and the
    outcome of the wait. *)
Definition send_command (polls : nat -> list string) (cmd : string)
    (expected_success_count : Z) : string * result unit :=
  (cmd +:+ String "010"%char EmptyString,
   match wait polls expected_success_count (S timeout) 0 0 with
   | Some _ => Ok tt
   | None => Raise (failure cmd)
   end).

(** CLI.go_to_position: the whole history in one command, one
    acknowledgement expected per move. *)
Definition go_to_position (polls : nat -> list string) (self : CLI)
    : string * result unit :=
  send_command polls (String.concat (String "010"%char EmptyString) (history self))
               (Z.of_nat (length (history self))).

(** How many of the lines of a round, up to the first empty one, carry
    the marker; and how many do in the rounds before round [n]. *)
Fixpoint marks (lines : list string) : Z :=
  match lines with
  | [] => 0
  | s :: rest =>
      if String.eqb s "" then 0
      else (if PyStr.contains "=" s then 1 else 0) + marks rest
  end.

Fixpoint marks_before (polls : nat -> list string) (n : nat) : Z :=
  match n with
  | O => 0
  | S n' => marks_before polls n' + marks (polls n')
  end.

End Client.

(** ** The analysis cache (do_analyze)

    [do_analyze] receives the engine object and only calls four of its
    methods.  The class the driver passes ([sgftools.leela.Leela]) is not
    among the sources, and [CLI.analyze] of [ray.py] takes no think time, so
    the object is an interface here.  An engine state is a value of [E]; a
    method returns the state it leaves behind together with its result or
    the exception raised. *)

Module Leela.
Class Engine (E : Type) : Type := {
  history_hash : E -> result string;
  reset : E -> E * result unit;
  go_to_position : E -> E * result unit;
  analyze : E -> Z -> E * result (dict * list dict);
}.
End Leela.

(** A checkpoint directory: file name to the pair pickled in the file
    ([pickle.load] gives back what [pickle.dump] was given). *)
Abbreviation checkpoints := (gmap string (dict * list dict)).

(** [os.path.join(a, b)] on POSIX, for two components. *)
Definition path_join (a b : string) : string :=
  if String.prefix "/" b then b
  else if String.eqb a "" || String.prefix "/" (PyStr.rev a) then a +:+ b
  else a +:+ "/" +:+ b.

Section Cache.
Context {E : Type} {eng : Leela.Engine E}.
(** [config.skip_checkpoints] *)
Variable skip_checkpoints : bool.

Definition checkpoint_name (base_dir hash : string) (seconds_per_search : Z) : string :=
  path_join base_dir
    ("analyze_" +:+ hash +:+ "_" +:+ PyStr.of_int seconds_per_search +:+ "sec").

(** The [else] branch: reset, replay, analyse, write the file. *)
Definition analyze_afresh (ckpt_fn : string) (seconds_per_search : Z)
    (leela : E) (fs : checkpoints)
    : (E * checkpoints) * result (dict * list dict * bool) :=
  let '(l1, r1) := Leela.reset leela in
  match r1 with
  | Raise e => ((l1, fs), Raise e)
  | Ok _ =>
      let '(l2, r2) := Leela.go_to_position l1 in
      match r2 with
      | Raise e => ((l2, fs), Raise e)
      | Ok _ =>
          let '(l3, r3) := Leela.analyze l2 seconds_per_search in
          match r3 with
          | Raise e => ((l3, fs), Raise e)
          | Ok (stats, move_list) =>
              ((l3, <[ckpt_fn := (stats, move_list)]> fs), Ok (stats, move_list, false))
          end
      end
  end.

(** analyze.do_analyze; the third component of the answer is [skipped]. *)
Definition do_analyze (base_dir : string) (seconds_per_search : Z)
    (leela : E) (fs : checkpoints)
    : (E * checkpoints) * result (dict * list dict * bool) :=
  match Leela.history_hash leela with
  | Raise e => ((leela, fs), Raise e)
  | Ok h =>
      let ckpt_fn := checkpoint_name base_dir h seconds_per_search in
      match fs !! ckpt_fn with
      | Some (stats, move_list) =>
          if negb skip_checkpoints then ((leela, fs), Ok (stats, move_list, true))
          else analyze_afresh ckpt_fn seconds_per_search leela fs
      | None => analyze_afresh ckpt_fn seconds_per_search leela fs
      end
  end.

(** sgfanalyze.retry_analysis: up to [restarts + 1] attempts, each on the
    state the failed one left; the last exception is re-raised. *)
Fixpoint retry_analysis {S A} (fn : S -> S * result A) (restarts : nat) (s : S)
    : S * result A :=
  match fn s with
  | (s', Ok a) => (s', Ok a)
  | (s', Raise e) =>
      match restarts with
      | O => (s', Raise e)
      | S n => retry_analysis fn n s'
      end
  end.


End Cache.

(** An engine that logs the commands it is sent and answers every analysis
    with the same one candidate. *)
Module LoggingEngine.
Record t : Type := mk { moves : list string; log : list string }.

Definition answer : dict * list dict :=
  (<["visits" := VInt 7]> ∅, [<["visits" := VInt 7]> (<["pos" := VStr "dd"]> ∅)]).

#[global] Instance engine : Leela.Engine t := {|
  Leela.history_hash := fun e => Ok (String.concat "," (moves e));
  Leela.reset := fun e => (mk (moves e) (log e ++ ["clear_board"]), Ok tt);
  Leela.go_to_position := fun e => (mk (moves e) (log e ++ moves e), Ok tt);
  Leela.analyze := fun e secs => (mk (moves e) (log e ++ ["genmove"]), Ok answer);
|}.
End LoggingEngine.

(** ** The variation expander (do_variations)

    The tree is a store of node records: a node is named by its index in
    the store, child slots and the [leaves] list hold such names, so that
    [leaves[i] is node] is equality of names and an update of a node is
    seen through every reference to it. *)

Module Variations.

Record node : Type := mkNode {
  children : list (option nat);
  is_root : bool;
  history : list pyval;
  explored : bool;
  prob : Q;
  stats : dict;
  move_list : list dict;
  color : string;
}.

Record tree : Type := mkTree {
  nodes : list node;
  leaves : list nat;
  searched : nat;   (** calls of [search] so far *)
}.

(** [move["pos"] == game_move], where [game_move] is [None] or a string. *)
Definition is_game_move (game_move : option string) (pos : pyval) : bool :=
  match game_move, pos with
  | Some g, VStr p => String.eqb p g
  | _, _ => false
  end.

Section Expand.
(** [leela.whose_turn()] at the root, the move played in the game, and
    what [search] obtains for a node: the analysis of the position its
    history leads to, in the [k]-th call. *)
Variable rootcolor : string.
Variable game_move : option string.
Variable analysis : nat -> list pyval -> result (dict * list dict).

Definition child_prob_raw (nd : node) (move : dict) : result Q :=
  if has_key move "is_book" then Ok 1%Q
  else if String.eqb (color nd) rootcolor then
    v ← item move "visits"; as_float v
  else
    p ← item move "policy_prob"; v ← item move "visits";
    pf ← as_float p; vf ← as_float v;
    Ok ((pf + vf) / 2)%Q.

(** [probsum] after the first loop. *)
Definition prob_sum (nd : node) (moves : list dict) : result Q :=
  ws ← traverse (child_prob_raw nd) moves;
  Ok (foldl Qplus 0%Q ws).

Definition child_prob (nd : node) (probsum : Q) (move : dict) : result Q :=
  w ← child_prob_raw nd move;
  if Qeq_bool probsum 0 then Raise ZeroDivisionError
  else Ok (w / probsum)%Q.

(** One turn of the second loop: the slot appended to
    [node["children"]], [None] or a fresh child. *)
Definition child_slot (nd : node) (probsum : Q) (move : dict) : result (option node) :=
  skip ← (if is_root nd then p ← item move "pos"; Ok (is_game_move game_move p)
          else Ok false);
  if skip : bool then Ok None
  else
    p ← item move "pos";
    let subhistory := history nd ++ [p] in
    cp ← child_prob nd probsum move;
    let clr := if String.eqb (color nd) "black" then "white" else "black" in
    Ok (Some (mkNode [] false subhistory false (prob nd * cp)%Q ∅ [] clr)).

(** Names for the fresh children, in creation order. *)
Fixpoint number_slots (next : nat) (slots : list (option node)) : list (option nat) :=
  match slots with
  | [] => []
  | None :: rest => None :: number_slots next rest
  | Some _ :: rest => Some next :: number_slots (S next) rest
  end.

Definition created (slots : list (option node)) : list node := omap id slots.

(** The deletion loop at the end of [expand]: the first entry that is
    this node. *)
Fixpoint remove_first (n : nat) (l : list nat) : list nat :=
  match l with
  | [] => []
  | x :: rest => if (x =? n)%nat then rest else x :: remove_first n rest
  end.

(** The nested [expand(node, stats, move_list)], on the node named [n]. *)
Definition expand (n : nat) (st : dict) (moves : list dict) (t : tree) : result tree :=
  match nodes t !! n with
  | None => Raise IndexError
  | Some nd =>
      if negb (String.eqb (color nd) "white" || String.eqb (color nd) "black")
      then Raise AssertionError
      else
        probsum ← prob_sum nd moves;
        slots ← traverse (child_slot nd probsum) moves;
        let first := length (nodes t) in
        let fresh := created slots in
        let nd' := mkNode (children nd ++ number_slots first slots) (is_root nd)
                     (history nd) true (prob nd) st moves (color nd) in
        Ok (mkTree (<[n := nd']> (nodes t) ++ fresh)
                   (remove_first n (leaves t ++ seq first (length fresh)))
                   (searched t))
  end.

Definition prob_of (t : tree) (n : nat) : Q :=
  match nodes t !! n with Some nd => prob nd | None => 0%Q end.

(** [max(leaves, key=lambda n: n["prob"])]: the first of the largest. *)
Fixpoint max_from (t : tree) (best : nat) (rest : list nat) : nat :=
  match rest with
  | [] => best
  | x :: rest' =>
      if Qle_bool (prob_of t x) (prob_of t best) then max_from t best rest'
      else max_from t x rest'
  end.

(** The nested [search(node)]. *)
Definition search (n : nat) (t : tree) : result tree :=
  match nodes t !! n with
  | None => Raise IndexError
  | Some nd =>
      '(st, moves) ← analysis (searched t) (history nd);
      expand n st moves (mkTree (nodes t) (leaves t) (S (searched t)))
  end.

(** [for i in range(nodes_per_variation)].  An exception leaves the loop;
    the tree returned with it is the one before the failing call. *)
Fixpoint search_loop (budget : nat) (t : tree) : tree * option exn :=
  match budget with
  | O => (t, None)
  | S budget' =>
      match leaves t with
      | [] => search_loop budget' t
      | x :: rest =>
          match search (max_from t x rest) t with
          | Ok t' => search_loop budget' t'
          | Raise e => (mkTree (nodes t) (leaves t) (S (searched t)), Some e)
          end
      end
  end.

Definition root (st : dict) (moves : list dict) : node :=
  mkNode [] true [] false 1%Q st moves rootcolor.

(** do_variations up to the call of [record]: [None] when it returns at
    once, otherwise the tree built and the exception raised, if any. *)
Definition do_variations (st : dict) (moves : list dict) (nodes_per_variation : Z)
    : option (tree * option exn) :=
  if has_key st "bookmoves" || (length moves <=? 0)%nat then None
  else
    let t0 := mkTree [root st moves] [] 0 in
    match expand 0 st moves t0 with
    | Raise e => Some (t0, Some e)
    | Ok t1 => Some (search_loop (Z.to_nat nodes_per_variation) t1)
    end.

End Expand.

(** A candidate whose visit count and policy probability, when it has
them, are not negative. *)
Definition nonneg_candidate (d : dict) : Prop :=
(forall q, (item d "visits" ≫= as_float) = Ok q -> (0 <= q)%Q)
/\ (forall q, (item d "policy_prob" ≫= as_float) = Ok q -> (0 <= q)%Q).

(** What the expander maintains about reaching probabilities: each lies
between 0 and 1, and a child's never exceeds its parent's. *)
Definition prob_inv (t : tree) : Prop :=
(forall n nd, nodes t !! n = Some nd -> (0 <= prob nd <= 1)%Q)
/\ (forall n nd i c, nodes t !! n = Some nd -> children nd !! i = Some (Some c) ->
      exists cd, nodes t !! c = Some cd /\ (prob cd <= prob nd)%Q).

(** What it maintains about the shape of the tree: a leaf is a node other
than the root; a node flagged as root has an empty history, and any other
node is reached by at least one move and not by the game's move alone. *)
Definition shape_inv (game_move : option string) (t : tree) : Prop :=
(forall x, x ∈ leaves t -> (0 < x < length (nodes t))%nat)
/\ (forall n nd, nodes t !! n = Some nd ->
      if is_root nd then history nd = []
      else history nd <> [] /\ forall g, game_move = Some g -> history nd <> [VStr g]).

(** The number of explored nodes. *)
Definition explored_count (t : tree) : nat :=
length (filter (fun nd => explored nd = true) (nodes t)).

(** Candidate records as the parser builds them, and a book candidate. *)
Definition candidate (pos : string) (visits : Z) (policy_prob : Q) : dict :=
  <["policy_prob" := VFloat policy_prob]> (<["visits" := VInt visits]> (<["pos" := VStr pos]> ∅)).
Definition book_candidate (pos : string) : dict :=
  <["is_book" := VBool true]> (<["pos" := VStr pos]> ∅).

End Variations.

(** A small run of the expander.  Black is to move at the root, the game
    went on with [dd]; the root has four candidates, [dd] among them.  The
    first position searched has two candidates, the second one, and any
    later one is a book position with one book move. *)
Module Game.
Import Variations.

Definition moves0 : list dict :=
  [candidate "cc" 0 (1 # 10); candidate "pd" 30 (1 # 2);
   candidate "dp" 10 (1 # 5); candidate "dd" 40 (1 # 5)].

Definition analysis (k : nat) (h : list pyval) : result (dict * list dict) :=
  match k with
  | 0%nat => Ok (∅, [candidate "qc" 10 (1 # 2); candidate "cq" 30 (1 # 2)])
  | 1%nat => Ok (∅, [candidate "qq" 10 (1 # 2)])
  | _ => Ok (<["bookmoves" := VInt 1]> ∅, [book_candidate "jj"])
  end.

Definition outcome : option (tree * option exn) :=
  do_variations "black" (Some "dd") analysis ∅ moves0 3.

Definition final : tree :=
  match outcome with
  | Some (t, _) => t
  | None => mkTree [] [] 0
  end.

(** The reaching probabilities of the nodes, in lowest terms. *)
Definition probabilities (t : tree) : list Q :=
  map (fun nd => Qred (prob nd)) (nodes t).

(** A tree of a root and one unexplored child, and two candidates that were
    never visited. *)
Definition sapling : tree :=
  mkTree [mkNode [Some 1%nat] true [] true 1%Q ∅ [candidate "pd" 5 (1 # 2)] "black";
          mkNode [] false [VStr "pd"] false 1%Q ∅ [] "white"]
         [1%nat] 0.
Definition unvisited : list dict := [candidate "qc" 0 0; candidate "cq" 0 0].

End Game.

(** ** Further methods of [CLI] *)

(** A string without white space. *)
Fixpoint spaceless (s : string) : bool :=
  match s with
  | EmptyString => true
  | String c s' => negb (PyStr.is_space c) && spaceless s'
  end.

(** The colour that does not have the move. *)
Definition other_color (color : string) : string :=
  if String.eqb color "black" then "white" else "black".

(** CLI.clear_history *)
Definition clear_history (self : CLI) : CLI := set_history self [].

(** What [history_hash] feeds to the digest for one command:
    [_, c, p = cmd.split()] and then [c[0] + p]. *)
Definition hash_piece (cmd : string) : result string :=
  match PyStr.split cmd with
  | [_; c; p] => c0 ← PyStr.getitem c 0; Ok (String c0 p)
  | _ => Raise ValueError
  end.

(** CLI.history_hash.  [md5] gives the hexadecimal digest of a text; feeding
    the digest piece by piece digests the concatenation. *)
Definition history_hash (md5 : string -> string) (self : CLI) : result string :=
  pieces ← traverse hash_piece (history self);
  Ok (md5 (PyStr.concat pieces)).

(** The two loops of [search] around the analysis: every move of the
    node's history is added for the colour to move, and afterwards as many
    moves are popped. *)
Fixpoint replay (self : CLI) (moves : list string) : result CLI :=
  match moves with
  | [] => Ok self
  | mv :: rest => self' ← add_move self (whose_turn self) mv; replay self' rest
  end.

Fixpoint unwind (n : nat) (self : CLI) : result CLI :=
  match n with
  | O => Ok self
  | S n' => self' ← pop_move self; unwind n' self'
  end.

(** The move as [add_move] writes it into the command. *)
Definition engine_move (board_size : Z) (pos : string) : result string :=
  if String.eqb pos "" || String.eqb pos "tt" then Ok "pass"
  else convert_position board_size pos.

(** The three statistics read after the banner. *)
Definition summary_key (k : string) : Prop :=
  k = "best" \/ k = "winrate" \/ k = "visits".

(** The banner that ends the search output. *)
Definition is_banner (raw : string) : bool :=
  String.prefix "================" (PyStr.strip raw).

(** The stderr lines that are candidate lines, and those that announce a
    book position. *)
Definition candidate_lines `{D : Dialect} (stderr : list string) : list string :=
  filter (fun raw => is_Some (move_regex (PyStr.strip raw))) stderr.
Definition book_lines `{D : Dialect} (stderr : list string) : list string :=
  filter (fun raw => is_Some (bookmove_regex (PyStr.strip raw))) stderr.

(** ** Further invariants of the variation tree *)

Module TreeFacts.
Import Variations.

(** A node that exists and was not explored yet. *)
Definition unexplored (t : tree) (x : nat) : Prop :=
  exists nd, nodes t !! x = Some nd /\ explored nd = false.

(** The pool of leaves holds each unexplored node once and nothing else. *)
Definition pool_inv (t : tree) : Prop :=
  NoDup (leaves t) /\ forall x, x ∈ leaves t <-> unexplored t x.

(** The child slots of a node go with its candidates: as many slots as
    candidates, the child in slot [i] being reached by the move of
    candidate [i]; a node not yet explored has no slot. *)
Definition aligned_at (t : tree) (nd : node) : Prop :=
  length (children nd) = length (move_list nd)
  /\ (explored nd = false -> children nd = [])
  /\ forall i c, children nd !! i = Some (Some c) ->
       exists cd move p,
         nodes t !! c = Some cd /\ move_list nd !! i = Some move
         /\ move !! "pos" = Some p /\ history cd = history nd ++ [p].

Definition aligned (t : tree) : Prop :=
  forall n nd, nodes t !! n = Some nd -> aligned_at t nd.

(** The colour a node at a given depth must have. *)
Definition color_at (rootcolor : string) (depth : nat) : string :=
  if Nat.even depth then rootcolor else other_color rootcolor.

Definition colored (rootcolor : string) (t : tree) : Prop :=
  forall n nd, nodes t !! n = Some nd ->
    color nd = color_at rootcolor (length (history nd)).

End TreeFacts.

(** ** Retries, checkpoint names, the reader queue *)

(** The state that [k] attempts in a row leave behind when each of them
    raised; [None] when one of them returned. *)
Fixpoint failed_attempts {S A} (fn : S -> S * result A) (k : nat) (s : S) : option S :=
  match k with
  | O => Some s
  | S k' =>
      match fn s with
      | (s', Raise _) => failed_attempts fn k' s'
      | (_, Ok _) => None
      end
  end.

(** A string in which the character [c] does not occur. *)
Fixpoint lacks (c : ascii) (s : string) : bool :=
  match s with
  | EmptyString => true
  | String a s' => negb (Ascii.eqb a c) && lacks c s'
  end.

(** ReaderThread: the queue between the thread's [loop] and the readers.
    [queue.put] appends, [queue.get_nowait] takes the head or raises
    [Empty]. *)
Module Reader.

Abbreviation queue := (list string).

(** One turn of [loop] in which [fd.readline()] returned [line]. *)
Definition loop_turn (line : string) (q : queue) : queue :=
  if (0 <? String.length line)%nat then q ++ [line] else q.

(** ReaderThread.readline *)
Definition readline (q : queue) : string * queue :=
  match q with
  | [] => ("", [])
  | line :: rest => (line, rest)
  end.

(** ReaderThread.read_all_lines *)
Definition read_all_lines (q : queue) : list string * queue := (q, []).

(** What can happen to the queue: the thread puts what the stream gave,
    or a reader calls one of the two methods. *)
Inductive event : Type :=
  | Stream (line : string)
  | Readline
  | ReadAllLines.

(** The queue after the events, and the lines the readers were handed,
    in the order of the calls. *)
Fixpoint run (events : list event) (q : queue) : list string * queue :=
  match events with
  | [] => ([], q)
  | Stream line :: rest => run rest (loop_turn line q)
  | Readline :: rest =>
      let '(line, q') := readline q in
      let '(got, q'') := run rest q' in
      (line :: got, q'')
  | ReadAllLines :: rest =>
      let '(lines, q') := read_all_lines q in
      let '(got, q'') := run rest q' in
      (lines ++ got, q'')
  end.

(** The lines the stream gave, in order. *)
Definition streamed (events : list event) : list string :=
  omap (fun ev => match ev with Stream line => Some line | _ => None end) events.

Definition nonempty (line : string) : bool := negb (String.eqb line "").

End Reader.

(** ** The length of the variation that [record] shows *)

(** [int(x)] of a float: the fraction is cut off. *)
Definition py_int (x : Q) : Z := Z.quot (Qnum x) (Z.pos (Qden x)).

(** [int(min(len(pv), max(1, len(pv) * 2 / 3 - 1)))], the bound of the two
    loops over [pv] when [args.num_to_show] is [None].  [max] and [min]
    return their first argument on a tie. *)
Definition num_to_show (len_pv : Z) : Z :=
  let estimate := (inject_Z len_pv * 2 / 3 - 1)%Q in
  let most := if Qle_bool estimate 1 then 1%Q else estimate in
  py_int (if Qle_bool (inject_Z len_pv) most then inject_Z len_pv else most).

(** * Properties *)

(** ** Coordinates *)

Example convert_dd : convert_position 19 "dd" = Ok "d16".
Proof. reflexivity. Qed.
Example parse_D16 : parse_position 19 "D16" = Ok "dd".
Proof. reflexivity. Qed.
Example split_fields : PyStr.split "  D4  Q16 pass " = ["D4"; "Q16"; "pass"].
Proof. reflexivity. Qed.
Example to_int_literal : PyStr.to_int " -1_2 " = Ok (-12).
Proof. reflexivity. Qed.

Lemma every_board_round_trips : forallb round_trips_on_board (seq 1 25) = true.
Proof. vm_compute. reflexivity. Qed.

Lemma result_is_true r s : result_is r s = true -> r = Ok s.
Proof.
  destruct r as [s'|e]; simpl; [|discriminate].
  intros H. apply String.eqb_eq in H. now subst.
Qed.

Lemma round_trips_at bs i j :
  (1 <= bs <= 25)%nat -> (i < bs)%nat -> (j < bs)%nat -> round_trips bs i j = true.
Proof.
  intros Hbs Hi Hj.
  pose proof every_board_round_trips as H.
  rewrite forallb_forall in H.
  specialize (H bs). unfold round_trips_on_board in H.
  rewrite forallb_forall in H.
  assert (Hin : In bs (seq 1 25)) by (apply in_seq; lia).
  specialize (H Hin i).
  rewrite forallb_forall in H.
  apply H; apply in_seq; lia.
Qed.

(** C7 (as amended).  On every board of size 1 to 25: a record coordinate
    converted to the engine's notation and parsed back is unchanged; an
    engine coordinate written with a lower-case column letter and a plain
    row number, parsed and converted back, is unchanged, and one written
    with a capital comes back in lower case; [parse_position] sends "pass"
    to the empty record coordinate; and it is [add_move], not
    [convert_position], that sends the empty record coordinate to "pass". *)
Theorem coordinates_round_trip (bs i j : nat) :
  (1 <= bs <= 25)%nat -> (i < bs)%nat -> (j < bs)%nat ->
  (convert_position (Z.of_nat bs) (sgf_point i j) ≫= parse_position (Z.of_nat bs))
    = Ok (sgf_point i j)
  /\ (parse_position (Z.of_nat bs) (board_point i (Z.of_nat (j + 1)))
        ≫= convert_position (Z.of_nat bs))
    = Ok (board_point i (Z.of_nat (j + 1)))
  /\ (parse_position (Z.of_nat bs) (board_point_capital i (Z.of_nat (j + 1)))
        ≫= convert_position (Z.of_nat bs))
    = Ok (board_point i (Z.of_nat (j + 1)))
  /\ parse_position (Z.of_nat bs) "pass" = Ok ""
  /\ (forall self color,
        add_move self color "" =
        Ok (set_history self (history self ++ ["play " +:+ color +:+ " pass"]))).
Proof.
  intros Hbs Hi Hj.
  pose proof (round_trips_at bs i j Hbs Hi Hj) as H.
  unfold round_trips in H. apply andb_true_iff in H as [H12 H3].
  apply andb_true_iff in H12 as [H1 H2].
  apply result_is_true in H1. apply result_is_true in H2. apply result_is_true in H3.
  repeat split; auto.
Qed.

Lemma coordinates_round_trip_witness :
  (convert_position 19 "dd" ≫= parse_position 19) = Ok "dd"
  /\ (parse_position 19 "d4" ≫= convert_position 19) = Ok "d4"
  /\ (parse_position 19 "D4" ≫= convert_position 19) = Ok "d4".
Proof.
  destruct (coordinates_round_trip 19 3 3) as (H1 & H2 & H3 & _); [lia | lia | lia |].
  split; [exact H1 | split; [exact H2 | exact H3]].
Defined.

(** C7 as stated fails.  [convert_position] raises on the empty record
    coordinate instead of answering "pass", so that the engine move "pass"
    does not survive [convert_position(parse_position(c))]; and an engine
    coordinate in capitals, as the engine prints it, comes back in lower
    case. *)
Lemma coordinates_round_trip_counterexample :
  convert_position 19 "" = Raise IndexError
  /\ (parse_position 19 "pass" ≫= convert_position 19) = Raise IndexError
  /\ (parse_position 19 "D4" ≫= convert_position 19) = Ok "d4"
  /\ Ok "d4" <> Ok (A:=string) "D4".
Proof.
  split; [reflexivity|]. split; [reflexivity|]. split; [reflexivity|discriminate].
Qed.

(** ** The response parser *)

Ltac bind_inv H :=
  repeat match type of H with
  | context [@mbind result _ _ _ _ ?x] =>
      let E := fresh "E" in
      destruct x eqn:E; cbn [mbind result_bind] in H; [|discriminate H]
  end.

Section ParserFacts.
Context {D : Dialect}.
Variable self : CLI.

Lemma whose_turn_color : whose_turn self = "white" \/ whose_turn self = "black".
Proof.
  unfold whose_turn. destruct (last (history self)) as [cmd|].
  - destruct (PyStr.contains "white" cmd); auto.
  - destruct (is_handicap_game self); auto.
Qed.

Lemma on_status_flips line l l' m :
  status_regex line = Some m -> on_status self line l = Ok l' ->
  exists mc nn,
    (group m 1 ≫= py_float) = Ok mc /\ (group m 2 ≫= py_float) = Ok nn
    /\ stats l' !! "mc_winrate" = Some (VFloat (flip_winrate self mc))
    /\ stats l' !! "nn_winrate" = Some (VFloat (flip_winrate self nn)).
Proof.
  intros Hm H. unfold on_status in H. rewrite Hm in H.
  bind_inv H. inversion H; subst; clear H. cbn [stats].
  eexists _, _. cbn [mbind result_bind]. rewrite E0, E2.
  repeat split; by simplify_map_eq.
Qed.

Lemma on_move_flips line l l' m :
  move_regex line = Some m -> on_move self line l = Ok l' ->
  exists i wr mc nn,
    move_list l' = move_list l ++ [i] /\ info l' = Some i
    /\ (group m 3 ≫= to_fraction py_float) = Ok wr
    /\ (group m 4 ≫= to_fraction py_float) = Ok mc
    /\ (group m 5 ≫= to_fraction py_float) = Ok nn
    /\ i !! "winrate" = Some (VFloat (flip_winrate self wr))
    /\ i !! "mc_winrate" = Some (VFloat (flip_winrate self mc))
    /\ i !! "nn_winrate" = Some (VFloat (flip_winrate self nn)).
Proof.
  intros Hm H. unfold on_move in H. rewrite Hm in H.
  bind_inv H. inversion H; subst; clear H. cbn [move_list info].
  eexists _, _, _, _. cbn [mbind result_bind]. rewrite E4, E6, E8.
  repeat split; by simplify_map_eq.
Qed.

Lemma on_best_flips line l l' m :
  best_regex line = Some m -> on_best self line l = Ok l' ->
  exists wr,
    (group m 2 ≫= to_fraction py_float) = Ok wr
    /\ stats l' !! "winrate" = Some (VFloat (flip_winrate self wr)).
Proof.
  intros Hm H. unfold on_best in H. rewrite Hm in H.
  bind_inv H. inversion H; subst; clear H. cbn [stats].
  eexists. cbn [mbind result_bind]. rewrite E3.
  repeat split; by simplify_map_eq.
Qed.

End ParserFacts.

(** C5 (as amended).  One rule re-orients every win-rate that [parse]
    stores: the raw value [wr] becomes [1 - wr] when white is to move and is
    kept when black is to move.  The rule is applied to the two win-rates of
    a status line, the three of a candidate line and the one of the
    best-move line. *)
Theorem winrate_flip_rule `{D : Dialect} (self : CLI) :
  (whose_turn self = "white" -> forall wr, flip_winrate self wr = (1 - wr)%Q)
  /\ (whose_turn self = "black" -> forall wr, flip_winrate self wr = wr)
  /\ (forall line l l' m,
        status_regex line = Some m -> on_status self line l = Ok l' ->
        exists mc nn,
          (group m 1 ≫= py_float) = Ok mc /\ (group m 2 ≫= py_float) = Ok nn
          /\ stats l' !! "mc_winrate" = Some (VFloat (flip_winrate self mc))
          /\ stats l' !! "nn_winrate" = Some (VFloat (flip_winrate self nn)))
  /\ (forall line l l' m,
        move_regex line = Some m -> on_move self line l = Ok l' ->
        exists i wr mc nn,
          move_list l' = move_list l ++ [i] /\ info l' = Some i
          /\ (group m 3 ≫= to_fraction py_float) = Ok wr
          /\ (group m 4 ≫= to_fraction py_float) = Ok mc
          /\ (group m 5 ≫= to_fraction py_float) = Ok nn
          /\ i !! "winrate" = Some (VFloat (flip_winrate self wr))
          /\ i !! "mc_winrate" = Some (VFloat (flip_winrate self mc))
          /\ i !! "nn_winrate" = Some (VFloat (flip_winrate self nn)))
  /\ (forall line l l' m,
        best_regex line = Some m -> on_best self line l = Ok l' ->
        exists wr,
          (group m 2 ≫= to_fraction py_float) = Ok wr
          /\ stats l' !! "winrate" = Some (VFloat (flip_winrate self wr))).
Proof.
  split; [|split; [|split; [|split]]].
  - intros H wr. unfold flip_winrate. now rewrite H.
  - intros H wr. unfold flip_winrate. now rewrite H.
  - apply on_status_flips.
  - apply on_move_flips.
  - apply on_best_flips.
Qed.

(** A raw 0.7 with white to move becomes 0.3; with black to move it stays. *)
Lemma winrate_flip_rule_witness :
  flip_winrate Demo.white_to_move (7 # 10) = (1 - (7 # 10))%Q
  /\ flip_winrate Demo.black_to_move (7 # 10) = (7 # 10)%Q
  /\ (1 - (7 # 10) == 3 # 10)%Q.
Proof.
  split; [|split].
  - apply (proj1 (winrate_flip_rule (D:=Demo.dialect) Demo.white_to_move)). reflexivity.
  - apply (proj1 (proj2 (winrate_flip_rule (D:=Demo.dialect) Demo.black_to_move))). reflexivity.
  - reflexivity.
Defined.

(** C5 as stated fails: with black to move a raw 0.7 is stored as 0.7, not
    as 0.3. *)
Lemma winrate_flip_counterexample :
  whose_turn Demo.black_to_move = "black"
  /\ flip_winrate Demo.black_to_move (7 # 10) = (7 # 10)%Q
  /\ ~ (flip_winrate Demo.black_to_move (7 # 10) == 3 # 10)%Q.
Proof. split; [reflexivity|split; [reflexivity|]]. intros H. vm_compute in H. discriminate. Qed.

Section ParseShape.
Context {D : Dialect}.
Variable self : CLI.

Lemma on_bookmove_keeps line l l' :
  on_bookmove line l = Ok l' -> move_list l' = move_list l /\ info l' = info l.
Proof.
  unfold on_bookmove. destruct (bookmove_regex line); intros H.
  - bind_inv H. now inversion H.
  - now inversion H.
Qed.

Lemma on_status_keeps line l l' :
  on_status self line l = Ok l' -> move_list l' = move_list l /\ info l' = info l.
Proof.
  unfold on_status. destruct (status_regex line); intros H.
  - bind_inv H. now inversion H.
  - now inversion H.
Qed.

Lemma on_best_keeps line l l' :
  on_best self line l = Ok l' -> move_list l' = move_list l /\ info l' = info l.
Proof.
  unfold on_best. destruct (best_regex line); intros H.
  - bind_inv H. now inversion H.
  - now inversion H.
Qed.

Lemma on_stats_keeps line l l' :
  on_stats line l = Ok l' -> move_list l' = move_list l /\ info l' = info l.
Proof.
  unfold on_stats. destruct (stats_regex line); intros H.
  - bind_inv H. now inversion H.
  - now inversion H.
Qed.

Lemma on_move_scanned line l l' :
  scanned l -> on_move self line l = Ok l' -> scanned l'.
Proof.
  intros [Hall Hinfo] H. unfold on_move in H.
  destruct (move_regex line) as [m|]; [|now inversion H; subst].
  bind_inv H. inversion H; subst; clear H. split; cbn [move_list info].
  - apply Forall_app. split; [assumption|]. constructor; [|constructor].
    eexists _, _. split; by simplify_map_eq.
  - now rewrite last_snoc.
Qed.

Lemma scan_line_scanned raw l l' :
  scanned l -> scan_line self raw l = Ok l' -> scanned l'.
Proof.
  intros Hl H. unfold scan_line in H.
  bind_inv H.
  apply on_bookmove_keeps in E as [Em Ei]. cbn [move_list info] in Em, Ei.
  apply on_status_keeps in E0 as [Em0 Ei0].
  assert (Ha : scanned a0).
  { destruct Hl as [? ?]. split; [now rewrite Em0, Em | now rewrite Em0, Ei0, Ei, Em]. }
  pose proof (on_move_scanned _ _ _ Ha E1) as Ha1.
  destruct (finished a1 && negb (summarized a1)).
  - bind_inv H. apply on_best_keeps in E as [Em2 Ei2]. apply on_stats_keeps in H as [Em3 Ei3].
    destruct Ha1 as [? ?]. split; [now rewrite Em3, Em2 | now rewrite Em3, Ei3, Ei2, Em2].
  - now inversion H; subst.
Qed.

Lemma scan_from_scanned stderr : forall l l',
  scanned l -> scan_from self l stderr = Ok l' -> scanned l'.
Proof.
  induction stderr as [|raw rest IH]; intros l l' Hl H; simpl in H.
  - now inversion H; subst.
  - bind_inv H. eapply IH; [|exact H]. eapply scan_line_scanned; eauto.
Qed.

Lemma scan_scanned stderr l : scan self stderr = Ok l -> scanned l.
Proof. apply scan_from_scanned. split; [constructor|reflexivity]. Qed.
End ParseShape.

Section Ordering.
Lemma traverse_length {A B} (f : A -> result B) l l' :
  traverse f l = Ok l' -> length l' = length l.
Proof.
  revert l'. induction l as [|x l IH]; intros l' H; simpl in H.
  - now inversion H.
  - bind_inv H. inversion H; subst. simpl. f_equal. now apply IH.
Qed.

Lemma traverse_const {A B} (f : A -> result B) c l :
  (forall x, f x = Ok c) -> traverse f l = Ok (replicate (length l) c).
Proof.
  intros Hf. induction l as [|x l IH]; simpl; [reflexivity|].
  rewrite Hf, IH. reflexivity.
Qed.

Lemma insert_desc_perm {A} k (x : A) l : insert_desc k x l ≡ₚ (k, x) :: l.
Proof.
  induction l as [|[k' y] l IH]; simpl; [reflexivity|].
  destruct (k <? k'); [|reflexivity].
  rewrite IH. apply Permutation_swap.
Qed.

Lemma sort_desc_perm {A} (l : list (Z * A)) : sort_desc l ≡ₚ l.
Proof.
  induction l as [|[k x] l IH]; simpl; [reflexivity|].
  rewrite insert_desc_perm. now rewrite IH.
Qed.

Lemma sorted_reverse_perm {A} (key : A -> result Z) l l' :
  sorted_reverse key l = Ok l' -> l' ≡ₚ l.
Proof.
  unfold sorted_reverse. intros H. bind_inv H. inversion H; subst; clear H.
  rewrite sort_desc_perm. rewrite snd_zip; [reflexivity|].
  apply traverse_length in E. lia.
Qed.

(** With one key for all elements the order is kept: this is the case of
    [sort_key], whose value does not depend on the element. *)
Lemma sort_desc_constant {A} (c : Z) (l : list A) :
  sort_desc (zip (replicate (length l) c) l) = zip (replicate (length l) c) l.
Proof.
  induction l as [|x l IH]; simpl; [reflexivity|].
  rewrite IH. destruct l as [|y l]; simpl; [reflexivity|].
  now rewrite Z.ltb_irrefl.
Qed.

Lemma sorted_reverse_constant {A} (key : A -> result Z) c l :
  (forall x, key x = Ok c) -> sorted_reverse key l = Ok l.
Proof.
  intros Hkey. unfold sorted_reverse. rewrite (traverse_const _ c _ Hkey).
  cbn [mbind result_bind]. rewrite sort_desc_constant, snd_zip; [reflexivity|].
  rewrite length_replicate. lia.
Qed.

Example sorted_reverse_is_stable :
  sorted_reverse (fun x : Z * string => Ok x.1) [(1, "a"); (2, "c"); (1, "b"); (3, "d")]
  = Ok [(3, "d"); (2, "c"); (1, "a"); (1, "b")].
Proof. reflexivity. Qed.

Lemma keep_tail i l k :
  keep_visited (S i) l = Ok k -> k = filter (fun d => 0 < visits_of d) l.
Proof.
  revert i k. induction l as [|x l IH]; intros i k H; simpl in H.
  - now inversion H.
  - bind_inv H. inversion H; subst; clear H.
    apply IH in E0. subst a0.
    unfold item in E. destruct (x !! "visits") as [v|] eqn:Ev; [|discriminate].
    cbn [mbind result_bind] in E.
    destruct (as_int v) as [n|] eqn:En; cbn [mbind result_bind] in E; [|discriminate].
    inversion E; subst; clear E.
    assert (Hv : visits_of x = n).
    { unfold visits_of. rewrite Ev.
      destruct v as [?| | |[]|]; simpl in En; now inversion En. }
    rewrite filter_cons, Hv.
    destruct (0 <? n) eqn:Hn; [apply Z.ltb_lt in Hn|apply Z.ltb_ge in Hn];
      destruct (decide (0 < n)); try lia; reflexivity.
Qed.

Lemma keep_is_retain l k : keep_visited 0 l = Ok k -> k = retain l.
Proof.
  destruct l as [|x l]; simpl; intros H.
  - now inversion H.
  - cbn [mbind result_bind] in H. bind_inv H. inversion H; subst.
    apply keep_tail in E. now subst.
Qed.

End Ordering.

Section ParseTheorems.
Context {D : Dialect}.
Variable self : CLI.



(** C1 (as amended).  When no book-move count was found or at least one
    candidate was parsed, the list [parse] returns is the parsed candidates
    in the order the sort leaves them, with position 0 retained and every
    later candidate that has zero visits dropped.  Hence every survivor
    after position 0 was visited, every visited candidate survives, and a
    zero-visit candidate can survive at position 0 only (for visit counts
    5, 0, 0, 50: the two visited candidates always survive). *)
Theorem parse_orders_then_filters stdout stderr l st w st' ml :
  scan self stderr = Ok l ->
  find_chosen self stdout (stats l) = Ok st ->
  has_key st "bookmoves" = false \/ move_list l <> [] ->
  parse self stdout stderr = (w, Ok (st', ml)) ->
  (exists ordered, ordered ≡ₚ move_list l /\ ml = retain ordered)
  /\ (forall i d, ml !! S i = Some d -> 0 < visits_of d)
  /\ (forall d, d ∈ move_list l -> 0 < visits_of d -> d ∈ ml)
  /\ (move_list l <> [] -> exists d, ml !! 0%nat = Some d).
Proof.
  intros Hscan Hchosen Hbranch Hparse.
  unfold parse in Hparse. rewrite Hscan, Hchosen in Hparse.
  unfold conclude in Hparse.
  assert (Hb : has_key st "bookmoves" && (length (move_list l) =? 0)%nat = false).
  { destruct Hbranch as [->|Hne]; [reflexivity|].
    destruct (move_list l); [congruence|]. simpl. apply andb_false_r. }
  rewrite Hb in Hparse. injection Hparse as _ Hres.
  bind_inv Hres.
  assert (Hml : ml = a0).
  { destruct (pyval_eqb a1 (VStr "resign")).
    - bind_inv Hres. now inversion Hres.
    - now inversion Hres. }
  subst a0. clear Hres.
  apply sorted_reverse_perm in E. apply keep_is_retain in E0.
  assert (Hex : exists ordered, ordered ≡ₚ move_list l /\ ml = retain ordered) by eauto.
  split; [exact Hex|]. clear Hex.
  destruct a as [|x rest]; simpl in E0; subst ml.
  - repeat split.
    + intros i d H. rewrite lookup_nil in H. discriminate.
    + intros d Hd. rewrite <- E in Hd. by apply elem_of_nil in Hd.
    + intros Hne. apply Permutation_nil_l in E. congruence.
  - repeat split.
    + intros i d H. simpl in H. apply list_elem_of_lookup_2 in H.
      apply list_elem_of_filter in H. tauto.
    + intros d Hd Hv. rewrite <- E in Hd. apply elem_of_cons in Hd as [->|Hd].
      * apply elem_of_cons. by left.
      * apply elem_of_cons. right. apply list_elem_of_filter. tauto.
    + intros _. simpl. eauto.
Qed.

(** The order the sort leaves is the parsed one: the key does not depend on
    the element it is computed for. *)
Lemma parse_keeps_parsed_order stdout stderr l st w st' ml :
  scan self stderr = Ok l ->
  find_chosen self stdout (stats l) = Ok st ->
  has_key st "bookmoves" = false \/ move_list l <> [] ->
  parse self stdout stderr = (w, Ok (st', ml)) ->
  ml = retain (move_list l).
Proof.
  intros Hscan Hchosen Hbranch Hparse.
  unfold parse in Hparse. rewrite Hscan, Hchosen in Hparse.
  unfold conclude in Hparse.
  assert (Hb : has_key st "bookmoves" && (length (move_list l) =? 0)%nat = false).
  { destruct Hbranch as [->|Hne]; [reflexivity|].
    destruct (move_list l); [congruence|]. simpl. apply andb_false_r. }
  rewrite Hb in Hparse. injection Hparse as _ Hres.
  bind_inv Hres.
  assert (Hml : ml = a0).
  { destruct (pyval_eqb a1 (VStr "resign")).
    - bind_inv Hres. now inversion Hres.
    - now inversion Hres. }
  subst a0. clear Hres.
  apply keep_is_retain in E0. subst ml. f_equal.
  destruct (move_list l) as [|x rest] eqn:Hl.
  - unfold sorted_reverse in E. simpl in E. now inversion E.
  - rewrite <- Hl in *.
    destruct (sort_key st (info l) x) as [c|e] eqn:Hc.
    + rewrite (sorted_reverse_constant _ c) in E; [now inversion E|].
      intros y. exact Hc.
    + unfold sorted_reverse in E. rewrite Hl in E. simpl in E.
      rewrite Hc in E. discriminate.
Qed.





End ParseTheorems.

Lemma parse_orders_then_filters_witness :
  Demo.summary (move_list Demo.scanned_locals)
    = [(Some (VStr "cq"), 5); (Some (VStr "dp"), 0); (Some (VStr "eo"), 0);
       (Some (VStr "pd"), 50)]
  /\ (exists ordered,
        ordered ≡ₚ move_list Demo.scanned_locals
        /\ Demo.returned_moves = retain ordered)
  /\ (forall d, d ∈ move_list Demo.scanned_locals -> 0 < visits_of d ->
        d ∈ Demo.returned_moves).
Proof.
  split; [vm_compute; reflexivity|].
  assert (H1 : scan (D:=Demo.dialect) Demo.black_to_move Demo.transcript_err
               = Ok Demo.scanned_locals) by (vm_compute; reflexivity).
  assert (H2 : find_chosen (D:=Demo.dialect) Demo.black_to_move Demo.transcript_out
                 (stats Demo.scanned_locals) = Ok Demo.scanned_stats)
    by (vm_compute; reflexivity).
  assert (H3 : has_key Demo.scanned_stats "bookmoves" = false
               \/ move_list Demo.scanned_locals <> [])
    by (left; vm_compute; reflexivity).
  assert (H4 : parse (D:=Demo.dialect) Demo.black_to_move Demo.transcript_out
                 Demo.transcript_err
               = (Demo.parsed.1, Ok (Demo.returned_stats, Demo.returned_moves)))
    by (vm_compute; reflexivity).
  destruct (parse_orders_then_filters (D:=Demo.dialect) _ _ _ _ _ _ _ _ H1 H2 H3 H4)
    as (Hord & _ & Hvis & _).
  split; [exact Hord | exact Hvis].
Defined.

(** C1 as stated fails on its own example.  The four candidates have 5, 0, 0
    and 50 visits and the best move is the fourth; the returned list starts
    with the first candidate, not the fourth, and holds no zero-visit
    candidate. *)
Lemma candidate_order_counterexample :
  Demo.summary (move_list Demo.scanned_locals)
    = [(Some (VStr "cq"), 5); (Some (VStr "dp"), 0); (Some (VStr "eo"), 0);
       (Some (VStr "pd"), 50)]
  /\ Demo.scanned_stats !! "best" = Some (VStr "pd")
  /\ is_ok Demo.parsed.2 = true
  /\ Demo.summary Demo.returned_moves
    = [(Some (VStr "cq"), 5); (Some (VStr "pd"), 50)].
Proof. repeat split; vm_compute; reflexivity. Qed.



(** ** The protocol client *)

Section SendCommand.
Import Client.
Variable polls : nat -> list string.

Lemma marks_nonneg lines : 0 <= marks lines.
Proof.
  induction lines as [|s rest IH]; simpl; [lia|].
  destruct (String.eqb s ""); [lia|]. destruct (PyStr.contains "=" s); lia.
Qed.

Lemma marks_before_mono n m : (n <= m)%nat -> marks_before polls n <= marks_before polls m.
Proof.
  induction 1 as [|m _ IH]; [lia|]. simpl. pose proof (marks_nonneg (polls m)). lia.
Qed.

Lemma marker_line_nonempty s : PyStr.contains "=" s = true -> String.eqb s "" = false.
Proof. destruct s; [discriminate|reflexivity]. Qed.

(** One round: acknowledged exactly when the running count reaches the
    expected one within the round. *)
Lemma read_round_spec expected lines : forall c,
  c < expected ->
  match read_round expected c lines with
  | Acked => expected <= c + marks lines
  | Waiting c' => c' = c + marks lines /\ c' < expected
  end.
Proof.
  induction lines as [|s rest IH]; intros c Hc; simpl; [lia|].
  destruct (PyStr.contains "=" s) eqn:Hs.
  - rewrite (marker_line_nonempty _ Hs).
    pose proof (marks_nonneg rest).
    destruct (expected <=? c + 1) eqn:He.
    + apply Z.leb_le in He. lia.
    + apply Z.leb_gt in He. specialize (IH (c + 1) He).
      destruct (read_round expected (c + 1) rest); lia.
  - destruct (String.eqb s ""); [lia|].
    specialize (IH c Hc). destruct (read_round expected c rest); lia.
Qed.

Lemma wait_spec expected : forall left tries,
  marks_before polls tries < expected ->
  match wait polls expected left tries (marks_before polls tries) with
  | Some k =>
      (tries <= k < tries + left)%nat
      /\ marks_before polls k < expected <= marks_before polls (S k)
  | None => marks_before polls (tries + left) < expected
  end.
Proof.
  induction left as [|left IH]; intros tries Hc; simpl.
  - now rewrite Nat.add_0_r.
  - pose proof (read_round_spec expected (polls tries) _ Hc) as Hr.
    destruct (read_round expected (marks_before polls tries) (polls tries)) as [|c'].
    + simpl. split; [lia|]. lia.
    + destruct Hr as [-> Hlt].
      specialize (IH (S tries) Hlt). simpl in IH.
      destruct (wait polls expected left (S tries)
                  (marks_before polls tries + marks (polls tries))) as [k|].
      * destruct IH as [Hk Hm]. split; [lia|exact Hm].
      * now rewrite Nat.add_succ_r.
Qed.

(** For an expected count of at least one the call does what is said of
    it: [send_command] writes the command and a newline and returns
    normally exactly when the marker lines read within the 201 polling
    rounds ([tries] from 0 to 200) reach the expected count, in the first
    round in which they do; otherwise it raises the exception whose message
    quotes the command. *)
Theorem send_command_acknowledged (cmd : string) (expected : Z) :
  1 <= expected ->
  (send_command polls cmd expected).1 = cmd +:+ String "010"%char EmptyString
  /\ (expected <= marks_before polls (S timeout) ->
        (send_command polls cmd expected).2 = Ok tt
        /\ exists k, wait polls expected (S timeout) 0 0 = Some k
             /\ (k <= timeout)%nat
             /\ marks_before polls k < expected <= marks_before polls (S k))
  /\ (marks_before polls (S timeout) < expected ->
        (send_command polls cmd expected).2
        = Raise (Exception ("Failed to send command '" +:+ cmd +:+ "' to Ray"))).
Proof.
  intros Hexp. split; [reflexivity|].
  assert (H0 : marks_before polls 0 < expected) by (simpl; lia).
  pose proof (wait_spec expected (S timeout) 0 H0) as Hw.
  change (marks_before polls 0) with 0 in Hw.
  unfold send_command. cbn [snd].
  destruct (wait polls expected (S timeout) 0 0) as [k|] eqn:Ek.
  - destruct Hw as [Hk Hm]. split.
    + intros _. split; [reflexivity|]. exists k. repeat split; try lia.
    + intros Hlt.
      pose proof (marks_before_mono (S k) (S timeout) ltac:(lia)). lia.
  - split.
    + intros Hge. simpl Nat.add in Hw. lia.
    + intros _. reflexivity.
Qed.

Lemma read_round_at_most_one expected lines :
  expected <= 1 -> read_round expected 0 lines = read_round 1 0 lines.
Proof.
  intros Hexp. induction lines as [|s rest IH]; simpl; [reflexivity|].
  destruct (PyStr.contains "=" s).
  - change (0 + 1) with 1.
    replace (expected <=? 1) with true by (symmetry; apply Z.leb_le; lia). reflexivity.
  - destruct (String.eqb s ""); [reflexivity|exact IH].
Qed.

Lemma read_round_waits_at_zero lines c :
  read_round 1 0 lines = Waiting c -> c = 0.
Proof.
  intros H. pose proof (read_round_spec 1 lines 0 ltac:(lia)) as Hr.
  rewrite H in Hr. pose proof (marks_nonneg lines). lia.
Qed.

Lemma wait_at_most_one expected left : forall tries,
  expected <= 1 -> wait polls expected left tries 0 = wait polls 1 left tries 0.
Proof.
  induction left as [|left IH]; intros tries Hexp; simpl; [reflexivity|].
  rewrite (read_round_at_most_one expected _ Hexp).
  destruct (read_round 1 0 (polls tries)) as [|c] eqn:Hr; [reflexivity|].
  apply read_round_waits_at_zero in Hr. subst c. apply IH. exact Hexp.
Qed.

(** C8.  The count is compared with the expected one only after a marker
    line has been read.  For an expected count of zero, which the count of
    marker lines has reached before anything is read, [send_command]
    therefore does not return at once: it behaves as if one
    acknowledgement were expected, and when no marker line comes within
    the 201 rounds it raises. *)
Theorem send_command_zero_expected (cmd : string) (expected : Z) :
  expected <= 0 ->
  expected <= marks_before polls 0
  /\ send_command polls cmd expected = send_command polls cmd 1
  /\ (marks_before polls (S timeout) = 0 ->
        (send_command polls cmd expected).2 = Raise (failure cmd)).
Proof.
  intros Hexp. split; [simpl; lia|].
  assert (Hsame : send_command polls cmd expected = send_command polls cmd 1).
  { unfold send_command. rewrite (wait_at_most_one expected) by lia. reflexivity. }
  split; [exact Hsame|].
  intros Hsilent. rewrite Hsame.
  destruct (send_command_acknowledged cmd 1 ltac:(lia)) as (_ & _ & Hraise).
  rewrite Hraise by lia. reflexivity.
Qed.

End SendCommand.

(** Two marker lines arrive in rounds 0 and 3; two acknowledgements are
    expected: the call returns in round 3. *)
Lemma send_command_acknowledged_witness :
  (Client.send_command
     (fun k => match k with O => ["= "; "info"] | 3%nat => ["="] | _ => [] end)
     "play black d4" 2).2 = Ok tt.
Proof.
  refine (proj1 (proj1 (proj2 (send_command_acknowledged _ "play black d4" 2 _)) _)).
  - lia.
  - vm_compute. discriminate.
Defined.

(** [go_to_position] on an empty history passes an expected count of
    zero with the empty command: the engine staying silent, the call raises
    after the last round. *)
Lemma send_command_zero_expected_witness :
  (Client.go_to_position (fun _ => []) (mkCLI 19 false [])).2
  = Raise (Client.failure "").
Proof.
  exact (proj2 (proj2 (send_command_zero_expected (fun _ => []) "" 0 ltac:(lia))) eq_refl).
Defined.

(** ** The analysis cache *)

Section CacheFacts.
Context {E : Type} {eng : Leela.Engine E}.

Lemma analyze_afresh_ok fn secs (leela leela' : E) (fs fs' : checkpoints) r skipped :
  analyze_afresh fn secs leela fs = ((leela', fs'), Ok (r, skipped)) ->
  skipped = false
  /\ fs' = <[fn := r]> fs
  /\ exists l1 l2,
       Leela.reset leela = (l1, Ok tt)
       /\ Leela.go_to_position l1 = (l2, Ok tt)
       /\ Leela.analyze l2 secs = (leela', Ok r).
Proof.
  unfold analyze_afresh. intros H.
  destruct (Leela.reset leela) as [l1 [[]|e1]] eqn:E1; [|discriminate].
  destruct (Leela.go_to_position l1) as [l2 [[]|e2]] eqn:E2; [|discriminate].
  destruct (Leela.analyze l2 secs) as [l3 [[st ml]|e3]] eqn:E3; [|discriminate].
  inversion H; subst; clear H.
  repeat split. eauto.
Qed.


End CacheFacts.


(** ** The variation expander *)

Section VariationFacts.
Import Variations.
Variable rootcolor : string.
Variable game_move : option string.
Variable analysis : nat -> list pyval -> result (dict * list dict).

Lemma traverse_lookup {A B} (f : A -> result B) l l' :
  traverse f l = Ok l' ->
  forall i, match l !! i with
            | Some x => exists y, l' !! i = Some y /\ f x = Ok y
            | None => l' !! i = None
            end.
Proof.
  revert l'. induction l as [|x l IH]; intros l' H i; simpl in H.
  - inversion H. reflexivity.
  - bind_inv H. inversion H; subst; clear H.
    destruct i as [|i]; simpl; [eauto|]. apply IH. reflexivity.
Qed.

Lemma number_slots_lookup slots : forall next i,
  match slots !! i with
  | None => number_slots next slots !! i = None
  | Some None => number_slots next slots !! i = Some None
  | Some (Some cd) =>
      exists k, number_slots next slots !! i = Some (Some (next + k)%nat)
                /\ created slots !! k = Some cd
  end.
Proof.
  induction slots as [|[cd|] slots IH]; intros next i; [reflexivity| |].
  - destruct i as [|i]; simpl.
    + exists 0%nat. rewrite Nat.add_0_r. auto.
    + specialize (IH (S next) i). destruct (slots !! i) as [[cd'|]|]; auto.
      destruct IH as (k & Hk & Hc). exists (S k).
      rewrite Nat.add_succ_r. auto.
  - destruct i as [|i]; simpl; [reflexivity|]. apply IH.
Qed.

Lemma number_slots_Some slots next i c :
  number_slots next slots !! i = Some (Some c) ->
  exists k cd, c = (next + k)%nat /\ created slots !! k = Some cd
               /\ slots !! i = Some (Some cd).
Proof.
  intros H. pose proof (number_slots_lookup slots next i) as L.
  destruct (slots !! i) as [[cd|]|]; [|congruence|congruence].
  destruct L as (k & Hk & Hc). rewrite Hk in H. inversion H. eauto.
Qed.

Lemma created_lookup slots k cd :
  created slots !! k = Some cd -> exists i, slots !! i = Some (Some cd).
Proof.
  intros H. apply list_elem_of_lookup_2 in H.
  unfold created in H. apply list_elem_of_omap in H as (x & Hx & Hid).
  simpl in Hid. subst x. apply list_elem_of_lookup_1 in Hx. exact Hx.
Qed.

Lemma foldl_Qplus_bounds ws : forall a,
  Forall (fun w => 0 <= w)%Q ws ->
  (a <= foldl Qplus a ws)%Q
  /\ forall w, w ∈ ws -> (a + w <= foldl Qplus a ws)%Q.
Proof.
  induction ws as [|x ws IH]; intros a Hall; simpl.
  - split; [lra|]. intros w Hw. by apply elem_of_nil in Hw.
  - apply Forall_cons in Hall as [Hx Hall].
    destruct (IH (a + x)%Q Hall) as [H1 H2]. split; [lra|].
    intros w Hw. apply elem_of_cons in Hw as [->|Hw]; [exact H1|].
    specialize (H2 w Hw). lra.
Qed.

Lemma foldl_Qplus_zero ws : forall a,
  Forall (fun w => w == 0)%Q ws -> (foldl Qplus a ws == a)%Q.
Proof.
  induction ws as [|x ws IH]; intros a Hall; simpl; [reflexivity|].
  apply Forall_cons in Hall as [Hx Hall]. rewrite (IH _ Hall). lra.
Qed.

Lemma raw_nonneg nd d w :
  nonneg_candidate d -> child_prob_raw rootcolor nd d = Ok w -> (0 <= w)%Q.
Proof.
  intros [Hv Hp] H. unfold child_prob_raw in H.
  destruct (has_key d "is_book"); [inversion H; lra|].
  destruct (String.eqb (color nd) rootcolor).
  - apply Hv. exact H.
  - bind_inv H. inversion H; subst; clear H.
    assert (0 <= a1)%Q by (apply Hp; exact E1).
    assert (0 <= a2)%Q by (apply Hv; exact E2).
    apply Qle_shift_div_l; lra.
Qed.

Lemma child_slot_Some nd s move cd :
  child_slot rootcolor game_move nd s move = Ok (Some cd) ->
  exists p w,
    move !! "pos" = Some p
    /\ (is_root nd = true -> is_game_move game_move p = false)
    /\ child_prob_raw rootcolor nd move = Ok w
    /\ ~ (s == 0)%Q
    /\ cd = mkNode [] false (history nd ++ [p]) false (prob nd * (w / s))%Q ∅ []
              (if String.eqb (color nd) "black" then "white" else "black").
Proof.
  unfold child_slot, child_prob. intros H.
  destruct (move !! "pos") as [p|] eqn:Hp.
  2:{ unfold item in H. rewrite Hp in H. destruct (is_root nd); discriminate. }
  assert (Hitem : item move "pos" = Ok p) by (unfold item; now rewrite Hp).
  rewrite Hitem in H. cbn [mbind result_bind] in H.
  exists p.
  destruct (is_root nd) eqn:Hroot; cbn [mbind result_bind] in H.
  - destruct (is_game_move game_move p) eqn:Hg; [discriminate|].
    destruct (child_prob_raw rootcolor nd move) as [w|] eqn:Hw;
      cbn [mbind result_bind] in H; [|discriminate].
    destruct (Qeq_bool s 0) eqn:Hs; cbn [mbind result_bind] in H; [discriminate|].
    exists w. apply Qeq_bool_neq in Hs. inversion H. auto.
  - destruct (child_prob_raw rootcolor nd move) as [w|] eqn:Hw;
      cbn [mbind result_bind] in H; [|discriminate].
    destruct (Qeq_bool s 0) eqn:Hs; cbn [mbind result_bind] in H; [discriminate|].
    exists w. apply Qeq_bool_neq in Hs. inversion H. repeat split; auto. discriminate.
Qed.

Lemma child_slot_None nd s move :
  child_slot rootcolor game_move nd s move = Ok None ->
  is_root nd = true
  /\ exists p, move !! "pos" = Some p /\ is_game_move game_move p = true.
Proof.
  unfold child_slot, child_prob. intros H.
  destruct (is_root nd) eqn:Hroot; cbn [mbind result_bind] in H.
  - split; [reflexivity|]. unfold item in H.
    destruct (move !! "pos") as [p|] eqn:Hp; [|discriminate].
    cbn [mbind result_bind] in H. exists p. split; [reflexivity|].
    destruct (is_game_move game_move p); [reflexivity|].
    bind_inv H. discriminate.
  - bind_inv H. discriminate.
Qed.

(** What a successful [expand] did. *)
Lemma expand_Ok n st moves t t' :
  expand rootcolor game_move n st moves t = Ok t' ->
  exists nd s slots,
    nodes t !! n = Some nd
    /\ prob_sum rootcolor nd moves = Ok s
    /\ traverse (child_slot rootcolor game_move nd s) moves = Ok slots
    /\ t' = mkTree
              (<[n := mkNode (children nd ++ number_slots (length (nodes t)) slots)
                        (is_root nd) (history nd) true (prob nd) st moves (color nd)]>
                 (nodes t) ++ created slots)
              (remove_first n (leaves t ++ seq (length (nodes t)) (length (created slots))))
              (searched t).
Proof.
  unfold expand. intros H.
  destruct (nodes t !! n) as [nd|]; [|discriminate].
  destruct (negb _); [discriminate|].
  bind_inv H. inversion H; subst; clear H. eauto 10.
Qed.

Lemma traverse_Forall {A B} (f : A -> result B) (P : A -> Prop) (R : B -> Prop) l l' :
  (forall x y, P x -> f x = Ok y -> R y) ->
  Forall P l -> traverse f l = Ok l' -> Forall R l'.
Proof.
  intros Hf Hall. revert l'. induction Hall as [|x l Hx _ IH]; intros l' H; simpl in H.
  - inversion H. constructor.
  - bind_inv H. inversion H; subst; clear H. constructor; eauto.
Qed.

(** The nodes of the store after an expansion: an old node other than the
    expanded one, the expanded one, or a fresh child. *)
Lemma expanded_lookup (l : list node) n nd' fresh m x :
  (n < length l)%nat ->
  (<[n := nd']> l ++ fresh) !! m = Some x ->
  (m <> n /\ l !! m = Some x)
  \/ (m = n /\ x = nd')
  \/ ((length l <= m)%nat /\ fresh !! (m - length l)%nat = Some x).
Proof.
  intros Hn H. apply lookup_app_Some in H as [H|[Hm H]].
  - apply list_lookup_insert_Some in H as [(-> & -> & _)|[Hne H]]; auto.
  - rewrite length_insert in Hm, H. auto.
Qed.

Lemma expanded_old (l : list node) n nd nd' fresh m x :
  l !! n = Some nd -> prob nd' = prob nd ->
  l !! m = Some x ->
  exists x', (<[n := nd']> l ++ fresh) !! m = Some x' /\ prob x' = prob x.
Proof.
  intros Hn Hp Hm. destruct (decide (m = n)) as [->|Hne].
  - exists nd'. split.
    + apply lookup_app_l_Some. apply list_lookup_insert_eq. by eapply lookup_lt_Some.
    + congruence.
  - exists x. split; [|reflexivity].
    apply lookup_app_l_Some. rewrite list_lookup_insert_ne; auto.
Qed.

(** A fresh child has no children yet, and its reaching probability is the
    parent's times a factor between 0 and 1. *)
Lemma fresh_child nd s moves slots i cd :
  Forall nonneg_candidate moves ->
  (0 <= prob nd)%Q ->
  prob_sum rootcolor nd moves = Ok s ->
  traverse (child_slot rootcolor game_move nd s) moves = Ok slots ->
  slots !! i = Some (Some cd) ->
  children cd = [] /\ (0 <= prob cd <= prob nd)%Q.
Proof.
  intros Hmoves Hnd Hsum Hslots Hi.
  pose proof (traverse_lookup _ _ _ Hslots i) as L.
  destruct (moves !! i) as [move|] eqn:Hmove; [|congruence].
  destruct L as (y & Hy & Hslot). rewrite Hi in Hy. inversion Hy; subst y; clear Hy.
  apply child_slot_Some in Hslot as (p & w & Hp & _ & Hw & Hs & ->).
  split; [reflexivity|]. cbn [prob].
  unfold prob_sum in Hsum. bind_inv Hsum. inversion Hsum; subst s; clear Hsum.
  rename a into ws.
  assert (Hws : Forall (fun w => 0 <= w)%Q ws).
  { eapply traverse_Forall; [|exact Hmoves|exact E]. intros x y. apply raw_nonneg. }
  pose proof (traverse_lookup _ _ _ E i) as L. rewrite Hmove in L.
  destruct L as (w' & Hw' & Hraw). rewrite Hw in Hraw. inversion Hraw; subst w'.
  destruct (foldl_Qplus_bounds ws 0%Q Hws) as [Hge Hle].
  specialize (Hle w (list_elem_of_lookup_2 _ _ _ Hw')).
  assert (H0w : (0 <= w)%Q).
  { rewrite Forall_forall in Hws. apply Hws. eapply list_elem_of_lookup_2; eauto. }
  set (s := foldl Qplus 0%Q ws) in *.
  assert (Hpos : (0 < s)%Q).
  { destruct (Qlt_le_dec 0 s) as [?|Hneg]; [assumption|]. exfalso. apply Hs. lra. }
  assert (Hr0 : (0 <= w / s)%Q) by (apply Qle_shift_div_l; lra).
  assert (Hr1 : (w / s <= 1)%Q) by (apply Qle_shift_div_r; lra).
  split; nra.
Qed.

Lemma expand_prob_inv n st moves t t' :
  prob_inv t -> Forall nonneg_candidate moves ->
  expand rootcolor game_move n st moves t = Ok t' -> prob_inv t'.
Proof.
  intros [Hprob Hchild] Hmoves Hexp.
  apply expand_Ok in Hexp as (nd & s & slots & Hn & Hsum & Hslots & ->).
  pose proof (lookup_lt_Some _ _ _ Hn) as Hlt.
  pose proof (Hprob _ _ Hn) as Hndp.
  set (nd' := mkNode _ _ _ _ _ _ _ _).
  assert (Hfresh : forall k cd, created slots !! k = Some cd ->
            children cd = [] /\ (0 <= prob cd <= prob nd)%Q).
  { intros k cd Hk. apply created_lookup in Hk as [i Hi].
    eapply fresh_child; eauto. lra. }
  split; cbn [nodes].
  - intros m x Hm. apply expanded_lookup in Hm as [[_ Hm]|[[-> ->]|[_ Hm]]]; auto.
    + eapply Hprob; eauto.
    + apply Hfresh in Hm as [_ Hp]. lra.
  - intros m x i c Hm Hc.
    apply expanded_lookup in Hm as [[Hne Hm]|[[-> ->]|[_ Hm]]]; auto.
    + destruct (Hchild _ _ _ _ Hm Hc) as (cd & Hcd & Hle).
      destruct (expanded_old _ _ _ nd' (created slots) _ _ Hn eq_refl Hcd) as (x' & Hx' & Hpx).
      exists x'. split; [exact Hx'|]. rewrite Hpx. exact Hle.
    + cbn [children nd'] in Hc. apply lookup_app_Some in Hc as [Hc|[Hlen Hc]].
      * destruct (Hchild _ _ _ _ Hn Hc) as (cd & Hcd & Hle).
        destruct (expanded_old _ _ _ nd' (created slots) _ _ Hn eq_refl Hcd) as (x' & Hx' & Hpx).
        exists x'. split; [exact Hx'|]. rewrite Hpx. exact Hle.
      * apply number_slots_Some in Hc as (k & cd & -> & Hk & _).
        exists cd. split.
        -- apply lookup_app_Some. right. rewrite length_insert.
           split; [lia|]. replace (length (nodes t) + k - length (nodes t))%nat with k by lia.
           exact Hk.
        -- apply Hfresh in Hk as [_ Hp]. cbn [prob nd']. lra.
    + apply Hfresh in Hm as [Hnil _]. rewrite Hnil in Hc. discriminate.
Qed.

Lemma remove_first_subset n l x : x ∈ remove_first n l -> x ∈ l.
Proof.
  induction l as [|y l IH]; simpl; [auto|].
  destruct (y =? n)%nat; intros H.
  - apply elem_of_cons. auto.
  - apply elem_of_cons in H as [->|H]; apply elem_of_cons; auto.
Qed.

Lemma created_child nd s moves slots k cd :
  traverse (child_slot rootcolor game_move nd s) moves = Ok slots ->
  created slots !! k = Some cd ->
  exists p, cd.(history) = history nd ++ [p]
            /\ is_root cd = false /\ explored cd = false
            /\ (is_root nd = true -> is_game_move game_move p = false).
Proof.
  intros Hslots Hk. apply created_lookup in Hk as [i Hi].
  pose proof (traverse_lookup _ _ _ Hslots i) as L.
  destruct (moves !! i) as [move|]; [|congruence].
  destruct L as (y & Hy & Hslot). rewrite Hi in Hy. inversion Hy; subst y; clear Hy.
  apply child_slot_Some in Hslot as (p & w & _ & Hg & _ & _ & ->).
  exists p. auto.
Qed.

Lemma expand_shape_inv n st moves t t' :
  shape_inv game_move t ->
  expand rootcolor game_move n st moves t = Ok t' -> shape_inv game_move t'.
Proof.
  intros [Hleaves Hhist] Hexp.
  apply expand_Ok in Hexp as (nd & s & slots & Hn & Hsum & Hslots & ->).
  pose proof (lookup_lt_Some _ _ _ Hn) as Hlt.
  split; cbn [nodes leaves].
  - intros x Hx. apply remove_first_subset in Hx.
    rewrite length_app, length_insert.
    apply elem_of_app in Hx as [Hx|Hx].
    + apply Hleaves in Hx. lia.
    + apply elem_of_seq in Hx. lia.
  - intros m x Hm.
    apply expanded_lookup in Hm as [[_ Hm]|[[-> ->]|[_ Hm]]]; auto.
    + eapply Hhist; eauto.
    + cbn [history is_root]. eapply Hhist; eauto.
    + destruct (created_child _ _ _ _ _ _ Hslots Hm) as (p & Hh & -> & _ & Hg).
      rewrite Hh. split.
      * intros H. by apply app_nil in H as [_ ?].
      * intros g Hgm Heq. specialize (Hhist _ _ Hn).
        destruct (is_root nd) eqn:Hr.
        -- rewrite Hhist in Heq. simpl in Heq. inversion Heq; subst p.
           specialize (Hg eq_refl). rewrite Hgm in Hg. simpl in Hg.
           rewrite String.eqb_refl in Hg. discriminate.
        -- destruct Hhist as [Hne _].
           destruct (history nd) as [|a h]; [congruence|].
           simpl in Heq. inversion Heq. by destruct h.
Qed.

Lemma expand_keeps_root n st moves t t' :
  n <> 0%nat ->
  expand rootcolor game_move n st moves t = Ok t' ->
  nodes t' !! 0%nat = nodes t !! 0%nat /\ searched t' = searched t.
Proof.
  intros Hn0 Hexp.
  apply expand_Ok in Hexp as (nd & s & slots & Hn & _ & _ & ->).
  cbn [nodes searched]. split; [|reflexivity].
  destruct (nodes t) as [|r l] eqn:Hl; [discriminate|].
  destruct n as [|n]; [congruence|]. reflexivity.
Qed.

Lemma filter_insert_length (l : list node) n x :
  (length (filter (fun nd => explored nd = true) (<[n := x]> l))
   <= S (length (filter (fun nd => explored nd = true) l)))%nat.
Proof.
  revert n. induction l as [|y l IH]; intros n; [simpl; lia|].
  destruct n as [|n]; simpl.
  - rewrite !filter_cons. repeat destruct (decide _); simpl; lia.
  - rewrite !filter_cons. specialize (IH n). destruct (decide _); simpl; lia.
Qed.

Lemma filter_unexplored (l : list node) :
  Forall (fun nd => explored nd = false) l ->
  filter (fun nd => explored nd = true) l = [].
Proof.
  induction 1 as [|x l Hx _ IH]; [reflexivity|].
  rewrite filter_cons, IH. destruct (decide _); [congruence|reflexivity].
Qed.

Lemma expand_explored_count n st moves t t' :
  expand rootcolor game_move n st moves t = Ok t' ->
  (explored_count t' <= S (explored_count t))%nat.
Proof.
  intros Hexp.
  apply expand_Ok in Hexp as (nd & s & slots & Hn & _ & Hslots & ->).
  unfold explored_count. cbn [nodes]. rewrite filter_app, length_app.
  assert (Hfresh : filter (fun nd => explored nd = true) (created slots) = []).
  { apply filter_unexplored. apply Forall_forall. intros cd Hcd.
    apply list_elem_of_lookup_1 in Hcd as [k Hk].
    destruct (created_child _ _ _ _ _ _ Hslots Hk) as (p & _ & _ & He & _).
    exact He. }
  rewrite Hfresh. simpl. rewrite Nat.add_0_r. apply filter_insert_length.
Qed.

Lemma max_from_in t rest : forall best, max_from t best rest ∈ best :: rest.
Proof.
  induction rest as [|x rest IH]; intros best; simpl.
  - apply elem_of_cons. auto.
  - destruct (Qle_bool _ _).
    + specialize (IH best). apply elem_of_cons in IH as [->|IH];
        apply elem_of_cons; [auto|right; apply elem_of_cons; auto].
    + apply elem_of_cons. right. apply IH.
Qed.

Lemma search_Ok n t t' :
  search rootcolor game_move analysis n t = Ok t' ->
  exists nd st moves,
    nodes t !! n = Some nd
    /\ analysis (searched t) (history nd) = Ok (st, moves)
    /\ expand rootcolor game_move n st moves
         (mkTree (nodes t) (leaves t) (S (searched t))) = Ok t'.
Proof.
  unfold search. intros H.
  destruct (nodes t !! n) as [nd|]; [|discriminate].
  destruct (analysis (searched t) (history nd)) as [[st moves]|] eqn:Ha; [|discriminate].
  cbn [mbind result_bind] in H. eauto 10.
Qed.

(** An invariant of one [search] that also survives a failed one holds
    after the loop. *)
Lemma search_loop_inv (P : tree -> Prop) :
  (forall t, P t -> P (mkTree (nodes t) (leaves t) (S (searched t)))) ->
  (forall t n t', P t -> n ∈ leaves t ->
     search rootcolor game_move analysis n t = Ok t' -> P t') ->
  forall budget t, P t -> P (search_loop rootcolor game_move analysis budget t).1.
Proof.
  intros Hfail Hstep. induction budget as [|budget IH]; intros t Ht; simpl; [exact Ht|].
  destruct (leaves t) as [|x rest] eqn:Hl; [by apply IH|].
  destruct (search _ _ _ _ t) as [t'|e] eqn:Hs.
  - apply IH. eapply Hstep; eauto. rewrite Hl. apply max_from_in.
  - simpl. rewrite <- Hl. by apply Hfail.
Qed.

Lemma root_alone_prob_inv st moves : prob_inv (mkTree [root rootcolor st moves] [] 0).
Proof.
  split; cbn [nodes].
  - intros n nd H. apply list_lookup_singleton_Some in H as [_ <-]. simpl. lra.
  - intros n nd i c H Hc. apply list_lookup_singleton_Some in H as [_ <-].
    simpl in Hc. discriminate.
Qed.

Lemma root_alone_shape_inv st moves :
  shape_inv game_move (mkTree [root rootcolor st moves] [] 0).
Proof.
  split; cbn [nodes leaves].
  - intros x Hx. by apply elem_of_nil in Hx.
  - intros n nd H. apply list_lookup_singleton_Some in H as [_ <-]. reflexivity.
Qed.

(** C3 (as amended).  When no candidate has a negative visit count or
    policy probability, every node of the tree [do_variations] builds has a
    reaching probability between 0 and 1 and no child's exceeds its
    parent's, so that reaching probabilities never increase
    along a path from the root; a child reached by a book move is no
    exception (its raw weight 1.0 is normalised like any other). *)
Theorem reaching_probability_bounds st moves N t e :
  Forall nonneg_candidate moves ->
  (forall k h st' ms, analysis k h = Ok (st', ms) -> Forall nonneg_candidate ms) ->
  do_variations rootcolor game_move analysis st moves N = Some (t, e) ->
  (forall n nd, nodes t !! n = Some nd -> (0 <= prob nd <= 1)%Q)
  /\ (forall n nd i c, nodes t !! n = Some nd -> children nd !! i = Some (Some c) ->
        exists cd, nodes t !! c = Some cd /\ (prob cd <= prob nd)%Q).
Proof.
  intros Hmoves Horacle Hrun. change (prob_inv t).
  unfold do_variations in Hrun.
  destruct (has_key st "bookmoves" || (length moves <=? 0)%nat); [discriminate|].
  pose proof (root_alone_prob_inv st moves) as H0.
  destruct (expand _ _ 0%nat st moves _) as [t1|e1] eqn:Hexp.
  - inversion Hrun as [Hloop]. clear Hrun.
    assert (Ht : t = (search_loop rootcolor game_move analysis (Z.to_nat N) t1).1)
      by now rewrite Hloop.
    rewrite Ht. apply search_loop_inv.
    + intros t0 Hp. exact Hp.
    + intros t0 n t' Hp _ Hs.
      apply search_Ok in Hs as (nd & st' & ms & _ & Ha & Hex).
      eapply expand_prob_inv; [|eapply Horacle; exact Ha|exact Hex]. exact Hp.
    + eapply expand_prob_inv; eauto.
  - inversion Hrun; subst. exact H0.
Qed.

Lemma search_searched n t t' :
  search rootcolor game_move analysis n t = Ok t' -> searched t' = S (searched t).
Proof.
  intros Hs. apply search_Ok in Hs as (nd & st' & ms & _ & _ & Hex).
  apply expand_Ok in Hex as (? & ? & ? & _ & _ & _ & ->). reflexivity.
Qed.

Lemma search_loop_searched budget : forall t,
  (searched (search_loop rootcolor game_move analysis budget t).1
   <= searched t + budget)%nat.
Proof.
  induction budget as [|budget IH]; intros t; simpl; [lia|].
  destruct (leaves t) as [|x rest]; [specialize (IH t); lia|].
  destruct (search _ _ _ _ t) as [t'|e] eqn:Hs.
  - apply search_searched in Hs. specialize (IH t'). lia.
  - simpl. lia.
Qed.

(** What the loop keeps once the root has been expanded: the shape of the
    tree, the root record, and at most one explored node per call of
    [search] besides the root. *)
Lemma search_loop_keeps rt budget t :
  shape_inv game_move t -> nodes t !! 0%nat = Some rt ->
  (explored_count t <= S (searched t))%nat ->
  let t' := (search_loop rootcolor game_move analysis budget t).1 in
  shape_inv game_move t' /\ nodes t' !! 0%nat = Some rt
  /\ (explored_count t' <= S (searched t'))%nat.
Proof.
  intros Hs Hr Hc.
  apply (search_loop_inv (fun t => shape_inv game_move t /\ nodes t !! 0%nat = Some rt
                                   /\ (explored_count t <= S (searched t))%nat)).
  - intros t0 (H1 & H2 & H3). split; [exact H1|]. split; [exact H2|].
    unfold explored_count in *. cbn [nodes searched]. lia.
  - intros t0 n t1 (H1 & H2 & H3) Hn Hsearch.
    pose proof (search_searched _ _ _ Hsearch) as Hcount.
    apply search_Ok in Hsearch as (nd & st' & ms & _ & _ & Hex).
    assert (Hn0 : n <> 0%nat) by (apply H1 in Hn; lia).
    split; [|split].
    + eapply expand_shape_inv; [|exact Hex]. exact H1.
    + apply expand_keeps_root in Hex as [-> _]; auto.
    + apply expand_explored_count in Hex. unfold explored_count in *.
      cbn [nodes] in Hex. lia.
  - auto.
Qed.

(** C4.  For a root that is not a book position and has candidates, with
    a node budget [N]: [do_variations] runs; its loop calls [search], hence
    expands a node, at most [N] times, so at most [N] nodes besides the root
    are explored; no node of the tree is reached by the game's move alone;
    and the slot of the root for a candidate equal to the game's move never
    holds a child: it is [None] once the root is expanded. *)
Theorem variations_budget_and_game_move st moves N :
  has_key st "bookmoves" = false -> moves <> [] ->
  exists t e,
    do_variations rootcolor game_move analysis st moves N = Some (t, e)
    /\ (searched t <= Z.to_nat N)%nat
    /\ (explored_count t <= S (searched t))%nat
    /\ (forall n nd g, game_move = Some g -> nodes t !! n = Some nd ->
          history nd <> [VStr g])
    /\ exists rt,
         nodes t !! 0%nat = Some rt /\ is_root rt = true
         /\ forall i move g,
              game_move = Some g -> moves !! i = Some move ->
              move !! "pos" = Some (VStr g) ->
              (forall c, children rt !! i <> Some (Some c))
              /\ (explored rt = true -> children rt !! i = Some None).
Proof.
  intros Hbook Hne. unfold do_variations. rewrite Hbook.
  destruct moves as [|m0 moves'] eqn:Hmoves; [congruence|]. rewrite <- Hmoves in *.
  assert (Hlen : (length moves <=? 0)%nat = false) by (rewrite Hmoves; reflexivity).
  rewrite Hlen. cbn [orb].
  pose proof (root_alone_shape_inv st moves) as Hshape0.
  assert (Hhist : forall t, shape_inv game_move t ->
            forall n nd g, game_move = Some g -> nodes t !! n = Some nd ->
            history nd <> [VStr g]).
  { intros t [_ Hh] n nd g Hg Hn. specialize (Hh _ _ Hn).
    destruct (is_root nd); [rewrite Hh; discriminate|]. by apply Hh. }
  set (t0 := mkTree [root rootcolor st moves] [] 0).
  destruct (expand rootcolor game_move 0 st moves t0) as [t1|e1] eqn:Hexp.
  - set (out := search_loop rootcolor game_move analysis (Z.to_nat N) t1).
    exists out.1, out.2. split; [by destruct out|].
    pose proof (expand_shape_inv _ _ _ _ _ Hshape0 Hexp) as Hshape1.
    pose proof (expand_explored_count _ _ _ _ _ Hexp) as Hcount1.
    pose proof (search_loop_searched (Z.to_nat N) t1) as Hbudget.
    apply expand_Ok in Hexp as (nd & s & slots & Hn & Hsum & Hslots & Ht1).
    simpl in Hn. inversion Hn; subst nd; clear Hn.
    cbn [children is_root history prob color root nodes t0 length app] in Ht1.
    assert (Hs1 : searched t1 = 0%nat) by (rewrite Ht1; reflexivity).
    set (rt := mkNode (number_slots 1 slots) true [] true 1%Q st moves rootcolor) in *.
    assert (Hrt1 : nodes t1 !! 0%nat = Some rt) by (rewrite Ht1; reflexivity).
    assert (Hc1 : (explored_count t1 <= S (searched t1))%nat).
    { unfold explored_count in *. simpl in Hcount1. lia. }
    destruct (search_loop_keeps rt (Z.to_nat N) t1 Hshape1 Hrt1 Hc1) as (Hshape & Hrt & Hc).
    fold out in Hshape, Hrt, Hc, Hbudget.
    split; [lia|]. split; [exact Hc|]. split; [by apply Hhist|].
    exists rt. split; [exact Hrt|]. split; [reflexivity|].
    intros i move g Hg Hi Hpos. cbn [children explored rt].
    pose proof (traverse_lookup _ _ _ Hslots i) as L. rewrite Hi in L.
    destruct L as (y & Hy & Hslot).
    assert (y = None) as ->.
    { unfold child_slot, item in Hslot. simpl in Hslot. rewrite Hpos, Hg in Hslot.
      simpl in Hslot. rewrite String.eqb_refl in Hslot. now inversion Hslot. }
    pose proof (number_slots_lookup slots 1 i) as L. rewrite Hy in L.
    split; [intros c; congruence|auto].
  - exists t0, (Some e1). split; [reflexivity|].
    split; [simpl; lia|]. split; [unfold explored_count; simpl; lia|].
    split; [by apply Hhist|].
    exists (root rootcolor st moves). split; [reflexivity|]. split; [reflexivity|].
    intros i move g _ _ _. simpl. split; [intros c; discriminate|discriminate].
Qed.

Lemma item_lookup (d : dict) k v : d !! k = Some v -> item d k = Ok v.
Proof. unfold item. now intros ->. Qed.

(** C2 (as amended).  For a candidate of the node being expanded the raw
    weight is 1.0 when the candidate is a book move; otherwise it is the
    visit count when the node has the root's colour (the root, and every
    node an even number of moves below it), and the average of policy
    probability and visit count when the node has the other colour.  Each
    child made by [expand] has the node's reaching probability times its raw
    weight divided by the sum of the raw weights of the node's candidates;
    the only slot left without a child is that of the game's move at the
    root. *)
Theorem child_weights_and_probabilities :
  (forall nd move, has_key move "is_book" = true ->
     child_prob_raw rootcolor nd move = Ok 1%Q)
  /\ (forall nd move v p,
        has_key move "is_book" = false ->
        move !! "visits" = Some (VInt v) ->
        move !! "policy_prob" = Some (VFloat p) ->
        (color nd = rootcolor ->
           child_prob_raw rootcolor nd move = Ok (inject_Z v))
        /\ (color nd <> rootcolor ->
              child_prob_raw rootcolor nd move = Ok ((p + inject_Z v) / 2)%Q))
  /\ (forall n st moves t t',
        expand rootcolor game_move n st moves t = Ok t' ->
        exists nd nd' ws,
          nodes t !! n = Some nd /\ nodes t' !! n = Some nd'
          /\ traverse (child_prob_raw rootcolor nd) moves = Ok ws
          /\ forall i move,
               moves !! i = Some move ->
               exists w, ws !! i = Some w
                 /\ ((children nd' !! (length (children nd) + i)%nat = Some None
                      /\ is_root nd = true
                      /\ exists p, move !! "pos" = Some p
                                   /\ is_game_move game_move p = true)
                     \/ (exists c cd,
                           children nd' !! (length (children nd) + i)%nat = Some (Some c)
                           /\ nodes t' !! c = Some cd
                           /\ ~ (foldl Qplus 0 ws == 0)%Q
                           /\ prob cd = (prob nd * (w / foldl Qplus 0 ws))%Q))).
Proof.
  split; [|split].
  - intros nd move Hb. unfold child_prob_raw. now rewrite Hb.
  - intros nd move v p Hb Hv Hp. unfold child_prob_raw. rewrite Hb.
    rewrite (item_lookup _ _ _ Hv), (item_lookup _ _ _ Hp). split; intros Hc.
    + apply String.eqb_eq in Hc. rewrite Hc. reflexivity.
    + apply String.eqb_neq in Hc. rewrite Hc. reflexivity.
  - intros n st moves t t' Hexp.
    apply expand_Ok in Hexp as (nd & s & slots & Hn & Hsum & Hslots & ->).
    pose proof (lookup_lt_Some _ _ _ Hn) as Hlt.
    unfold prob_sum in Hsum. bind_inv Hsum. rename a into ws.
    inversion Hsum; subst s; clear Hsum.
    eexists nd, _, ws. split; [exact Hn|]. split.
    { cbn [nodes]. apply lookup_app_l_Some. by apply list_lookup_insert_eq. }
    split; [exact E|].
    intros i move Hi. cbn [children].
    pose proof (traverse_lookup _ _ _ E i) as Lw. rewrite Hi in Lw.
    destruct Lw as (w & Hw & Hraw). exists w. split; [exact Hw|].
    pose proof (traverse_lookup _ _ _ Hslots i) as Ls. rewrite Hi in Ls.
    destruct Ls as (y & Hy & Hslot).
    rewrite lookup_app_r by lia.
    replace (length (children nd) + i - length (children nd))%nat with i by lia.
    pose proof (number_slots_lookup slots (length (nodes t)) i) as L. rewrite Hy in L.
    destruct y as [cd|].
    + right. destruct L as (k & Hk & Hc).
      apply child_slot_Some in Hslot as (p & w' & _ & _ & Hw' & Hs & ->).
      rewrite Hraw in Hw'. inversion Hw'; subst w'.
      eexists _, _. split; [exact Hk|]. split.
      * cbn [nodes]. apply lookup_app_Some. right. rewrite length_insert.
        split; [lia|].
        replace (length (nodes t) + k - length (nodes t))%nat with k by lia. exact Hc.
      * split; [exact Hs|reflexivity].
    + left. apply child_slot_None in Hslot as [Hr Hp]. auto.
Qed.

Lemma traverse_raises {A B} (f : A -> result B) e l :
  Forall (fun x => is_ok (f x) = true \/ f x = Raise e) l ->
  Exists (fun x => f x = Raise e) l ->
  traverse f l = Raise e.
Proof.
  induction 1 as [|x l Hx Hall IH]; intros Hex; [by apply Exists_nil in Hex|].
  simpl. destruct Hx as [Hx|Hx].
  - destruct (f x) eqn:Hf; [|discriminate]. cbn [mbind result_bind].
    apply Exists_cons in Hex as [Hex|Hex]; [congruence|].
    rewrite (IH Hex). reflexivity.
  - rewrite Hx. reflexivity.
Qed.

Lemma traverse_total {A B} (f : A -> result B) l :
  Forall (fun x => is_ok (f x) = true) l -> exists l', traverse f l = Ok l'.
Proof.
  induction 1 as [|x l Hx _ [l' IH]]; simpl; [eauto|].
  destruct (f x); [|discriminate]. rewrite IH. cbn. eauto.
Qed.

(** C10.  The division of [expand] is unguarded.  When all raw weights of
    the candidates are zero, their sum is zero and the probability of every
    child divides by zero, so [expand] raises [ZeroDivisionError] as soon as
    one candidate gets a child (any candidate of a node other than the root;
    at the root, any candidate other than the game's move).  When no raw
    weight is negative and one is positive, [expand] returns. *)
Theorem expand_division_unguarded n nd st moves ws t :
  nodes t !! n = Some nd ->
  color nd = "white" \/ color nd = "black" ->
  Forall (fun move => is_Some (move !! "pos")) moves ->
  traverse (child_prob_raw rootcolor nd) moves = Ok ws ->
  (Forall (fun w => w == 0)%Q ws ->
     (exists s, prob_sum rootcolor nd moves = Ok s /\ (s == 0)%Q
        /\ forall move, move ∈ moves ->
             child_prob rootcolor nd s move = Raise ZeroDivisionError)
     /\ (Exists (fun move => is_root nd = false
                   \/ exists p, move !! "pos" = Some p
                                /\ is_game_move game_move p = false) moves ->
           expand rootcolor game_move n st moves t = Raise ZeroDivisionError))
  /\ (Forall (fun w => 0 <= w)%Q ws -> Exists (fun w => 0 < w)%Q ws ->
        is_ok (expand rootcolor game_move n st moves t) = true).
Proof.
  intros Hn Hcolor Hpos Hws.
  assert (Hsum : prob_sum rootcolor nd moves = Ok (foldl Qplus 0%Q ws)).
  { unfold prob_sum. rewrite Hws. reflexivity. }
  assert (Hraw : forall move, move ∈ moves ->
            exists w, child_prob_raw rootcolor nd move = Ok w /\ w ∈ ws).
  { intros move Hin. apply list_elem_of_lookup_1 in Hin as [i Hi].
    pose proof (traverse_lookup _ _ _ Hws i) as L. rewrite Hi in L.
    destruct L as (w & Hw & Hr). exists w. split; [exact Hr|].
    eapply list_elem_of_lookup_2; eauto. }
  assert (Hassert : negb (String.eqb (color nd) "white" || String.eqb (color nd) "black")
                    = false).
  { destruct Hcolor as [-> | ->]; reflexivity. }
  split.
  - intros Hzero.
    pose proof (foldl_Qplus_zero ws 0%Q Hzero) as Hs0.
    assert (Hdiv : forall move, move ∈ moves ->
              child_prob rootcolor nd (foldl Qplus 0%Q ws) move = Raise ZeroDivisionError).
    { intros move Hin. destruct (Hraw move Hin) as (w & Hw & _).
      unfold child_prob. rewrite Hw. cbn [mbind result_bind].
      apply Qeq_bool_iff in Hs0. now rewrite Hs0. }
    split; [eauto|].
    intros Hex. unfold expand. rewrite Hn, Hassert, Hsum. cbn [mbind result_bind].
    rewrite (traverse_raises _ ZeroDivisionError); [reflexivity| |].
    + apply Forall_forall. intros move Hin.
      rewrite Forall_forall in Hpos. destruct (Hpos move Hin) as [p Hp].
      unfold child_slot. rewrite (item_lookup _ _ _ Hp), (Hdiv move Hin).
      cbn [mbind result_bind].
      destruct (is_root nd); cbn [mbind result_bind];
        [destruct (is_game_move game_move p)|]; auto.
    + apply Exists_exists in Hex as (move & Hin & Hcase).
      apply Exists_exists. exists move. split; [exact Hin|].
      rewrite Forall_forall in Hpos. destruct (Hpos move Hin) as [p Hp].
      unfold child_slot. rewrite (item_lookup _ _ _ Hp), (Hdiv move Hin).
      cbn [mbind result_bind].
      destruct Hcase as [-> | (p' & Hp' & Hg)]; [reflexivity|].
      rewrite Hp in Hp'. inversion Hp'; subst p'. rewrite Hg.
      destruct (is_root nd); reflexivity.
  - intros Hnonneg Hex.
    destruct (foldl_Qplus_bounds ws 0%Q Hnonneg) as [_ Hle].
    apply Exists_exists in Hex as (w & Hw & Hwpos).
    specialize (Hle w Hw).
    assert (Hs : Qeq_bool (foldl Qplus 0%Q ws) 0 = false).
    { destruct (Qeq_bool _ _) eqn:Hq; [|reflexivity].
      apply Qeq_bool_iff in Hq. lra. }
    unfold expand. rewrite Hn, Hassert, Hsum. cbn [mbind result_bind].
    destruct (traverse_total (child_slot rootcolor game_move nd (foldl Qplus 0%Q ws)) moves)
      as [slots Hslots].
    + apply Forall_forall. intros move Hin.
      rewrite Forall_forall in Hpos. destruct (Hpos move Hin) as [p Hp].
      destruct (Hraw move Hin) as (w' & Hw' & _).
      unfold child_slot, child_prob. rewrite (item_lookup _ _ _ Hp), Hw', Hs.
      cbn [mbind result_bind].
      destruct (is_root nd); cbn [mbind result_bind];
        [destruct (is_game_move game_move p)|]; reflexivity.
    + rewrite Hslots. reflexivity.
Qed.

End VariationFacts.

Ltac nonneg_candidates :=
  repeat match goal with
  | |- Forall _ (_ :: _) =>
      constructor;
      [split; intros q Hq; vm_compute in Hq; inversion Hq; subst; clear Hq;
       vm_compute; discriminate|]
  | |- Forall _ [] => constructor
  end.

Lemma game_moves_nonneg : Forall Variations.nonneg_candidate Game.moves0.
Proof. unfold Game.moves0. nonneg_candidates. Qed.

Lemma game_analysis_nonneg k h st ms :
  Game.analysis k h = Ok (st, ms) -> Forall Variations.nonneg_candidate ms.
Proof.
  destruct k as [|[|k]]; simpl; intros H; inversion H; subst; clear H;
    nonneg_candidates.
Qed.

(** The node reached by [pd], [cq] is not the root and is black like the
    root: its candidate with 10 visits and policy probability 1/2 weighs 10,
    not 5.25. *)
Lemma child_weights_counterexample :
  (Variations.is_root <$> Variations.nodes Game.final !! 5%nat) = Some false
  /\ (Variations.history <$> Variations.nodes Game.final !! 5%nat)
     = Some [VStr "pd"; VStr "cq"]
  /\ ((fun nd => Variations.child_prob_raw "black" nd (Variations.candidate "qq" 10 (1 # 2)))
        <$> Variations.nodes Game.final !! 5%nat) = Some (Ok 10%Q)
  /\ ~ (10 == ((1 # 2) + 10) / 2)%Q.
Proof.
  split; [vm_compute; reflexivity|]. split; [vm_compute; reflexivity|].
  split; [vm_compute; reflexivity|]. intros H. vm_compute in H. discriminate.
Qed.

Lemma child_weights_and_probabilities_witness :
  Variations.child_prob_raw "black" (Variations.root "black" ∅ Game.moves0)
    (Variations.book_candidate "jj") = Ok 1%Q
  /\ Variations.child_prob_raw "black" (Variations.root "black" ∅ Game.moves0)
       (Variations.candidate "pd" 30 (1 # 2)) = Ok (inject_Z 30).
Proof.
  pose proof (child_weights_and_probabilities "black" (Some "dd")) as (Hbook & Hraw & _).
  split.
  - apply Hbook. vm_compute. reflexivity.
  - apply (Hraw (Variations.root "black" ∅ Game.moves0) _ 30 (1 # 2)).
    + vm_compute. reflexivity.
    + vm_compute. reflexivity.
    + vm_compute. reflexivity.
    + reflexivity.
Defined.

Lemma reaching_probability_bounds_witness :
  exists nd, Variations.nodes Game.final !! 2%nat = Some nd
             /\ (0 <= Variations.prob nd <= 1)%Q.
Proof.
  assert (Hrun : Variations.do_variations "black" (Some "dd") Game.analysis ∅ Game.moves0 3
                 = Some (Game.final, None)) by (vm_compute; reflexivity).
  destruct (Variations.nodes Game.final !! 2%nat) as [nd|] eqn:Hnd.
  - exists nd. split; [reflexivity|].
    exact (proj1 (reaching_probability_bounds "black" (Some "dd") Game.analysis
                    ∅ Game.moves0 3 Game.final None
                    game_moves_nonneg game_analysis_nonneg Hrun) 2%nat nd Hnd).
  - vm_compute in Hnd. discriminate.
Defined.

(** C3 as stated fails in this run.  The candidate [cc] was never visited:
    its node has reaching probability 0.  The node reached by [pd], [cq] has
    one candidate, not a book move: its child has the same reaching
    probability, 183/656.  That child is a book position: the node reached
    by its book move has reaching probability 183/656 again, not 1. *)
Lemma reaching_probability_counterexample :
  Game.probabilities Game.final
    = [1; 0; 3 # 8; 1 # 8; 63 # 656; 183 # 656; 183 # 656; 183 # 656]%Q
  /\ (Variations.children <$> Variations.nodes Game.final !! 5%nat) = Some [Some 6%nat]
  /\ (Variations.children <$> Variations.nodes Game.final !! 6%nat) = Some [Some 7%nat]
  /\ (Variations.move_list <$> Variations.nodes Game.final !! 6%nat)
     = Some [Variations.book_candidate "jj"].
Proof. repeat split; vm_compute; reflexivity. Qed.

Lemma variations_budget_and_game_move_witness :
  exists t e,
    Variations.do_variations "black" (Some "dd") Game.analysis ∅ Game.moves0 3
    = Some (t, e)
    /\ (Variations.searched t <= 3)%nat.
Proof.
  destruct (variations_budget_and_game_move "black" (Some "dd") Game.analysis
              ∅ Game.moves0 3) as (t & e & Hrun & Hbudget & _).
  - vm_compute. reflexivity.
  - discriminate.
  - exists t, e. split; [exact Hrun|exact Hbudget].
Defined.

(** Searching the only leaf of the sapling and finding two candidates that
    were never visited: the expansion raises. *)
Lemma expand_division_unguarded_witness :
  Variations.expand "black" (Some "dd") 1 ∅ Game.unvisited Game.sapling
  = Raise ZeroDivisionError.
Proof.
  refine (proj2 (proj1 (expand_division_unguarded "black" (Some "dd") 1
            (Variations.mkNode [] false [VStr "pd"] false 1%Q ∅ [] "white") ∅ Game.unvisited
            [0 # 2; 0 # 2] Game.sapling _ _ _ _) _) _).
  - reflexivity.
  - left. reflexivity.
  - repeat constructor; vm_compute; eauto.
  - vm_compute. reflexivity.
  - repeat constructor; reflexivity.
  - constructor. left. reflexivity.
Defined.

(** * Further properties *)

(** ** Integers and white space in strings *)

Section PyStrFacts.
Import PyStr.

Lemma append_nil_r s : String.append s EmptyString = s.
Proof.
  induction s as [|c s IH]; [reflexivity|].
  change (String c (String.append s EmptyString) = String c s). now rewrite IH.
Qed.

Lemma append_cons c s t : String.append (String c s) t = String c (String.append s t).
Proof. reflexivity. Qed.

Lemma append_assoc s t u :
  String.append (String.append s t) u = String.append s (String.append t u).
Proof.
  induction s as [|c s IH]; [reflexivity|].
  rewrite !append_cons. now rewrite IH.
Qed.

Lemma rev_acc_app s : forall acc, rev_acc s acc = String.append (rev s) acc.
Proof.
  unfold rev. induction s as [|c s IH]; intros acc; simpl; [reflexivity|].
  rewrite IH, (IH (String c EmptyString)), append_assoc. reflexivity.
Qed.

Lemma rev_cons c s : rev (String c s) = String.append (rev s) (String c EmptyString).
Proof. unfold rev at 1. simpl. apply rev_acc_app. Qed.

Lemma rev_app s t : rev (String.append s t) = String.append (rev t) (rev s).
Proof.
  induction s as [|c s IH].
  - change (rev t = String.append (rev t) EmptyString). now rewrite append_nil_r.
  - rewrite append_cons, !rev_cons, IH, append_assoc. reflexivity.
Qed.

Lemma rev_involutive s : rev (rev s) = s.
Proof.
  induction s as [|c s IH]; [reflexivity|].
  rewrite rev_cons, rev_app, IH. reflexivity.
Qed.

Lemma spaceless_app s t : spaceless (String.append s t) = spaceless s && spaceless t.
Proof.
  induction s as [|c s IH]; [reflexivity|].
  rewrite append_cons. simpl. rewrite IH. now rewrite andb_assoc.
Qed.

Lemma spaceless_rev s : spaceless (rev s) = spaceless s.
Proof.
  induction s as [|c s IH]; [reflexivity|].
  rewrite rev_cons, spaceless_app, IH. simpl.
  rewrite andb_true_r. apply andb_comm.
Qed.

Lemma lstrip_spaceless s : spaceless s = true -> lstrip s = s.
Proof.
  destruct s as [|c s]; simpl; [reflexivity|].
  intros H. apply andb_true_iff in H as [Hc _].
  apply negb_true_iff in Hc. now rewrite Hc.
Qed.

Lemma strip_spaceless s : spaceless s = true -> strip s = s.
Proof.
  intros H. unfold strip.
  rewrite (lstrip_spaceless s H), lstrip_spaceless, rev_involutive; auto.
  now rewrite spaceless_rev.
Qed.

Lemma digits_spaceless d : spaceless (NilEmpty.string_of_uint d) = true.
Proof. induction d; simpl; auto. Qed.

Lemma of_int_spaceless n : spaceless (of_int n) = true.
Proof.
  unfold of_int. destruct (Z.to_int n) as [d|d]; simpl.
  - destruct d; simpl; auto using digits_spaceless.
  - destruct d; simpl; auto using digits_spaceless.
Qed.

Lemma digits_from_acc d : forall acc,
  digits_from (Z.pos acc) (NilEmpty.string_of_uint d) = Some (Z.pos (Pos.of_uint_acc d acc)).
Proof.
  induction d; intros acc; simpl; [reflexivity|..];
    match goal with
    | |- digits_from ?z _ = Some (Z.pos (Pos.of_uint_acc _ ?p)) =>
        replace z with (Z.pos p) by lia; apply IHd
    end.
Qed.

Lemma digits_from_zero d :
  digits_from 0 (NilEmpty.string_of_uint d) = Some (Z.of_N (Pos.of_uint d)).
Proof.
  induction d; simpl; [reflexivity|exact IHd|..];
    match goal with
    | |- _ = Some (Z.pos (Pos.of_uint_acc ?l ?p)) => exact (digits_from_acc l p)
    end.
Qed.

Lemma unsigned_literal_digits d :
  unsigned_literal (NilZero.string_of_uint d) = Some (Z.of_uint d).
Proof.
  unfold Z.of_uint.
  destruct d; simpl; [reflexivity|apply digits_from_zero|..];
    match goal with
    | |- _ = Some (Z.pos (Pos.of_uint_acc ?l ?p)) => exact (digits_from_acc l p)
    end.
Qed.

(** Printing an integer with ['%d'] and reading it back with [int]. *)
Lemma unsigned_body body :
  (forall t, body <> String "-" t) -> (forall t, body <> String "+" t) ->
  match body with
  | String "-" s' => option_map Z.opp (unsigned_literal s')
  | String "+" s' => unsigned_literal s'
  | _ => unsigned_literal body
  end = unsigned_literal body.
Proof.
  intros Hm Hp. destruct body as [|c t]; [reflexivity|].
  destruct c as [[] [] [] [] [] [] [] []];
    first [reflexivity
          | exfalso; apply (Hm t); reflexivity
          | exfalso; apply (Hp t); reflexivity].
Qed.

Lemma to_int_of_int n : to_int (of_int n) = Ok n.
Proof.
  unfold to_int. rewrite (strip_spaceless _ (of_int_spaceless n)).
  unfold of_int.
  pose proof (DecimalZ.of_to n) as Hn.
  destruct (Z.to_int n) as [d|d]; simpl in Hn.
  - change (NilZero.string_of_int (Decimal.Pos d)) with (NilZero.string_of_uint d).
    rewrite unsigned_body, unsigned_literal_digits, Hn; [reflexivity| |];
      intros t; destruct d; discriminate.
  - change (NilZero.string_of_int (Decimal.Neg d))
      with (String "-" (NilZero.string_of_uint d)).
    cbv iota beta. rewrite unsigned_literal_digits. simpl. now rewrite Hn.
Qed.

End PyStrFacts.

(** ** Coordinates, for every board size *)

Section CoordinateFacts.

Lemma get_in_range s : forall k, (k < String.length s)%nat ->
  String.get k s = Some (letter s k).
Proof.
  unfold letter. induction s as [|c s IH]; intros k Hk; simpl in Hk; [lia|].
  destruct k as [|k]; simpl; [reflexivity|].
  rewrite (IH k) by lia. reflexivity.
Qed.

(** [s[y]]: an index from [-len] to [len - 1] is accepted, a negative one
    counting from the end. *)
Lemma getitem_spec s y :
  let n := Z.of_nat (String.length s) in
  (0 <= y < n -> PyStr.getitem s y = Ok (letter s (Z.to_nat y)))
  /\ (- n <= y < 0 -> PyStr.getitem s y = Ok (letter s (Z.to_nat (y + n))))
  /\ (y < - n \/ n <= y -> PyStr.getitem s y = Raise IndexError).
Proof.
  intros n. unfold PyStr.getitem. fold n. repeat split; intros H.
  - destruct (y <? 0) eqn:E; [apply Z.ltb_lt in E; lia|].
    replace ((0 <=? y) && (y <? n)) with true
      by (symmetry; apply andb_true_iff; split; [apply Z.leb_le|apply Z.ltb_lt]; lia).
    rewrite get_in_range by lia. reflexivity.
  - destruct (y <? 0) eqn:E; [|apply Z.ltb_ge in E; lia].
    replace ((0 <=? y + n) && (y + n <? n)) with true
      by (symmetry; apply andb_true_iff; split; [apply Z.leb_le|apply Z.ltb_lt]; lia).
    rewrite get_in_range by lia. reflexivity.
  - destruct (y <? 0) eqn:E.
    + apply Z.ltb_lt in E.
      replace ((0 <=? y + n) && (y + n <? n)) with false; [reflexivity|].
      symmetry. apply andb_false_iff. left. apply Z.leb_gt. lia.
    + apply Z.ltb_ge in E.
      replace ((0 <=? y) && (y <? n)) with false; [reflexivity|].
      symmetry. apply andb_false_iff. right. apply Z.ltb_ge. lia.
Qed.

Lemma sgf_index i : (i < 25)%nat ->
  PyStr.index SGF_COORD (letter SGF_COORD i) = Ok (Z.of_nat i).
Proof. intros H. do 25 (destruct i as [|i]; [reflexivity|]). lia. Qed.

Lemma board_index i : (i < 25)%nat ->
  PyStr.index BOARD_COORD (PyStr.lower (letter BOARD_COORD i)) = Ok (Z.of_nat i)
  /\ PyStr.index BOARD_COORD (PyStr.lower (capital (letter BOARD_COORD i))) = Ok (Z.of_nat i).
Proof. intros H. do 25 (destruct i as [|i]; [split; reflexivity|]). lia. Qed.

Lemma of_int_not_ass n : PyStr.of_int n <> "ass".
Proof.
  intros H. pose proof (to_int_of_int n) as Hn. rewrite H in Hn. discriminate.
Qed.

Lemma engine_coordinate_not_pass c n : String.eqb (String c (PyStr.of_int n)) "pass" = false.
Proof.
  apply String.eqb_neq. intros H. inversion H as [[Hc Hn]].
  exact (of_int_not_ass n Hn).
Qed.

Lemma convert_two_letters (bs : Z) (i j : nat) (rest : string) :
  (i < 25)%nat -> (j < 25)%nat ->
  convert_position bs
    (String (letter SGF_COORD i) (String (letter SGF_COORD j) rest))
  = Ok (board_point i (bs - Z.of_nat j)).
Proof.
  intros Hi Hj. unfold convert_position.
  change (PyStr.getitem (String ?a (String ?b rest)) 0) with (Ok (A:=ascii) a).
  cbn [mbind result_bind]. rewrite (sgf_index i Hi). cbn [mbind result_bind].
  destruct (getitem_spec BOARD_COORD (Z.of_nat i)) as [Hget _].
  rewrite Hget by (simpl; lia). cbn [mbind result_bind].
  assert (H1 : PyStr.getitem
                 (String (letter SGF_COORD i) (String (letter SGF_COORD j) rest)) 1
               = Ok (letter SGF_COORD j)).
  { unfold PyStr.getitem. simpl String.length.
    replace (1 <? 0) with false by reflexivity.
    replace ((0 <=? 1) && (1 <? Z.of_nat (S (S (String.length rest))))) with true.
    - reflexivity.
    - symmetry. apply andb_true_iff. split; [reflexivity|apply Z.ltb_lt; lia]. }
  rewrite H1. cbn [mbind result_bind]. rewrite (sgf_index j Hj). cbn [mbind result_bind].
  rewrite Nat2Z.id. reflexivity.
Qed.

(** X1.  [convert_position] reads two letters of the record's alphabet and
    nothing else: what follows them is ignored and the line is not compared
    with the board size. *)
Theorem convert_position_two_letters (bs : Z) (i j : nat) (rest : string) :
  (i < 25)%nat -> (j < 25)%nat ->
  convert_position bs
    (String (letter SGF_COORD i) (String (letter SGF_COORD j) rest))
  = Ok (board_point i (bs - Z.of_nat j)).
Proof. exact (convert_two_letters bs i j rest). Qed.

Lemma parse_position_engine (bs : Z) (c : ascii) (i : nat) (r : Z) :
  (i < 25)%nat ->
  PyStr.index BOARD_COORD (PyStr.lower c) = Ok (Z.of_nat i) ->
  parse_position bs (String c (PyStr.of_int r))
  = (b ← PyStr.getitem SGF_COORD (bs - r);
     Ok (String (letter SGF_COORD i) (String b EmptyString))).
Proof.
  intros Hi Hc. unfold parse_position.
  rewrite engine_coordinate_not_pass.
  change (PyStr.getitem (String c (PyStr.of_int r)) 0) with (Ok (A:=ascii) c).
  cbn [mbind result_bind]. rewrite Hc. cbn [mbind result_bind PyStr.tail].
  rewrite to_int_of_int. cbn [mbind result_bind].
  destruct (getitem_spec SGF_COORD (Z.of_nat i)) as [Hget _].
  rewrite Hget by (simpl; lia). cbn [mbind result_bind].
  rewrite Nat2Z.id. reflexivity.
Qed.

Lemma parse_rows (bs : Z) (i : nat) (r : Z) :
  (i < 25)%nat ->
  let point := fun k => String (letter SGF_COORD i) (String (letter SGF_COORD k) EmptyString) in
  (0 <= bs - r < 25 ->
     parse_position bs (board_point i r) = Ok (point (Z.to_nat (bs - r)))
     /\ parse_position bs (board_point_capital i r) = Ok (point (Z.to_nat (bs - r))))
  /\ (-25 <= bs - r < 0 ->
        parse_position bs (board_point i r) = Ok (point (Z.to_nat (bs - r + 25))))
  /\ (bs - r < -25 \/ 25 <= bs - r ->
        parse_position bs (board_point i r) = Raise IndexError).
Proof.
  intros Hi point.
  destruct (board_index i Hi) as [Hlow Hcap].
  destruct (getitem_spec SGF_COORD (bs - r)) as (Hin & Hneg & Hout).
  unfold board_point, board_point_capital.
  rewrite (parse_position_engine bs _ i r Hi Hlow), (parse_position_engine bs _ i r Hi Hcap).
  split; [|split].
  - intros H. rewrite Hin by (simpl; lia). split; reflexivity.
  - intros H. rewrite Hneg by (simpl; lia). reflexivity.
  - intros H. rewrite Hout by (simpl; lia). reflexivity.
Qed.

(** X2.  [parse_position] does not compare the row with the board either: a
    row from [bs - 24] to [bs] gives the line [bs - row], a row up to 25
    beyond the board is accepted as well and counted from the other end of
    the alphabet, and only rows further out raise [IndexError].  The column
    letter may be a capital. *)
Theorem parse_position_rows (bs : Z) (i : nat) (r : Z) :
  (i < 25)%nat ->
  let point := fun k => String (letter SGF_COORD i) (String (letter SGF_COORD k) EmptyString) in
  (0 <= bs - r < 25 ->
     parse_position bs (board_point i r) = Ok (point (Z.to_nat (bs - r)))
     /\ parse_position bs (board_point_capital i r) = Ok (point (Z.to_nat (bs - r))))
  /\ (-25 <= bs - r < 0 ->
        parse_position bs (board_point i r) = Ok (point (Z.to_nat (bs - r + 25))))
  /\ (bs - r < -25 \/ 25 <= bs - r ->
        parse_position bs (board_point i r) = Raise IndexError).
Proof. exact (parse_rows bs i r). Qed.

(** X3.  The round trips hold for every board size, an integer of any sign: a
    record coordinate of two letters survives
    [parse_position(convert_position(p))], and an engine coordinate whose
    row is between [bs - 24] and [bs] survives
    [convert_position(parse_position(c))] up to the case of its letter. *)
Theorem round_trip_any_size (bs : Z) (i j : nat) :
  (i < 25)%nat -> (j < 25)%nat ->
  (convert_position bs (sgf_point i j) ≫= parse_position bs) = Ok (sgf_point i j)
  /\ (parse_position bs (board_point i (bs - Z.of_nat j)) ≫= convert_position bs)
     = Ok (board_point i (bs - Z.of_nat j))
  /\ (parse_position bs (board_point_capital i (bs - Z.of_nat j)) ≫= convert_position bs)
     = Ok (board_point i (bs - Z.of_nat j)).
Proof.
  intros Hi Hj.
  pose proof (convert_two_letters bs i j EmptyString Hi Hj) as Hconv.
  fold (sgf_point i j) in Hconv.
  destruct (parse_rows bs i (bs - Z.of_nat j) Hi) as [Hrow _].
  destruct Hrow as [Hlow Hcap]; [lia|].
  replace (Z.to_nat (bs - (bs - Z.of_nat j))) with j in Hlow, Hcap by lia.
  fold (sgf_point i j) in Hlow, Hcap.
  rewrite Hconv, Hlow, Hcap. cbn [mbind result_bind].
  rewrite Hlow, Hconv. auto.
Qed.
End CoordinateFacts.

(** ** The move history of the client *)

Section HistoryFacts.

Lemma add_move_history self color pos self' :
  add_move self color pos = Ok self' ->
  exists move,
    engine_move (board_size self) pos = Ok move
    /\ self' = set_history self
                 (history self ++ [String.append "play " (String.append color (String.append " " move))]).
Proof.
  unfold add_move, engine_move. intros H. bind_inv H. inversion H. eauto.
Qed.

Lemma digits_without_white d :
  PyStr.contains "white" (NilEmpty.string_of_uint d) = false.
Proof. induction d; simpl; auto. Qed.

Lemma number_without_white n :
  PyStr.contains "white" (PyStr.of_int n) = false
  /\ String.prefix "hite" (PyStr.of_int n) = false.
Proof.
  unfold PyStr.of_int. destruct (Z.to_int n) as [d|d]; simpl;
    destruct d; simpl; auto using digits_without_white.
Qed.

Lemma engine_move_without_white bs pos move :
  engine_move bs pos = Ok move -> PyStr.contains "white" move = false.
Proof.
  unfold engine_move. destruct (String.eqb pos "" || String.eqb pos "tt").
  - intros H. inversion H. reflexivity.
  - unfold convert_position. intros H. bind_inv H. inversion H; subst; clear H.
    destruct (number_without_white (bs - a3)) as [Hc Hp].
    change (PyStr.contains "white" (String a1 (PyStr.of_int (bs - a3))))
      with (String.prefix "white" (String a1 (PyStr.of_int (bs - a3)))
            || PyStr.contains "white" (PyStr.of_int (bs - a3))).
    rewrite Hc, orb_false_r.
    change (String.prefix "white" (String a1 (PyStr.of_int (bs - a3))))
      with (if Ascii.ascii_dec "w" a1 then String.prefix "hite" (PyStr.of_int (bs - a3)) else false).
    rewrite Hp. now destruct (Ascii.ascii_dec "w" a1).
Qed.

Lemma command_for_black move :
  PyStr.contains "white"
    (String.append "play " (String.append "black" (String.append " " move)))
  = PyStr.contains "white" move.
Proof. reflexivity. Qed.

Lemma command_for_white move :
  PyStr.contains "white"
    (String.append "play " (String.append "white" (String.append " " move)))
  = true.
Proof. reflexivity. Qed.

Lemma add_move_turn self color pos self' :
  color = "black" \/ color = "white" ->
  add_move self color pos = Ok self' ->
  whose_turn self' = other_color color.
Proof.
  intros Hcolor Hadd.
  destruct (add_move_history _ _ _ _ Hadd) as (move & Hmove & ->).
  apply engine_move_without_white in Hmove.
  unfold whose_turn, set_history. cbn [history]. rewrite last_snoc.
  destruct Hcolor as [-> | ->].
  - rewrite command_for_black, Hmove. reflexivity.
  - rewrite command_for_white. reflexivity.
Qed.

(** X4.  After [add_move] for black it is white's turn, and after [add_move] for
    white it is black's, whatever the move. *)
Theorem turn_passes_after_add_move self color pos self' :
  color = "black" \/ color = "white" ->
  add_move self color pos = Ok self' ->
  whose_turn self' = other_color color.
Proof. exact (add_move_turn self color pos self'). Qed.

Lemma add_move_pop self color pos self' :
  add_move self color pos = Ok self' ->
  pop_move self' = Ok self
  /\ length (history self') = S (length (history self))
  /\ pop_move (clear_history self) = Raise IndexError.
Proof.
  intros Hadd.
  destruct (add_move_history _ _ _ _ Hadd) as (move & _ & ->).
  split; [|split; [|reflexivity]].
  - unfold pop_move, set_history. cbn [history board_size is_handicap_game].
    destruct (history self ++ [_]) as [|x l] eqn:Hl.
    + by apply app_nil in Hl as [_ ?].
    + rewrite <- Hl, removelast_last. now destruct self.
  - unfold set_history. cbn [history]. rewrite length_app. simpl. lia.
Qed.

(** X5.  [pop_move] undoes [add_move]; on an empty history it raises. *)
Theorem pop_move_undoes_add_move self color pos self' :
  add_move self color pos = Ok self' ->
  pop_move self' = Ok self
  /\ length (history self') = S (length (history self))
  /\ pop_move (clear_history self) = Raise IndexError.
Proof. exact (add_move_pop self color pos self'). Qed.

Lemma other_color_twice color :
  color = "black" \/ color = "white" -> other_color (other_color color) = color.
Proof. intros [-> | ->]; reflexivity. Qed.

Lemma unwind_last n : forall self,
  unwind (S n) self = (self' ← unwind n self; pop_move self').
Proof.
  induction n as [|n IH]; intros self.
  - simpl. destruct (pop_move self); reflexivity.
  - change (unwind (S (S n)) self) with (s ← pop_move self; unwind (S n) s).
    change (unwind (S n) self) with (s ← pop_move self; unwind n s).
    destruct (pop_move self) as [s|e]; cbn [mbind result_bind]; [|reflexivity].
    apply IH.
Qed.

(** X6.  The loops of [search]: replaying the moves of a node lets the colours
    alternate from the colour to move, so that the colour to move afterwards
    is the one [expand] keeps for the node; popping as many moves gives back
    the client as it was. *)
Theorem replay_then_unwind moves : forall self self',
  replay self moves = Ok self' ->
  unwind (length moves) self' = Ok self
  /\ length (history self') = (length (history self) + length moves)%nat
  /\ whose_turn self'
     = (if Nat.even (length moves) then whose_turn self
        else other_color (whose_turn self)).
Proof.
  induction moves as [|mv moves IH]; intros self self' H; simpl in H.
  - inversion H. subst. simpl. rewrite Nat.add_0_r. auto.
  - bind_inv H. rename a into mid.
    destruct (IH _ _ H) as (Hun & Hlen & Hturn).
    assert (Hcolor : whose_turn self = "black" \/ whose_turn self = "white")
      by (destruct (whose_turn_color self); auto).
    pose proof (add_move_turn _ _ _ _ Hcolor E) as Hmid.
    destruct (add_move_pop _ _ _ _ E) as (Hpop & Hlen1 & _).
    split; [|split].
    + cbn [length]. rewrite unwind_last, Hun. exact Hpop.
    + simpl. lia.
    + rewrite Hturn, Hmid. cbn [length]. rewrite Nat.even_succ, <- Nat.negb_even.
      destruct (Nat.even (length moves)); simpl; [reflexivity|].
      now apply other_color_twice.
Qed.

Lemma split_go_spaceless s : forall cur,
  spaceless s = true ->
  PyStr.split_go cur s
  = match PyStr.rev_acc s cur with
    | EmptyString => []
    | r => [PyStr.rev r]
    end.
Proof.
  induction s as [|c s IH]; intros cur H; simpl in *.
  - destruct cur; reflexivity.
  - apply andb_true_iff in H as [Hc Hs]. apply negb_true_iff in Hc.
    rewrite Hc. apply IH. exact Hs.
Qed.

Lemma split_one_field s :
  spaceless s = true -> s <> EmptyString -> PyStr.split_go EmptyString s = [s].
Proof.
  intros Hs Hne. rewrite split_go_spaceless by exact Hs.
  change (PyStr.rev_acc s EmptyString) with (PyStr.rev s).
  destruct (PyStr.rev s) as [|c r] eqn:Hr.
  - exfalso. apply Hne. rewrite <- (rev_involutive s), Hr. reflexivity.
  - rewrite <- Hr, rev_involutive. reflexivity.
Qed.

Lemma board_letter_not_space i x :
  PyStr.getitem BOARD_COORD i = Ok x -> PyStr.is_space x = false.
Proof.
  intros H. destruct (getitem_spec BOARD_COORD i) as (Hin & Hneg & Hout).
  assert (Hk : forall k, (k < 25)%nat -> PyStr.is_space (letter BOARD_COORD k) = false).
  { intros k Hk. do 25 (destruct k as [|k]; [reflexivity|]). lia. }
  simpl in Hin, Hneg, Hout.
  destruct (Z_lt_dec i (-25)) as [?|?]; [rewrite Hout in H by lia; discriminate|].
  destruct (Z_lt_dec i 0) as [?|?].
  - rewrite Hneg in H by lia. inversion H. apply Hk. lia.
  - destruct (Z_lt_dec i 25) as [?|?]; [|rewrite Hout in H by lia; discriminate].
    rewrite Hin in H by lia. inversion H. apply Hk. lia.
Qed.

Lemma engine_move_one_field bs pos move :
  engine_move bs pos = Ok move -> spaceless move = true /\ move <> EmptyString.
Proof.
  unfold engine_move. destruct (String.eqb pos "" || String.eqb pos "tt").
  - intros H. inversion H. split; [reflexivity|discriminate].
  - unfold convert_position. intros H. bind_inv H. inversion H; subst; clear H.
    split; [|discriminate]. simpl.
    rewrite (board_letter_not_space _ _ E1), of_int_spaceless. reflexivity.
Qed.

Lemma hash_piece_play color move :
  color = "black" \/ color = "white" ->
  spaceless move = true -> move <> EmptyString ->
  hash_piece (String.append "play " (String.append color (String.append " " move)))
  = Ok (String.append (if String.eqb color "black" then "b" else "w") move).
Proof.
  intros Hcolor Hs Hne. unfold hash_piece.
  destruct Hcolor as [-> | ->].
  - change (PyStr.split (String.append "play " (String.append "black" (String.append " " move))))
      with ("play" :: "black" :: PyStr.split_go EmptyString move).
    rewrite (split_one_field move Hs Hne). reflexivity.
  - change (PyStr.split (String.append "play " (String.append "white" (String.append " " move))))
      with ("play" :: "white" :: PyStr.split_go EmptyString move).
    rewrite (split_one_field move Hs Hne). reflexivity.
Qed.

Lemma traverse_snoc {A B} (f : A -> result B) l x ys y :
  traverse f l = Ok ys -> f x = Ok y -> traverse f (l ++ [x]) = Ok (ys ++ [y]).
Proof.
  revert ys. induction l as [|a l IH]; intros ys Hl Hx; simpl in *.
  - inversion Hl. rewrite Hx. reflexivity.
  - bind_inv Hl. inversion Hl; subst. rewrite (IH _ eq_refl Hx). reflexivity.
Qed.

(** X7.  The checkpoint key of a history built by [add_move] for black and white:
    the digest never fails on it, and each move adds the initial of its
    colour followed by the move in the engine's notation to the digested
    text. *)
Theorem history_hash_after_add_move (md5 : string -> string) self color pos self' pieces :
  color = "black" \/ color = "white" ->
  traverse hash_piece (history self) = Ok pieces ->
  add_move self color pos = Ok self' ->
  exists move,
    engine_move (board_size self) pos = Ok move
    /\ history_hash md5 self = Ok (md5 (PyStr.concat pieces))
    /\ history_hash md5 self'
       = Ok (md5 (PyStr.concat
                    (pieces ++ [String.append (if String.eqb color "black" then "b" else "w")
                                               move]))).
Proof.
  intros Hcolor Hpieces Hadd.
  destruct (add_move_history _ _ _ _ Hadd) as (move & Hmove & ->).
  exists move. split; [exact Hmove|].
  destruct (engine_move_one_field _ _ _ Hmove) as [Hs Hne].
  unfold history_hash. cbn [history set_history].
  split; [now rewrite Hpieces|].
  rewrite (traverse_snoc _ _ _ _ _ Hpieces (hash_piece_play color move Hcolor Hs Hne)).
  reflexivity.
Qed.
End HistoryFacts.

(** ** What the scan of stderr keeps and what it adds *)

Section ScanFacts.
Context {D : Dialect}.
Variable self : CLI.

Lemma has_key_insert (st : dict) i v k :
  has_key st k = true -> has_key (<[i := v]> st) k = true.
Proof.
  unfold has_key. intros H. apply bool_decide_eq_true in H. apply bool_decide_eq_true.
  apply lookup_insert_is_Some'. auto.
Qed.

Lemma has_key_inserted (st : dict) i v : has_key (<[i := v]> st) i = true.
Proof.
  unfold has_key. apply bool_decide_eq_true. apply lookup_insert_is_Some'. auto.
Qed.

Lemma on_bookmove_cases line l l' :
  on_bookmove line l = Ok l' ->
  (bookmove_regex line = None /\ l' = l)
  \/ exists b p,
       bookmove_regex line <> None
       /\ l' = mkLocals (<["positions" := VInt p]> (<["bookmoves" := VInt b]> (stats l)))
                (move_list l) (info l) (finished l) (summarized l).
Proof.
  unfold on_bookmove. destruct (bookmove_regex line) as [m|]; intros H.
  - right. bind_inv H. inversion H. eauto.
  - left. inversion H. auto.
Qed.

Lemma on_status_cases line l l' :
  on_status self line l = Ok l' ->
  (status_regex line = None /\ l' = l)
  \/ exists mc nn g,
       l' = mkLocals (<["margin" := VStr g]>
                        (<["nn_winrate" := VFloat nn]>
                           (<["mc_winrate" := VFloat mc]> (stats l))))
              (move_list l) (info l) (finished l) (summarized l).
Proof.
  unfold on_status. destruct (status_regex line) as [m|]; intros H.
  - right. bind_inv H. inversion H. eauto.
  - left. inversion H. auto.
Qed.

Lemma on_move_cases line l l' :
  on_move self line l = Ok l' ->
  (move_regex line = None /\ l' = l)
  \/ exists i,
       move_regex line <> None
       /\ l' = mkLocals (stats l) (move_list l ++ [i]) (Some i) (finished l) (summarized l).
Proof.
  unfold on_move. destruct (move_regex line) as [m|]; intros H.
  - right. bind_inv H. inversion H. eauto.
  - left. inversion H. auto.
Qed.

Lemma on_best_cases line l l' :
  on_best self line l = Ok l' ->
  (best_regex line = None /\ l' = l)
  \/ exists wr first g,
       parse_position (board_size self) first = Ok g
       /\ l' = mkLocals (<["winrate" := VFloat wr]> (<["best" := VStr g]> (stats l)))
                (move_list l) (info l) (finished l) (summarized l).
Proof.
  unfold on_best. destruct (best_regex line) as [m|]; intros H.
  - right. bind_inv H. inversion H. eauto 10.
  - left. inversion H. auto.
Qed.

Lemma on_stats_cases line l l' :
  on_stats line l = Ok l' ->
  (stats_regex line = None /\ l' = l)
  \/ exists v,
       l' = mkLocals (<["visits" := VInt v]> (stats l))
              (move_list l) (info l) (finished l) true.
Proof.
  unfold on_stats. destruct (stats_regex line) as [m|]; intros H.
  - right. bind_inv H. inversion H. eauto.
  - left. inversion H. auto.
Qed.

(** The first three matches of a turn of the loop: the flags and the
    statistics read after the banner are left alone. *)
Lemma early_matches line l l3 :
  (l1 ← on_bookmove line l; l2 ← on_status self line l1; on_move self line l2) = Ok l3 ->
  finished l3 = finished l /\ summarized l3 = summarized l
  /\ (forall k, summary_key k -> stats l3 !! k = stats l !! k)
  /\ (forall k, has_key (stats l) k = true -> has_key (stats l3) k = true)
  /\ (bookmove_regex line <> None -> has_key (stats l3) "bookmoves" = true)
  /\ move_list l3
     = move_list l ++ (if move_regex line is Some _ then option_list (info l3) else [])
  /\ (move_regex line <> None -> length (option_list (info l3)) = 1%nat).
Proof.
  intros H. bind_inv H. rename a into l1, a0 into l2.
  apply on_bookmove_cases in E. apply on_status_cases in E0. apply on_move_cases in H.
  assert (H1 : finished l1 = finished l /\ summarized l1 = summarized l
               /\ (forall k, summary_key k -> stats l1 !! k = stats l !! k)
               /\ (forall k, has_key (stats l) k = true -> has_key (stats l1) k = true)
               /\ (bookmove_regex line <> None -> has_key (stats l1) "bookmoves" = true)
               /\ move_list l1 = move_list l).
  { destruct E as [[Hn ->]|(b & p & Hm & ->)]; cbn [stats move_list finished summarized].
    - split; [reflexivity|]. split; [reflexivity|]. split; [auto|]. split; [auto|].
      split; [congruence|reflexivity].
    - split; [reflexivity|]. split; [reflexivity|].
      split; [intros k [-> | [-> | ->]]; by simplify_map_eq|].
      split; [|split; [|reflexivity]].
      + intros k Hk. auto using has_key_insert.
      + intros _. apply has_key_insert, has_key_inserted. }
  assert (H2 : finished l2 = finished l1 /\ summarized l2 = summarized l1
               /\ (forall k, summary_key k -> stats l2 !! k = stats l1 !! k)
               /\ (forall k, has_key (stats l1) k = true -> has_key (stats l2) k = true)
               /\ move_list l2 = move_list l1).
  { destruct E0 as [[Hn ->]|(mc & nn & g & ->)]; cbn [stats move_list finished summarized].
    - split; [reflexivity|]. split; [reflexivity|]. split; [auto|]. split; [auto|reflexivity].
    - split; [reflexivity|]. split; [reflexivity|].
      split; [intros k [-> | [-> | ->]]; by simplify_map_eq|].
      split; [|reflexivity].
      intros k Hk. auto using has_key_insert. }
  destruct H1 as (F1 & S1 & K1 & M1 & B1 & L1). destruct H2 as (F2 & S2 & K2 & M2 & L2).
  destruct H as [[Hn ->]|(i & Hm & ->)]; cbn [stats move_list finished summarized info].
  - rewrite Hn, app_nil_r.
    split; [congruence|]. split; [congruence|].
    split; [intros k Hk; rewrite K2, K1; auto|].
    split; [auto|]. split; [auto|]. split; [congruence|congruence].
  - destruct (move_regex line); [|congruence]. simpl.
    split; [congruence|]. split; [congruence|].
    split; [intros k Hk; rewrite K2, K1; auto|].
    split; [auto|]. split; [auto|]. split; [congruence|reflexivity].
Qed.

Lemma scan_line_cases raw l l' :
  scan_line self raw l = Ok l' ->
  let line := PyStr.strip raw in
  let l0 := mkLocals (stats l) (move_list l) (info l)
              (finished l || is_banner raw) (summarized l) in
  exists l3,
    (l1 ← on_bookmove line l0; l2 ← on_status self line l1; on_move self line l2) = Ok l3
    /\ ((finished l3 && negb (summarized l3) = false /\ l' = l3)
        \/ (finished l3 && negb (summarized l3) = true
            /\ exists l4, on_best self line l3 = Ok l4 /\ on_stats line l4 = Ok l')).
Proof.
  intros H. cbv zeta. unfold is_banner.
  set (line := PyStr.strip raw).
  set (l0 := mkLocals (stats l) (move_list l) (info l)
               (finished l || String.prefix "================" line) (summarized l)).
  unfold scan_line in H. fold line in H. fold l0 in H.
  destruct (on_bookmove line l0) as [l1|] eqn:E1; cbn [mbind result_bind] in *; [|discriminate].
  destruct (on_status self line l1) as [l2|] eqn:E2; cbn [mbind result_bind] in *; [|discriminate].
  destruct (on_move self line l2) as [l3|] eqn:E3; cbn [mbind result_bind] in *; [|discriminate].
  exists l3. split; [reflexivity|].
  destruct (finished l3 && negb (summarized l3)).
  - right. split; [reflexivity|].
    destruct (on_best self line l3) as [l4|] eqn:E4; cbn [mbind result_bind] in *; [|discriminate].
    eauto.
  - left. split; [reflexivity|]. now inversion H.
Qed.

(** A line read while no banner has been seen, or after the visit count
    has been read, leaves the statistics of the summary as they are. *)
Lemma scan_line_outside_summary raw l l' :
  scan_line self raw l = Ok l' ->
  finished l || is_banner raw = false \/ summarized l = true ->
  finished l' = (finished l || is_banner raw) /\ summarized l' = summarized l
  /\ forall k, summary_key k -> stats l' !! k = stats l !! k.
Proof.
  intros H Hout. apply scan_line_cases in H as (l3 & Hearly & Hrest).
  apply early_matches in Hearly as (F & S & K & _).
  cbn [finished summarized stats] in F, S, K.
  destruct Hrest as [[_ ->]|[Hcond _]]; [auto|].
  rewrite F, S in Hcond. apply andb_true_iff in Hcond as [Hf Hs].
  apply negb_true_iff in Hs. destruct Hout; congruence.
Qed.

Lemma scan_from_app stderr1 : forall stderr2 l,
  scan_from self l (stderr1 ++ stderr2)
  = (l1 ← scan_from self l stderr1; scan_from self l1 stderr2).
Proof.
  induction stderr1 as [|raw rest IH]; intros stderr2 l; simpl; [reflexivity|].
  destruct (scan_line self raw l); cbn [mbind result_bind]; [apply IH|reflexivity].
Qed.

Lemma scan_from_without_banner stderr : forall l l',
  Forall (fun raw => is_banner raw = false) stderr ->
  finished l = false ->
  scan_from self l stderr = Ok l' ->
  finished l' = false /\ forall k, summary_key k -> stats l' !! k = stats l !! k.
Proof.
  induction stderr as [|raw rest IH]; intros l l' Hall Hf H; simpl in H.
  - inversion H; subst. auto.
  - apply Forall_cons in Hall as [Hraw Hall]. bind_inv H.
    apply scan_line_outside_summary in E as (F & _ & K); [|left; now rewrite Hf, Hraw].
    rewrite Hf, Hraw in F.
    destruct (IH _ _ Hall F H) as [F' K'].
    split; [exact F'|]. intros k Hk. rewrite K', K; auto.
Qed.

Lemma scan_from_after_summary stderr : forall l l',
  summarized l = true ->
  scan_from self l stderr = Ok l' ->
  summarized l' = true /\ forall k, summary_key k -> stats l' !! k = stats l !! k.
Proof.
  induction stderr as [|raw rest IH]; intros l l' Hs H; simpl in H.
  - inversion H; subst. auto.
  - bind_inv H.
    apply scan_line_outside_summary in E as (_ & S & K); [|right; exact Hs].
    rewrite Hs in S. destruct (IH _ _ S H) as [S' K'].
    split; [exact S'|]. intros k Hk. rewrite K', K; auto.
Qed.

(** X8.  Only the first visit count after the banner is read: once it has been,
    the lines that follow change none of the best move, its win-rate and
    the visit count. *)
Theorem summary_is_read_once stderr1 stderr2 l1 l2 :
  scan self stderr1 = Ok l1 -> summarized l1 = true ->
  scan self (stderr1 ++ stderr2) = Ok l2 ->
  summarized l2 = true
  /\ stats l2 !! "best" = stats l1 !! "best"
  /\ stats l2 !! "winrate" = stats l1 !! "winrate"
  /\ stats l2 !! "visits" = stats l1 !! "visits".
Proof.
  unfold scan. intros H1 Hs H2. rewrite scan_from_app, H1 in H2.
  cbn [mbind result_bind] in H2.
  destruct (scan_from_after_summary _ _ _ Hs H2) as [S K].
  unfold summary_key in K. repeat split; auto.
Qed.

(** X9.  Without a banner line nothing of the summary is read: the statistics
    have no best move, win-rate or visit count, and as soon as one candidate
    line was parsed [parse] raises on [stats['best']], after its warnings. *)
Theorem parse_without_banner stdout stderr l st :
  Forall (fun raw => is_banner raw = false) stderr ->
  scan self stderr = Ok l ->
  find_chosen self stdout (stats l) = Ok st ->
  (stats l !! "best" = None /\ stats l !! "winrate" = None /\ stats l !! "visits" = None)
  /\ (move_list l <> [] ->
        parse self stdout stderr = (warnings st, Raise (KeyError "best"))).
Proof.
  intros Hall Hscan Hchosen.
  destruct (scan_from_without_banner stderr locals0 l Hall eq_refl Hscan) as [_ K].
  change (stats locals0) with (∅ : dict) in K.
  split.
  { unfold summary_key in K. repeat split; rewrite K; auto. }
  assert (Hbest : stats l !! "best" = None) by (rewrite K; [reflexivity|left; reflexivity]).
  intros Hne. unfold parse. rewrite Hscan, Hchosen. unfold conclude.
  assert (Hb : has_key st "bookmoves" && (length (move_list l) =? 0)%nat = false).
  { destruct (move_list l); [congruence|]. simpl. apply andb_false_r. }
  rewrite Hb. f_equal.
  assert (Hst : st !! "best" = None).
  { unfold find_chosen in Hchosen. destruct (finished_regex _).
    - bind_inv Hchosen. inversion Hchosen. by simplify_map_eq.
    - inversion Hchosen. now subst. }
  destruct (scan_scanned self _ _ Hscan) as [Hcand Hinfo].
  destruct (move_list l) as [|x ml] eqn:Hl; [congruence|].
  rewrite <- Hl in *.
  destruct (last (move_list l)) as [i|] eqn:Hlast.
  2:{ apply last_None in Hlast. congruence. }
  assert (Hi : parsed_candidate i).
  { rewrite Forall_forall in Hcand. apply Hcand.
    apply last_Some in Hlast as [l' ->]. apply elem_of_app. right.
    by apply list_elem_of_singleton. }
  destruct Hi as (p & v & Hp & _).
  unfold sorted_reverse. rewrite Hl. cbn [traverse].
  rewrite Hinfo. unfold sort_key, item. rewrite Hp, Hst. reflexivity.
Qed.

Lemma scan_line_candidates raw l l' :
  scan_line self raw l = Ok l' ->
  length (move_list l')
  = (length (move_list l) + length (candidate_lines [raw]))%nat
  /\ (forall k, has_key (stats l) k = true -> has_key (stats l') k = true)
  /\ (bookmove_regex (PyStr.strip raw) <> None -> has_key (stats l') "bookmoves" = true).
Proof.
  intros H. apply scan_line_cases in H as (l3 & Hearly & Hrest).
  apply early_matches in Hearly as (_ & _ & _ & M & B & L & I).
  cbn [stats move_list] in M, B, L.
  assert (Hlen : length (move_list l3)
                 = (length (move_list l) + length (candidate_lines [raw]))%nat).
  { rewrite L, length_app. f_equal. unfold candidate_lines.
    rewrite filter_cons, filter_nil.
    destruct (move_regex (PyStr.strip raw)) as [m|] eqn:Hm.
    - destruct (decide (is_Some (Some m))) as [_|Hn]; [|exfalso; apply Hn; eauto].
      apply I. congruence.
    - destruct (decide (is_Some None)) as [Hn|_]; [by destruct Hn|]. reflexivity. }
  destruct Hrest as [[_ ->]|[_ (l4 & Hbest & Hstats)]]; [auto|].
  destruct (on_best_keeps _ _ _ _ Hbest) as [Lb _].
  destruct (on_stats_keeps _ _ _ Hstats) as [Ls _].
  apply on_best_cases in Hbest. apply on_stats_cases in Hstats.
  assert (K4 : forall k, has_key (stats l3) k = true -> has_key (stats l4) k = true).
  { destruct Hbest as [[_ ->]|(wr & f & g & _ & ->)]; [auto|].
    cbn [stats]. auto using has_key_insert. }
  assert (K5 : forall k, has_key (stats l4) k = true -> has_key (stats l') k = true).
  { destruct Hstats as [[_ ->]|(v & ->)]; [auto|].
    cbn [stats]. auto using has_key_insert. }
  split; [congruence|]. split; auto.
Qed.

Lemma scan_from_candidates stderr : forall l l',
  scan_from self l stderr = Ok l' ->
  length (move_list l')
  = (length (move_list l) + length (candidate_lines stderr))%nat
  /\ (forall k, has_key (stats l) k = true -> has_key (stats l') k = true)
  /\ (book_lines stderr <> [] -> has_key (stats l') "bookmoves" = true).
Proof.
  induction stderr as [|raw rest IH]; intros l l' H; simpl in H.
  - inversion H; subst. split; [simpl; lia|]. split; [auto|]. intros Hb. by destruct Hb.
  - bind_inv H. rename a into l1.
    destruct (scan_line_candidates _ _ _ E) as (L1 & K1 & B1).
    destruct (IH _ _ H) as (L2 & K2 & B2).
    split; [|split].
    + rewrite L2, L1. unfold candidate_lines. rewrite !filter_cons, filter_nil.
      destruct (decide _); simpl; lia.
    + auto.
    + unfold book_lines. rewrite filter_cons.
      destruct (decide (is_Some (bookmove_regex (PyStr.strip raw)))) as [Hm|Hm].
      * intros _. apply K2, B1. destruct Hm as [m Hm]. congruence.
      * exact B2.
Qed.

(** X10.  One record per candidate line: the list of candidates has as many
    entries as stderr has lines that match the candidate pattern. *)
Theorem one_candidate_per_line stderr l :
  scan self stderr = Ok l ->
  length (move_list l) = length (candidate_lines stderr).
Proof.
  intros H. destruct (scan_from_candidates _ _ _ H) as (L & _). exact L.
Qed.

(** X11.  A book position: when stderr has a book line and no candidate line, and
    the chosen move is found, [parse] prints no warning and returns the
    statistics as scanned with one candidate, the chosen move flagged as a
    book move; "resign" is not replaced on this path. *)
Theorem parse_book_position stdout stderr l st chosen :
  scan self stderr = Ok l ->
  find_chosen self stdout (stats l) = Ok st ->
  book_lines stderr <> [] -> candidate_lines stderr = [] ->
  st !! "chosen" = Some chosen ->
  parse self stdout stderr
  = ([], Ok (st, [<["is_book" := VBool true]> (<["pos" := chosen]> ∅)])).
Proof.
  intros Hscan Hchosen Hbook Hcand Hc.
  destruct (scan_from_candidates _ _ _ Hscan) as (L & _ & B).
  rewrite Hcand in L. simpl in L.
  assert (Hml : move_list l = []) by (destruct (move_list l); [reflexivity|discriminate]).
  assert (Hb : has_key st "bookmoves" = true).
  { specialize (B Hbook). unfold find_chosen in Hchosen.
    destruct (finished_regex _).
    - bind_inv Hchosen. inversion Hchosen. now apply has_key_insert.
    - inversion Hchosen. now subst. }
  unfold parse. rewrite Hscan, Hchosen. unfold conclude.
  rewrite Hb, Hml. simpl. unfold item. rewrite Hc. reflexivity.
Qed.

Lemma parse_position_shape bs pos s :
  parse_position bs pos = Ok s -> s <> "resign".
Proof.
  unfold parse_position. destruct (String.eqb pos "pass").
  - intros H. inversion H. discriminate.
  - intros H. bind_inv H. inversion H. discriminate.
Qed.

Lemma scan_from_best stderr : forall l l',
  (forall v, stats l !! "best" = Some v -> v <> VStr "resign") ->
  scan_from self l stderr = Ok l' ->
  forall v, stats l' !! "best" = Some v -> v <> VStr "resign".
Proof.
  induction stderr as [|raw rest IH]; intros l l' Hl H; simpl in H.
  - inversion H; subst. exact Hl.
  - bind_inv H. eapply IH; [|exact H]. clear H IH.
    apply scan_line_cases in E as (l3 & Hearly & Hrest).
    apply early_matches in Hearly as (_ & _ & K & _). cbn [stats] in K.
    assert (H3 : forall v, stats l3 !! "best" = Some v -> v <> VStr "resign").
    { intros v. rewrite K by (left; reflexivity). apply Hl. }
    destruct Hrest as [[_ ->]|[_ (l4 & Hbest & Hstats)]]; [exact H3|].
    apply on_best_cases in Hbest. apply on_stats_cases in Hstats.
    assert (H4 : forall v, stats l4 !! "best" = Some v -> v <> VStr "resign").
    { destruct Hbest as [[_ ->]|(wr & f & g & Hg & ->)]; [exact H3|].
      cbn [stats]. intros v Hv. simplify_map_eq.
      intros Heq. inversion Heq as [Hgr]. exact (parse_position_shape _ _ _ Hg Hgr). }
    destruct Hstats as [[_ ->]|(v' & ->)]; [exact H4|].
    cbn [stats]. intros v Hv. simplify_map_eq. now apply H4.
Qed.

(** X12.  The resign replacement.  Outside the book branch, when [parse] returns:
    a chosen move "resign" has been replaced by the best move and nothing
    else was changed, any other chosen move leaves the statistics as
    scanned, and in both cases the returned chosen move is not "resign". *)
Theorem parse_replaces_resign stdout stderr l st w st' ml :
  scan self stderr = Ok l ->
  find_chosen self stdout (stats l) = Ok st ->
  has_key st "bookmoves" = false \/ move_list l <> [] ->
  parse self stdout stderr = (w, Ok (st', ml)) ->
  (st !! "chosen" = Some (VStr "resign") ->
     exists best, st !! "best" = Some best /\ st' = <["chosen" := best]> st)
  /\ (st !! "chosen" <> Some (VStr "resign") -> st' = st)
  /\ st' !! "chosen" <> Some (VStr "resign").
Proof.
  intros Hscan Hchosen Hbranch Hparse.
  assert (Hbest : forall v, st !! "best" = Some v -> v <> VStr "resign").
  { assert (Hl : forall v, stats l !! "best" = Some v -> v <> VStr "resign").
    { eapply scan_from_best; [|exact Hscan]. intros v Hv. discriminate. }
    unfold find_chosen in Hchosen. destruct (finished_regex _).
    - bind_inv Hchosen. inversion Hchosen; subst. intros v Hv.
      simplify_map_eq. now apply Hl.
    - inversion Hchosen; subst. exact Hl. }
  unfold parse in Hparse. rewrite Hscan, Hchosen in Hparse.
  unfold conclude in Hparse.
  assert (Hb : has_key st "bookmoves" && (length (move_list l) =? 0)%nat = false).
  { destruct Hbranch as [->|Hne]; [reflexivity|].
    destruct (move_list l); [congruence|]. simpl. apply andb_false_r. }
  rewrite Hb in Hparse. injection Hparse as _ Hres.
  bind_inv Hres. rename a1 into chosen.
  unfold item in E1. destruct (st !! "chosen") as [c|] eqn:Hc; [|discriminate].
  inversion E1; subst c; clear E1.
  destruct (pyval_eqb chosen (VStr "resign")) eqn:Heq.
  - bind_inv Hres. inversion Hres; subst; clear Hres.
    unfold item in E1. destruct (st !! "best") as [b|] eqn:Hbv; [|discriminate].
    inversion E1; subst a1; clear E1.
    split; [eauto|]. split.
    + intros Hne. exfalso. apply Hne. f_equal.
      destruct chosen; simpl in Heq; try discriminate.
      apply String.eqb_eq in Heq. now subst.
    + rewrite lookup_insert_eq. intros Heq'. inversion Heq'. now apply (Hbest b).
  - inversion Hres; subst; clear Hres.
    split; [|split; [reflexivity|]].
    + intros Heq'. inversion Heq'; subst. simpl in Heq. discriminate.
    + rewrite Hc. intros Heq'. inversion Heq'; subst. simpl in Heq. discriminate.
Qed.
End ScanFacts.

(** ** The variation tree: selection, pool, slots, colours *)

Section TreeTheorems.
Import Variations TreeFacts.
Variable rootcolor : string.
Variable game_move : option string.
Variable analysis : nat -> list pyval -> result (dict * list dict).

Lemma max_from_split t rest : forall best,
  exists before after,
    best :: rest = before ++ max_from t best rest :: after
    /\ (forall y, y ∈ before -> (prob_of t y < prob_of t (max_from t best rest))%Q)
    /\ (forall y, y ∈ after -> (prob_of t y <= prob_of t (max_from t best rest))%Q).
Proof.
  induction rest as [|x rest IH]; intros best; simpl.
  - exists [], []. repeat split; intros y Hy; by apply elem_of_nil in Hy.
  - destruct (Qle_bool (prob_of t x) (prob_of t best)) eqn:Hle.
    + apply Qle_bool_iff in Hle.
      destruct (IH best) as (before & after & Heq & Hb & Ha).
      destruct before as [|b before]; simpl in Heq; injection Heq as Hbest Hrest.
      * exists [], (x :: rest). rewrite <- Hbest in Ha |- *. split; [reflexivity|].
        split; [intros y Hy; by apply elem_of_nil in Hy|].
        intros y Hy. apply elem_of_cons in Hy as [->|Hy]; [exact Hle|].
        apply Ha. rewrite <- Hrest. exact Hy.
      * subst b. exists (best :: x :: before), after. split; [simpl; congruence|].
        split; [|exact Ha].
        assert (Hbm := Hb best ltac:(apply elem_of_cons; auto)).
        intros y Hy. apply elem_of_cons in Hy as [->|Hy]; [exact Hbm|].
        apply elem_of_cons in Hy as [->|Hy]; [lra|].
        apply Hb. apply elem_of_cons. auto.
    + assert (Hlt : (prob_of t best < prob_of t x)%Q).
      { destruct (Qlt_le_dec (prob_of t best) (prob_of t x)) as [?|Hge]; [assumption|].
        apply Qle_bool_iff in Hge. congruence. }
      destruct (IH x) as (before & after & Heq & Hb & Ha).
      exists (best :: before), after. split; [simpl; congruence|]. split; [|exact Ha].
      intros y Hy. apply elem_of_cons in Hy as [->|Hy]; [|by apply Hb].
      destruct before as [|b before]; simpl in Heq; injection Heq as Hx Hrest.
      * rewrite <- Hx. exact Hlt.
      * subst b. assert (Hxm := Hb x ltac:(apply elem_of_cons; auto)). lra.
Qed.

(** X13.  The leaf chosen for the next search has the highest reaching
    probability of the pool, and is the earliest of the pool among those
    that have it. *)
Theorem search_picks_first_maximum t x rest :
  let m := max_from t x rest in
  (forall y, y ∈ x :: rest -> (prob_of t y <= prob_of t m)%Q)
  /\ exists before after,
       x :: rest = before ++ m :: after
       /\ forall y, y ∈ before -> (prob_of t y < prob_of t m)%Q.
Proof.
  intros m. destruct (max_from_split t rest x) as (before & after & Heq & Hb & Ha).
  fold m in Heq, Hb, Ha. split; [|eauto].
  intros y Hy. rewrite Heq in Hy.
  apply elem_of_app in Hy as [Hy|Hy]; [apply Qlt_le_weak; auto|].
  apply elem_of_cons in Hy as [->|Hy]; [lra|auto].
Qed.
End TreeTheorems.

Section TreeInvariants.
Import Variations TreeFacts.
Variable rootcolor : string.
Variable game_move : option string.
Variable analysis : nat -> list pyval -> result (dict * list dict).

Lemma remove_first_NoDup n l :
  NoDup l ->
  NoDup (remove_first n l)
  /\ forall x, x ∈ remove_first n l <-> x ∈ l /\ x <> n.
Proof.
  induction l as [|y l IH]; intros Hnd; simpl.
  - split; [constructor|]. intros x. split; [intros H; by apply elem_of_nil in H|].
    intros [H _]. exact H.
  - apply NoDup_cons in Hnd as [Hy Hnd]. destruct (IH Hnd) as [IH1 IH2].
    destruct (Nat.eqb_spec y n) as [->|Hne].
    + split; [exact Hnd|]. intros x. rewrite elem_of_cons. split.
      * intros Hx. split; [auto|]. intros ->. contradiction.
      * intros [[->|Hx] Hne]; [contradiction|exact Hx].
    + split.
      * apply NoDup_cons. split; [|exact IH1]. intros Hin. apply IH2 in Hin as [Hin _].
        contradiction.
      * intros x. rewrite !elem_of_cons, IH2. split.
        -- intros [->|[Hx Hxn]]; auto.
        -- intros [[->|Hx] Hxn]; auto.
Qed.

Lemma created_unexplored nd s moves slots k cd :
  traverse (child_slot rootcolor game_move nd s) moves = Ok slots ->
  created slots !! k = Some cd -> explored cd = false.
Proof.
  intros Hs Hk.
  destruct (created_child rootcolor game_move nd s moves slots k cd Hs Hk)
    as (p & _ & _ & He & _). exact He.
Qed.

Lemma expand_pool n st moves t t' :
  NoDup (leaves t) ->
  (forall x, (x ∈ leaves t \/ x = n) <-> unexplored t x) ->
  expand rootcolor game_move n st moves t = Ok t' ->
  pool_inv t'.
Proof.
  intros Hnd Hiff Hex.
  destruct (expand_Ok _ _ _ _ _ _ _ Hex) as (nd & s & slots & Hn & _ & Hslots & ->).
  assert (Hlt : (n < length (nodes t))%nat) by (eapply lookup_lt_Some; eauto).
  assert (Hold : forall x, x ∈ leaves t -> (x < length (nodes t))%nat).
  { intros x Hx. destruct (proj1 (Hiff x) (or_introl Hx)) as (xd & Hxd & _).
    eapply lookup_lt_Some; eauto. }
  set (N := length (nodes t)) in *. set (fresh := created slots) in *.
  assert (Hall : NoDup (leaves t ++ seq N (length fresh))).
  { apply NoDup_app. split; [exact Hnd|]. split; [|apply NoDup_seq].
    intros x Hx Hseq. apply elem_of_seq in Hseq. apply Hold in Hx. lia. }
  destruct (remove_first_NoDup n _ Hall) as [Hnd' Hmem].
  split; [exact Hnd'|]. unfold unexplored. simpl. intros x. rewrite Hmem, elem_of_app, elem_of_seq. split.
  - intros [[Hx|Hx] Hxn].
    + destruct (proj1 (Hiff x) (or_introl Hx)) as (xd & Hxd & Hun).
      exists xd. split; [|exact Hun].
      apply lookup_app_l_Some. rewrite list_lookup_insert_ne by auto. exact Hxd.
    + destruct (lookup_lt_is_Some_2 fresh (x - N)) as [cd Hcd]; [lia|].
      exists cd. split; [|eapply created_unexplored; eauto].
      rewrite lookup_app_r by (rewrite length_insert; lia).
      rewrite length_insert. exact Hcd.
  - intros (xd & Hxd & Hun).
    apply (expanded_lookup _ _ _ _ _ _ Hlt) in Hxd as [[Hxn Hxd]|[[-> ->]|[Hge Hxd]]].
    + split; [|exact Hxn]. left.
      destruct (proj2 (Hiff x) (ex_intro _ xd (conj Hxd Hun))) as [H|H]; [exact H|contradiction].
    + discriminate.
    + apply lookup_lt_Some in Hxd as Hk. fold N in Hge, Hk. split; [right; lia|lia].
Qed.

Lemma search_pool n t t' :
  pool_inv t -> n ∈ leaves t ->
  search rootcolor game_move analysis n t = Ok t' -> pool_inv t'.
Proof.
  intros [Hnd Hiff] Hn Hs.
  destruct (search_Ok _ _ _ _ _ _ Hs) as (nd & st & moves & _ & _ & Hex).
  eapply expand_pool; [| |exact Hex]; simpl; [exact Hnd|].
  intros x. change ((x ∈ leaves t \/ x = n) <-> unexplored t x). rewrite <- Hiff. split; [|auto].
  intros [H| ->]; auto.
Qed.

Lemma number_slots_length slots : forall next,
  length (number_slots next slots) = length slots.
Proof.
  induction slots as [|[cd|] slots IH]; intros next; simpl; auto.
Qed.

Lemma expand_aligned n st moves t t' :
  (forall m nd, nodes t !! m = Some nd -> m <> n -> aligned_at t nd) ->
  (forall nd, nodes t !! n = Some nd -> children nd = []) ->
  expand rootcolor game_move n st moves t = Ok t' ->
  aligned t'.
Proof.
  intros Hothers Hself Hex.
  destruct (expand_Ok _ _ _ _ _ _ _ Hex) as (nd & s & slots & Hn & _ & Hslots & ->).
  assert (Hlt : (n < length (nodes t))%nat) by (eapply lookup_lt_Some; eauto).
  rewrite (Hself nd Hn). simpl app.
  set (nd' := mkNode _ _ _ _ _ _ _ _).
  assert (Hkeep : forall c cd, nodes t !! c = Some cd ->
            exists cd', (<[n := nd']> (nodes t) ++ created slots) !! c = Some cd'
                        /\ history cd' = history cd).
  { intros c cd Hc. destruct (decide (c = n)) as [->|Hcn].
    - exists nd'. split.
      + apply lookup_app_l_Some. apply list_lookup_insert_eq. exact Hlt.
      + rewrite Hn in Hc. inversion Hc; subst cd. reflexivity.
    - exists cd. split; [|reflexivity].
      apply lookup_app_l_Some. rewrite list_lookup_insert_ne by auto. exact Hc. }
  intros m x Hm. simpl in Hm.
  apply (expanded_lookup _ _ _ _ _ _ Hlt) in Hm as [[Hmn Hm]|[[-> ->]|[Hge Hm]]].
  - destruct (Hothers m x Hm Hmn) as (Hlen & Hun & Hch).
    split; [exact Hlen|]. split; [exact Hun|].
    intros i c Hi. destruct (Hch i c Hi) as (cd & move & p & Hc & Hmv & Hp & Hh).
    destruct (Hkeep c cd Hc) as (cd' & Hc' & Hh').
    exists cd', move, p. simpl. rewrite Hh'. auto.
  - split; [simpl; rewrite number_slots_length; eapply traverse_length; eauto|].
    split; [discriminate|].
    intros i c Hi. simpl in Hi.
    apply number_slots_Some in Hi as (k & cd & -> & Hk & Hi).
    assert (Hmv := traverse_lookup _ _ _ Hslots i).
    destruct (moves !! i) as [move|] eqn:Hmove.
    + destruct Hmv as (y & Hy & Hslot). rewrite Hi in Hy. inversion Hy; subst y.
      apply child_slot_Some in Hslot as (p & w & Hp & _ & _ & _ & Hcd).
      exists cd, move, p. simpl. split.
      * rewrite lookup_app_r by (rewrite length_insert; lia).
        rewrite length_insert.
        replace (length (nodes t) + k - length (nodes t))%nat with k by lia. exact Hk.
      * split; [exact Hmove|]. split; [exact Hp|]. rewrite Hcd. reflexivity.
    + rewrite Hi in Hmv. discriminate.
  - apply created_lookup in Hm as Hi. destruct Hi as [i Hi].
    assert (Hmv := traverse_lookup _ _ _ Hslots i).
    destruct (moves !! i) as [move|] eqn:Hmove.
    + destruct Hmv as (y & Hy & Hslot). rewrite Hi in Hy. inversion Hy; subst y.
      apply child_slot_Some in Hslot as (p & w & _ & _ & _ & _ & ->).
      split; [reflexivity|]. split; [reflexivity|].
      intros j c Hj. simpl in Hj. rewrite lookup_nil in Hj. discriminate.
    + rewrite Hi in Hmv. discriminate.
Qed.

Lemma aligned_at_all t : aligned t <-> forall m nd, nodes t !! m = Some nd -> aligned_at t nd.
Proof. reflexivity. Qed.

Lemma search_aligned n t t' :
  pool_inv t -> aligned t -> n ∈ leaves t ->
  search rootcolor game_move analysis n t = Ok t' -> aligned t'.
Proof.
  intros [_ Hiff] Hal Hn Hs.
  destruct (search_Ok _ _ _ _ _ _ Hs) as (nd & st & moves & Hnd & _ & Hex).
  eapply expand_aligned; [| |exact Hex]; simpl.
  - intros m x Hm _. exact (Hal m x Hm).
  - intros x Hx. apply Hiff in Hn as (y & Hy & Hun). rewrite Hx in Hy. inversion Hy; subst y.
    destruct (Hal n x Hx) as (_ & H & _). auto.
Qed.

Lemma other_color_cases c : other_color c = "white" \/ other_color c = "black".
Proof. unfold other_color. destruct (String.eqb c "black"); auto. Qed.

Lemma color_at_cases d :
  rootcolor = "black" \/ rootcolor = "white" ->
  color_at rootcolor d = "white" \/ color_at rootcolor d = "black".
Proof.
  intros Hr. unfold color_at. destruct (Nat.even d); [|apply other_color_cases].
  destruct Hr; auto.
Qed.

Lemma color_at_next d :
  rootcolor = "black" \/ rootcolor = "white" ->
  other_color (color_at rootcolor d) = color_at rootcolor (S d).
Proof.
  intros Hr. unfold color_at. rewrite Nat.even_succ, <- Nat.negb_even.
  destruct (Nat.even d); simpl; [reflexivity|].
  destruct Hr as [-> | ->]; reflexivity.
Qed.

Lemma expand_colored n st moves t t' :
  rootcolor = "black" \/ rootcolor = "white" ->
  colored rootcolor t ->
  expand rootcolor game_move n st moves t = Ok t' ->
  colored rootcolor t'.
Proof.
  intros Hr Hcol Hex.
  destruct (expand_Ok _ _ _ _ _ _ _ Hex) as (nd & s & slots & Hn & _ & Hslots & ->).
  assert (Hlt : (n < length (nodes t))%nat) by (eapply lookup_lt_Some; eauto).
  intros m x Hm. simpl in Hm.
  apply (expanded_lookup _ _ _ _ _ _ Hlt) in Hm as [[Hmn Hm]|[[-> ->]|[Hge Hm]]].
  - exact (Hcol m x Hm).
  - simpl. exact (Hcol n nd Hn).
  - apply created_lookup in Hm as Hi. destruct Hi as [i Hi].
    assert (Hmv := traverse_lookup _ _ _ Hslots i).
    destruct (moves !! i) as [move|] eqn:Hmove.
    + destruct Hmv as (y & Hy & Hslot). rewrite Hi in Hy. inversion Hy; subst y.
      apply child_slot_Some in Hslot as (p & w & _ & _ & _ & _ & ->). simpl.
      rewrite length_app. simpl. rewrite Nat.add_1_r.
      rewrite <- (color_at_next _ Hr), <- (Hcol n nd Hn). reflexivity.
    + rewrite Hi in Hmv. discriminate.
Qed.

Lemma traverse_Raise {A B} (f : A -> result B) e l :
  traverse f l = Raise e -> exists x, x ∈ l /\ f x = Raise e.
Proof.
  induction l as [|x l IH]; simpl; [discriminate|].
  destruct (f x) as [y|e'] eqn:Hx; simpl.
  - destruct (traverse f l) as [ys|e'']; simpl; [discriminate|].
    intros Heq. inversion Heq; subst e''. destruct (IH eq_refl) as (z & Hz & Hfz).
    exists z. split; [apply elem_of_cons; auto|exact Hfz].
  - intros Heq. inversion Heq; subst e'. exists x. split; [apply elem_of_cons; auto|exact Hx].
Qed.
End TreeInvariants.

Section TreeResults.
Import Variations TreeFacts.
Variable rootcolor : string.
Variable game_move : option string.
Variable analysis : nat -> list pyval -> result (dict * list dict).

Lemma bind_Raise {A B} (m : result A) (f : A -> result B) e :
  m ≫= f = Raise e -> m = Raise e \/ exists a, m = Ok a /\ f a = Raise e.
Proof. destruct m as [a|e']; cbn; intros H; [right; eauto|left; congruence]. Qed.

Lemma item_Raise d k e : item d k = Raise e -> e <> AssertionError.
Proof. unfold item. destruct (d !! k); intros H; inversion H. discriminate. Qed.

Lemma as_float_Raise v e : as_float v = Raise e -> e <> AssertionError.
Proof. destruct v; simpl; intros H; inversion H; discriminate. Qed.

Lemma raw_Raise nd move e :
  child_prob_raw rootcolor nd move = Raise e -> e <> AssertionError.
Proof.
  unfold child_prob_raw. destruct (has_key move "is_book"); [discriminate|].
  destruct (String.eqb (color nd) rootcolor).
  - intros H. apply bind_Raise in H as [H|(v & _ & H)];
      [eapply item_Raise|eapply as_float_Raise]; eauto.
  - intros H.
    apply bind_Raise in H as [H|(p & _ & H)]; [eapply item_Raise; eauto|].
    apply bind_Raise in H as [H|(v & _ & H)]; [eapply item_Raise; eauto|].
    apply bind_Raise in H as [H|(pf & _ & H)]; [eapply as_float_Raise; eauto|].
    apply bind_Raise in H as [H|(vf & _ & H)]; [eapply as_float_Raise; eauto|].
    discriminate.
Qed.

Lemma child_slot_Raise nd s move e :
  child_slot rootcolor game_move nd s move = Raise e -> e <> AssertionError.
Proof.
  unfold child_slot. intros H.
  apply bind_Raise in H as [H|(skip & _ & H)].
  - destruct (is_root nd); [|discriminate].
    apply bind_Raise in H as [H|(p & _ & H)]; [eapply item_Raise; eauto|discriminate].
  - destruct skip; [discriminate|].
    apply bind_Raise in H as [H|(p & _ & H)]; [eapply item_Raise; eauto|].
    apply bind_Raise in H as [H|(cp & _ & H)]; [|discriminate].
    unfold child_prob in H.
    apply bind_Raise in H as [H|(w & _ & H)]; [eapply raw_Raise; eauto|].
    destruct (Qeq_bool s 0); inversion H. discriminate.
Qed.

Lemma expand_Raise n st moves t e :
  rootcolor = "black" \/ rootcolor = "white" ->
  colored rootcolor t ->
  expand rootcolor game_move n st moves t = Raise e -> e <> AssertionError.
Proof.
  intros Hr Hcol. unfold expand. destruct (nodes t !! n) as [nd|] eqn:Hn.
  - assert (Hc : color nd = "white" \/ color nd = "black").
    { rewrite (Hcol n nd Hn). apply color_at_cases. exact Hr. }
    assert (Hpass : negb (String.eqb (color nd) "white" || String.eqb (color nd) "black") = false).
    { destruct Hc as [-> | ->]; reflexivity. }
    rewrite Hpass. intros H.
    apply bind_Raise in H as [H|(s & _ & H)].
    + unfold prob_sum in H. apply bind_Raise in H as [H|(ws & _ & H)]; [|discriminate].
      apply traverse_Raise in H as (move & _ & H). eapply raw_Raise; eauto.
    + apply bind_Raise in H as [H|(slots & _ & H)]; [|discriminate].
      apply traverse_Raise in H as (move & _ & H). eapply child_slot_Raise; eauto.
  - intros H. inversion H. discriminate.
Qed.

Lemma search_Raise n t e :
  rootcolor = "black" \/ rootcolor = "white" ->
  (forall k h, analysis k h <> Raise AssertionError) ->
  colored rootcolor t ->
  search rootcolor game_move analysis n t = Raise e -> e <> AssertionError.
Proof.
  intros Hr Han Hcol. unfold search. destruct (nodes t !! n) as [nd|];
    [|intros H; inversion H; discriminate].
  intros H. apply bind_Raise in H as [H|([st moves] & _ & H)].
  - intros ->. exact (Han _ _ H).
  - eapply expand_Raise; [exact Hr| |exact H]. exact Hcol.
Qed.

Lemma search_colored n t t' :
  rootcolor = "black" \/ rootcolor = "white" ->
  colored rootcolor t ->
  search rootcolor game_move analysis n t = Ok t' -> colored rootcolor t'.
Proof.
  intros Hr Hcol Hs.
  destruct (search_Ok _ _ _ _ _ _ Hs) as (nd & st & moves & _ & _ & Hex).
  eapply expand_colored; [exact Hr| |exact Hex]. exact Hcol.
Qed.

Lemma search_loop_no_assert budget : forall t,
  rootcolor = "black" \/ rootcolor = "white" ->
  (forall k h, analysis k h <> Raise AssertionError) ->
  colored rootcolor t ->
  (search_loop rootcolor game_move analysis budget t).2 <> Some AssertionError.
Proof.
  induction budget as [|b IH]; intros t Hr Han Hcol; simpl; [discriminate|].
  destruct (leaves t) as [|x rest]; [auto|].
  destruct (search _ _ _ _ t) as [t'|e] eqn:Hs.
  - apply IH; auto. eapply search_colored; eauto.
  - simpl. intros Heq. inversion Heq; subst e.
    eapply search_Raise in Hs; eauto.
Qed.

Lemma root_alone_colored st moves :
  colored rootcolor (mkTree [root rootcolor st moves] [] 0).
Proof.
  intros n nd Hn. destruct n; simpl in Hn; [|rewrite lookup_nil in Hn; discriminate].
  inversion Hn. reflexivity.
Qed.

Lemma root_alone_pool st moves :
  let t0 := mkTree [root rootcolor st moves] [] 0 in
  NoDup (leaves t0) /\ forall x, (x ∈ leaves t0 \/ x = 0%nat) <-> unexplored t0 x.
Proof.
  simpl. split; [constructor|]. intros x. unfold unexplored. simpl. split.
  - intros [H| ->]; [by apply elem_of_nil in H|]. eexists. split; reflexivity.
  - intros (nd & Hnd & _). right. destruct x; [reflexivity|].
    simpl in Hnd. rewrite lookup_nil in Hnd. discriminate.
Qed.

Lemma do_variations_finished st moves N t :
  do_variations rootcolor game_move analysis st moves N = Some (t, None) ->
  exists t1,
    expand rootcolor game_move 0 st moves (mkTree [root rootcolor st moves] [] 0) = Ok t1
    /\ t = (search_loop rootcolor game_move analysis (Z.to_nat N) t1).1.
Proof.
  unfold do_variations.
  destruct (has_key st "bookmoves" || (length moves <=? 0)%nat); [discriminate|].
  destruct (expand _ _ _ _ _ _) as [t1|e]; [|discriminate].
  intros H. exists t1. split; [reflexivity|]. inversion H as [Heq]. rewrite Heq. reflexivity.
Qed.

(** X14.  When do_variations has run to its end, the pool of leaves holds
    every node that was not explored exactly once, and no other node. *)
Theorem leaves_are_the_unexplored_nodes st moves N t :
  do_variations rootcolor game_move analysis st moves N = Some (t, None) ->
  NoDup (leaves t)
  /\ forall x, x ∈ leaves t <->
       exists nd, nodes t !! x = Some nd /\ explored nd = false.
Proof.
  intros Hrun. apply do_variations_finished in Hrun as (t1 & Hroot & ->).
  destruct (root_alone_pool st moves) as [Hnd Hiff].
  assert (H1 : pool_inv t1) by (eapply expand_pool; [exact Hnd|exact Hiff|exact Hroot]).
  apply (search_loop_inv rootcolor game_move analysis pool_inv); [| |exact H1].
  - intros t' Ht'. exact Ht'.
  - intros t' n t'' Ht' Hn Hs. eapply search_pool; eauto.
Qed.

(** X15.  In the tree that do_variations has built, every node has as many
    child slots as it has candidates, the child in slot [i] is reached
    from its parent by the move of candidate [i], and a node that was not
    explored has neither slots nor candidates of its own. *)
Theorem children_follow_candidates st moves N t :
  do_variations rootcolor game_move analysis st moves N = Some (t, None) ->
  forall n nd, nodes t !! n = Some nd ->
    length (children nd) = length (move_list nd)
    /\ (explored nd = false -> children nd = [] /\ move_list nd = [])
    /\ forall i c, children nd !! i = Some (Some c) ->
         exists cd move p,
           nodes t !! c = Some cd /\ move_list nd !! i = Some move
           /\ move !! "pos" = Some p /\ history cd = history nd ++ [p].
Proof.
  intros Hrun. apply do_variations_finished in Hrun as (t1 & Hroot & ->).
  destruct (root_alone_pool st moves) as [Hnd Hiff].
  assert (H1 : pool_inv t1 /\ aligned t1).
  { split; [eapply expand_pool; [exact Hnd|exact Hiff|exact Hroot]|].
    eapply expand_aligned; [| |exact Hroot]; simpl.
    - intros m nd Hm Hm0. destruct m; [congruence|].
      simpl in Hm. rewrite lookup_nil in Hm. discriminate.
    - intros nd Hn. inversion Hn. reflexivity. }
  assert (Hfin : let t := (search_loop rootcolor game_move analysis (Z.to_nat N) t1).1 in
                 pool_inv t /\ aligned t).
  { apply (search_loop_inv rootcolor game_move analysis
             (fun t => pool_inv t /\ aligned t)); [| |exact H1].
    - intros t' Ht'. exact Ht'.
    - intros t' n t'' [Hp Ha] Hn Hs. split; [eapply search_pool|eapply search_aligned]; eauto. }
  destruct Hfin as [_ Hal]. intros n nd Hn.
  destruct (Hal n nd Hn) as (Hlen & Hun & Hch).
  split; [exact Hlen|]. split; [|exact Hch].
  intros He. specialize (Hun He). split; [exact Hun|].
  rewrite Hun in Hlen. simpl in Hlen. symmetry in Hlen.
  by apply nil_length_inv in Hlen.
Qed.

(** X16.  With the root's colour one of the two colours, the assertion at
    the head of expand holds in every call that do_variations makes: the
    colours of the tree alternate with the depth, so unless the analysis
    itself raises an AssertionError, none reaches the caller. *)
Theorem colors_alternate_with_depth st moves N t e :
  rootcolor = "black" \/ rootcolor = "white" ->
  (forall k h, analysis k h <> Raise AssertionError) ->
  do_variations rootcolor game_move analysis st moves N = Some (t, e) ->
  e <> Some AssertionError
  /\ (e = None ->
      forall n nd, nodes t !! n = Some nd ->
        color nd = (if Nat.even (length (history nd)) then rootcolor
                    else other_color rootcolor)).
Proof.
  intros Hr Han. unfold do_variations.
  destruct (has_key st "bookmoves" || (length moves <=? 0)%nat); [discriminate|].
  assert (H0 := root_alone_colored st moves).
  destruct (expand _ _ _ _ _ _) as [t1|e0] eqn:Hroot.
  - assert (H1 : colored rootcolor t1) by (eapply expand_colored; eauto).
    intros Heq. inversion Heq as [Hpair].
    assert (Ht : t = (search_loop rootcolor game_move analysis (Z.to_nat N) t1).1)
      by (rewrite Hpair; reflexivity).
    assert (He : e = (search_loop rootcolor game_move analysis (Z.to_nat N) t1).2)
      by (rewrite Hpair; reflexivity).
    split.
    + rewrite He. apply search_loop_no_assert; auto.
    + intros _. rewrite Ht.
      apply (search_loop_inv rootcolor game_move analysis (colored rootcolor)); [| |exact H1].
      * intros t' Ht'. exact Ht'.
      * intros t' n t'' Ht' _ Hs. eapply search_colored; eauto.
  - intros Heq. inversion Heq; subst. split; [|discriminate].
    intros Hbad. inversion Hbad; subst e0.
    eapply expand_Raise in Hroot; eauto.
Qed.
End TreeResults.

Section TreeFrozen.
Import Variations TreeFacts.
Variable rootcolor : string.
Variable game_move : option string.
Variable analysis : nat -> list pyval -> result (dict * list dict).

Lemma search_keeps_others n t t' m :
  m <> n ->
  search rootcolor game_move analysis n t = Ok t' ->
  (m < length (nodes t))%nat ->
  nodes t' !! m = nodes t !! m.
Proof.
  intros Hmn Hs Hlt.
  destruct (search_Ok _ _ _ _ _ _ Hs) as (nd & st & moves & _ & _ & Hex).
  destruct (expand_Ok _ _ _ _ _ _ _ Hex) as (nd' & s & slots & _ & _ & _ & ->). simpl.
  rewrite lookup_app_l by (rewrite length_insert; exact Hlt).
  apply list_lookup_insert_ne. auto.
Qed.

(** X17.  A node that has been explored is never touched again: whatever
    the later searches do, it keeps its children, statistics, candidates
    and probability, because the pool only ever offers nodes that were not
    explored. *)
Theorem explored_nodes_are_final budget t m nd :
  pool_inv t ->
  nodes t !! m = Some nd -> explored nd = true ->
  nodes (search_loop rootcolor game_move analysis budget t).1 !! m = Some nd.
Proof.
  intros Hpool Hm He.
  apply (search_loop_inv rootcolor game_move analysis
           (fun t' => pool_inv t' /\ nodes t' !! m = Some nd)); [| |auto].
  - intros t' Ht'. exact Ht'.
  - intros t' n t'' [Hp Hnd] Hn Hs. split; [eapply search_pool; eauto|].
    rewrite <- Hnd. apply (search_keeps_others n); [|exact Hs|eapply lookup_lt_Some; eauto].
    intros ->. apply (proj2 Hp) in Hn as (x & Hx & Hun). congruence.
Qed.
End TreeFrozen.

(** ** Retries and checkpoint files *)

Section RetryFacts.
Context {S A : Type}.
Variable fn : S -> S * result A.

(** X19.  retry_analysis calls the function at most [restarts + 1] times,
    each time on what the failed call before left behind; it returns the
    first result that is not an exception, and gives an exception only when
    all [restarts + 1] calls raised, and then the one of the last call. *)
Theorem retry_analysis_attempts (restarts : nat) (s : S) :
  exists k s_k,
    (k <= restarts)%nat
    /\ failed_attempts fn k s = Some s_k
    /\ fn s_k = retry_analysis fn restarts s
    /\ (is_ok (retry_analysis fn restarts s).2 = false -> k = restarts).
Proof.
  revert s. induction restarts as [|n IH]; intros s; simpl.
  - exists 0%nat, s. split; [lia|]. split; [reflexivity|].
    destruct (fn s) as [s' [a|e]]; auto.
  - destruct (fn s) as [s' [a|e]] eqn:Hfn.
    + exists 0%nat, s. split; [lia|]. split; [reflexivity|]. split; [exact Hfn|].
      simpl. discriminate.
    + destruct (IH s') as (k & s_k & Hk & Hfail & Hlast & Hall).
      exists (Datatypes.S k), s_k. split; [lia|]. split; [simpl; rewrite Hfn; exact Hfail|].
      split; [exact Hlast|]. intros H. f_equal. auto.
Qed.
End RetryFacts.

Section StoreFacts.
Context {E : Type} {eng : Leela.Engine E}.

(** X20.  When do_analyze returns, whatever the setting of
    skip_checkpoints: the file of the position's key holds exactly the pair
    returned and every other file is as before.  [skipped] is true exactly
    when skip_checkpoints is off and the file was there, and then neither
    the engine nor the directory was touched; otherwise the pair is what
    the engine's analysis gave, so that with skip_checkpoints set an
    existing file is never used. *)
Theorem do_analyze_touches_one_file (skip : bool) (base_dir : string) (secs : Z)
    (leela leela' : E) (fs fs' : checkpoints) st ml skipped :
  do_analyze skip base_dir secs leela fs = ((leela', fs'), Ok (st, ml, skipped)) ->
  exists h,
    Leela.history_hash leela = Ok h
    /\ fs' !! checkpoint_name base_dir h secs = Some (st, ml)
    /\ (forall other, other <> checkpoint_name base_dir h secs ->
          fs' !! other = fs !! other)
    /\ (skipped = true <-> skip = false /\ is_Some (fs !! checkpoint_name base_dir h secs))
    /\ (skipped = true -> leela' = leela /\ fs' = fs)
    /\ (skipped = false -> exists l2, Leela.analyze l2 secs = (leela', Ok (st, ml))).
Proof.
  unfold do_analyze. intros H.
  destruct (Leela.history_hash leela) as [h|e] eqn:Hh; [|discriminate].
  exists h. split; [reflexivity|].
  set (name := checkpoint_name base_dir h secs) in *.
  assert (Hfresh : skip = true \/ fs !! name = None ->
            analyze_afresh name secs leela fs = ((leela', fs'), Ok (st, ml, skipped)) ->
            fs' !! name = Some (st, ml)
            /\ (forall other, other <> name -> fs' !! other = fs !! other)
            /\ (skipped = true <-> skip = false /\ is_Some (fs !! name))
            /\ (skipped = true -> leela' = leela /\ fs' = fs)
            /\ (skipped = false -> exists l2, Leela.analyze l2 secs = (leela', Ok (st, ml)))).
  { intros Hwhy Hrun.
    apply analyze_afresh_ok in Hrun as (-> & -> & l1 & l2 & _ & _ & Han).
    split; [apply lookup_insert_eq|].
    split; [intros other Hne; apply lookup_insert_ne; auto|].
    split; [|split; [discriminate|eauto]].
    split; [discriminate|]. intros [Hskip Hfile].
    destruct Hwhy as [Hwhy|Hwhy]; [congruence|].
    rewrite Hwhy in Hfile. by apply is_Some_None in Hfile. }
  destruct (fs !! name) as [[st0 ml0]|] eqn:Hfile; [|apply Hfresh; auto].
  destruct skip; simpl in H; [apply Hfresh; auto|].
  inversion H; subst. split; [exact Hfile|]. split; [reflexivity|].
  split; [split; [intros _; split; [reflexivity|eauto]|reflexivity]|].
  split; [auto|discriminate].
Qed.
End StoreFacts.

Section NameFacts.
Import PyStr.

Lemma lacks_app c s t : lacks c (String.append s t) = lacks c s && lacks c t.
Proof.
  induction s as [|a s IH]; simpl; [reflexivity|].
  rewrite IH. apply andb_assoc.
Qed.

Lemma lacks_rev c s : lacks c (rev s) = lacks c s.
Proof.
  induction s as [|a s IH]; [reflexivity|].
  rewrite rev_cons, lacks_app, IH. simpl.
  rewrite andb_true_r. apply andb_comm.
Qed.

Lemma digits_lack_underscore d : lacks "_" (NilEmpty.string_of_uint d) = true.
Proof. induction d; simpl; auto. Qed.

Lemma of_int_lacks_underscore n : lacks "_" (of_int n) = true.
Proof.
  unfold of_int, NilZero.string_of_int. destruct (Z.to_int n) as [d|d]; simpl.
  - destruct d; simpl; auto using digits_lack_underscore.
  - destruct d; simpl; auto using digits_lack_underscore.
Qed.

Lemma of_int_inj a b : of_int a = of_int b -> a = b.
Proof.
  intros H. assert (Ha := to_int_of_int a). rewrite H, to_int_of_int in Ha. congruence.
Qed.

Lemma append_inj_l p a b : String.append p a = String.append p b -> a = b.
Proof.
  induction p as [|c p IH]; simpl; [auto|]. intros H. inversion H. auto.
Qed.

Lemma append_inj_r a b q : String.append a q = String.append b q -> a = b.
Proof.
  intros H. assert (Hr : rev (String.append a q) = rev (String.append b q)) by (rewrite H; reflexivity).
  rewrite !rev_app in Hr. apply append_inj_l in Hr.
  rewrite <- (rev_involutive a), <- (rev_involutive b), Hr. reflexivity.
Qed.

(** Two strings that agree and are each cut at their first underscore
    are cut at the same place. *)
Lemma first_underscore a : forall a' b b',
  lacks "_" a = true -> lacks "_" a' = true ->
  String.append a (String "_" b) = String.append a' (String "_" b') ->
  a = a' /\ b = b'.
Proof.
  induction a as [|c a IH]; intros a' b b' Ha Ha' H; destruct a' as [|c' a']; simpl in *.
  - inversion H. auto.
  - inversion H; subst c'. discriminate.
  - inversion H; subst c. discriminate.
  - inversion H; subst c'.
    apply andb_true_iff in Ha as [_ Ha]. apply andb_true_iff in Ha' as [_ Ha'].
    destruct (IH a' b b' Ha Ha' ltac:(assumption)) as [-> ->]. auto.
Qed.

Lemma path_join_name base :
  exists p, forall b', String.prefix "/" b' = false -> path_join base b' = String.append p b'.
Proof.
  unfold path_join.
  destruct (String.eqb base "" || String.prefix "/" (rev base)).
  - exists base. intros b' ->. reflexivity.
  - exists (String.append base "/"). intros b' ->. rewrite append_assoc. reflexivity.
Qed.

Lemma checkpoint_name_inj base_dir h1 h2 secs1 secs2 :
  checkpoint_name base_dir h1 secs1 = checkpoint_name base_dir h2 secs2 ->
  h1 = h2 /\ secs1 = secs2.
Proof.
  unfold checkpoint_name.
  destruct (path_join_name base_dir) as [p Hp].
  rewrite !Hp by reflexivity.
  intros H. apply append_inj_l in H.
  apply (append_inj_l "analyze_") in H.
  rewrite <- !append_assoc in H. apply append_inj_r in H.
  assert (Hr : rev (String.append (String.append h1 "_") (of_int secs1))
             = rev (String.append (String.append h2 "_") (of_int secs2)))
    by (rewrite H; reflexivity).
  rewrite !rev_app in Hr.
  assert (L1 : lacks "_" (rev (of_int secs1)) = true)
    by (rewrite lacks_rev; apply of_int_lacks_underscore).
  assert (L2 : lacks "_" (rev (of_int secs2)) = true)
    by (rewrite lacks_rev; apply of_int_lacks_underscore).
  destruct (first_underscore _ _ (rev h1) (rev h2) L1 L2 Hr) as [Hd Hh].
  split.
  - rewrite <- (rev_involutive h1), <- (rev_involutive h2), Hh. reflexivity.
  - apply of_int_inj. rewrite <- (rev_involutive (of_int secs1)), Hd. apply rev_involutive.
Qed.

(** X21.  Inside one checkpoint directory, the file name decides the
    position's hash and the think time: analyses that differ in the
    history hash or in the number of seconds never share a checkpoint
    file, whatever characters the hash is made of. *)
Theorem checkpoint_names_differ base_dir h1 h2 secs1 secs2 :
  h1 <> h2 \/ secs1 <> secs2 ->
  checkpoint_name base_dir h1 secs1 <> checkpoint_name base_dir h2 secs2.
Proof.
  intros Hne Heq. apply checkpoint_name_inj in Heq as [Hh Hs].
  destruct Hne; contradiction.
Qed.
End NameFacts.

(** ** The reader queue *)

Section ReaderFacts.
Import Reader.

Lemma loop_turn_nonempty line q :
  loop_turn line q = q ++ List.filter nonempty [line].
Proof.
  unfold loop_turn. destruct line; simpl; [symmetry; apply app_nil_r|reflexivity].
Qed.

Lemma run_order events : forall q,
  Forall (fun line => nonempty line = true) q ->
  List.filter nonempty (run events q).1 ++ (run events q).2
    = q ++ List.filter nonempty (streamed events)
  /\ Forall (fun line => nonempty line = true) (run events q).2.
Proof.
  induction events as [|ev events IH]; intros q Hq.
  - simpl. split; [symmetry; apply app_nil_r|exact Hq].
  - destruct ev as [line| |]; simpl.
    + assert (Hq' : Forall (fun line => nonempty line = true) (loop_turn line q)).
      { rewrite loop_turn_nonempty. apply Forall_app. split; [exact Hq|].
        simpl. destruct (nonempty line) eqn:Hl; repeat constructor. exact Hl. }
      destruct (IH _ Hq') as [IH1 IH2]. split; [|exact IH2].
      rewrite IH1, loop_turn_nonempty, <- app_assoc. f_equal.
      change (streamed (Stream line :: events)) with (line :: streamed events).
      simpl. destruct (nonempty line); reflexivity.
    + destruct q as [|line q]; simpl.
      * destruct (IH [] Hq) as [IH1 IH2]. destruct (run events []) as [got q'].
        simpl in *. auto.
      * apply Forall_cons in Hq as [Hl Hq].
        destruct (IH q Hq) as [IH1 IH2]. destruct (run events q) as [got q'].
        simpl in *. rewrite Hl. simpl. rewrite IH1. auto.
    + destruct (IH [] ltac:(constructor)) as [IH1 IH2].
      destruct (run events []) as [got q']. simpl in *.
      rewrite List.filter_app, <- app_assoc, IH1. split; [|exact IH2].
      f_equal. clear -Hq. induction q as [|x q IHq]; [reflexivity|].
      apply Forall_cons in Hq as [Hx Hq]. simpl. rewrite Hx, (IHq Hq). reflexivity.
Qed.

(** X22.  Whatever the interleaving of the reader thread and the callers of
    readline and read_all_lines, the lines handed out, followed by those
    still queued, are the non-empty lines the stream gave, in the stream's
    order, none lost and none twice; and the empty string that readline
    returns always means an empty queue, because an empty line is never
    queued. *)
Theorem reader_queue_is_fifo events :
  let got := (run events []).1 in
  let q := (run events []).2 in
  List.filter nonempty got ++ q = List.filter nonempty (streamed events)
  /\ ((readline q).1 = "" <-> q = []).
Proof.
  destruct (run_order events [] ltac:(constructor)) as [H1 H2].
  split; [exact H1|]. split.
  - destruct (run events []).2 as [|line q]; [reflexivity|]. simpl.
    apply Forall_cons in H2 as [Hl _]. intros ->. discriminate.
  - intros ->. reflexivity.
Qed.
End ReaderFacts.

(** ** The variation shown for an unexplored first child *)

Section ShownMoves.

Lemma py_int_inject n : py_int (inject_Z n) = n.
Proof. unfold py_int. simpl. apply Z.quot_1_r. Qed.

Lemma estimate_value n :
  (inject_Z n * 2 / 3 - 1 == (2 * n - 3) # 3)%Q.
Proof. unfold Qeq, Qdiv, Qmult, Qminus, Qplus, Qopp, Qinv, inject_Z. simpl. lia. Qed.

(** X23.  The variation that [record] lays out for an unexplored first
    child never runs past the end of [pv]: the number of moves shown is at
    most [len(pv)], it is at least one as soon as [pv] has a move, and from
    three moves on it is two thirds of the length, rounded down, less
    one. *)
Theorem num_to_show_within_pv (len_pv : Z) :
  0 <= len_pv ->
  0 <= num_to_show len_pv <= len_pv
  /\ (1 <= len_pv -> 1 <= num_to_show len_pv)
  /\ (3 <= len_pv -> num_to_show len_pv = 2 * len_pv / 3 - 1).
Proof.
  intros Hlen. unfold num_to_show.
  destruct (Qle_bool (inject_Z len_pv * 2 / 3 - 1) 1) eqn:Hest.
  - apply Qle_bool_iff in Hest. rewrite estimate_value in Hest.
    unfold Qle in Hest. simpl in Hest.
    destruct (Qle_bool (inject_Z len_pv) 1) eqn:Hone.
    + apply Qle_bool_iff in Hone. unfold Qle in Hone. simpl in Hone.
      rewrite py_int_inject. split; [lia|]. split; [lia|]. lia.
    + assert (Hgt : 1 < len_pv).
      { destruct (Z_lt_le_dec 1 len_pv) as [?|Hle]; [assumption|].
        assert (Hq : Qle_bool (inject_Z len_pv) 1 = true)
          by (apply Qle_bool_iff; unfold Qle; simpl; lia).
        congruence. }
      change (py_int 1) with 1. split; [lia|]. split; [lia|].
      intros H3. assert (len_pv = 3) by lia. subst. reflexivity.
  - assert (Hbig : 3 < len_pv).
    { destruct (Z_lt_le_dec 3 len_pv) as [?|Hle]; [assumption|].
      assert (Hq : Qle_bool (inject_Z len_pv * 2 / 3 - 1) 1 = true).
      { apply Qle_bool_iff. rewrite estimate_value. unfold Qle. simpl. lia. }
      congruence. }
    assert (Hmin : Qle_bool (inject_Z len_pv) (inject_Z len_pv * 2 / 3 - 1) = false).
    { apply not_true_is_false. intros Hq.
      apply Qle_bool_iff in Hq. rewrite estimate_value in Hq.
      unfold Qle in Hq. simpl in Hq. lia. }
    rewrite Hmin. unfold py_int. simpl.
    change (Z.pos (1 * 1 * 3 * 1)) with 3. change (Z.pos (1 * 1 * 3)) with 3.
    replace (len_pv * 2 * 1 * 1 + - (1) * 3) with (2 * len_pv + (-1) * 3) by lia.
    rewrite Z.quot_div_nonneg by lia.
    rewrite Z.div_add by lia.
    pose proof (Z.div_mod (2 * len_pv) 3 ltac:(lia)) as Hdiv.
    pose proof (Z.mod_pos_bound (2 * len_pv) 3 ltac:(lia)) as Hmod.
    split; [lia|]. split; intros _; lia.
Qed.
End ShownMoves.

(** ** Instances *)

(** The record coordinate "qd" on a 19x19 board, whatever follows it. *)
Lemma convert_position_two_letters_witness :
  convert_position 19 "qdzz" = Ok "r16".
Proof.
  exact (convert_position_two_letters 19 16 3 "zz" ltac:(lia) ltac:(lia)).
Defined.

(** Row 16 of a 19x19 board is the fourth line from the top, and row 30
    is accepted although it is off the board. *)
Lemma parse_position_rows_witness :
  (parse_position 19 "r16" = Ok "qd" /\ parse_position 19 "R16" = Ok "qd")
  /\ parse_position 19 "r30" = Ok "qo".
Proof.
  split.
  - exact (proj1 (parse_position_rows 19 16 16 ltac:(lia)) ltac:(lia)).
  - exact (proj1 (proj2 (parse_position_rows 19 16 30 ltac:(lia))) ltac:(lia)).
Defined.

(** The round trips on a board of size 9 and on one of size -3. *)
Lemma round_trip_any_size_witness :
  (convert_position 9 "cg" ≫= parse_position 9) = Ok "cg"
  /\ (convert_position (-3) "cg" ≫= parse_position (-3)) = Ok "cg".
Proof.
  split.
  - exact (proj1 (round_trip_any_size 9 2 6 ltac:(lia) ltac:(lia))).
  - exact (proj1 (round_trip_any_size (-3) 2 6 ltac:(lia) ltac:(lia))).
Defined.

(** After a black move on the empty board white is to move. *)
Lemma turn_passes_after_add_move_witness :
  add_move (mkCLI 19 false []) "black" "qd" = Ok (mkCLI 19 false ["play black r16"])
  /\ whose_turn (mkCLI 19 false ["play black r16"]) = "white".
Proof.
  split; [reflexivity|].
  exact (turn_passes_after_add_move (mkCLI 19 false []) "black" "qd"
           (mkCLI 19 false ["play black r16"]) (or_introl eq_refl) eq_refl).
Defined.

(** Popping gives back the history before the move. *)
Lemma pop_move_undoes_add_move_witness :
  pop_move (mkCLI 19 false ["play black r16"; "play white pass"])
  = Ok (mkCLI 19 false ["play black r16"]).
Proof.
  exact (proj1 (pop_move_undoes_add_move (mkCLI 19 false ["play black r16"]) "white" "tt"
                  (mkCLI 19 false ["play black r16"; "play white pass"]) eq_refl)).
Defined.

(** Three moves replayed from a position with white to move. *)
Lemma replay_then_unwind_witness :
  let self := mkCLI 19 false ["play black r16"] in
  let self' := mkCLI 19 false ["play black r16"; "play white d4"; "play black pass";
                                "play white q4"] in
  replay self ["dp"; ""; "pp"] = Ok self'
  /\ unwind 3 self' = Ok self
  /\ whose_turn self' = "black".
Proof.
  intros self self'.
  assert (Hrun : replay self ["dp"; ""; "pp"] = Ok self') by reflexivity.
  split; [exact Hrun|].
  destruct (replay_then_unwind ["dp"; ""; "pp"] self self' Hrun) as (Hback & _ & Hturn).
  split; [exact Hback|exact Hturn].
Defined.

(** With the identity in the place of the digest: the text digested. *)
Lemma history_hash_after_add_move_witness :
  history_hash (fun text => text) (mkCLI 19 false ["play black r16"; "play white d4"])
  = Ok "br16wd4".
Proof.
  destruct (history_hash_after_add_move (fun text => text)
              (mkCLI 19 false ["play black r16"]) "white" "dp"
              (mkCLI 19 false ["play black r16"; "play white d4"]) ["br16"]
              (or_intror eq_refl) eq_refl eq_refl) as (move & Hmove & _ & Hhash).
  inversion Hmove; subst move. exact Hhash.
Defined.

(** A second visit count after the summary is not read. *)
Lemma summary_is_read_once_witness :
  let stderr1 := ["================"; "best 1 60.0 Q16"; "visits 55"] in
  let l2 := match scan (D:=Demo.dialect) Demo.black_to_move (stderr1 ++ ["visits 99"]) with
            | Ok l => l
            | Raise _ => locals0
            end in
  stats l2 !! "visits" = Some (VInt 55).
Proof.
  intros stderr1 l2.
  pose (l1 := match scan (D:=Demo.dialect) Demo.black_to_move stderr1 with
              | Ok l => l
              | Raise _ => locals0
              end).
  assert (H1 : scan (D:=Demo.dialect) Demo.black_to_move stderr1 = Ok l1)
    by (vm_compute; reflexivity).
  assert (Hs : summarized l1 = true) by (vm_compute; reflexivity).
  assert (H2 : scan (D:=Demo.dialect) Demo.black_to_move (stderr1 ++ ["visits 99"]) = Ok l2)
    by (vm_compute; reflexivity).
  destruct (summary_is_read_once Demo.black_to_move stderr1 ["visits 99"] l1 l2 H1 Hs H2)
    as (_ & _ & _ & Hvisits).
  rewrite Hvisits. vm_compute. reflexivity.
Defined.

(** A candidate line without the banner after it. *)
Lemma parse_without_banner_witness :
  (parse (D:=Demo.dialect) Demo.black_to_move ["= C3"]
     ["move C3 5 40.0 41.0 42.0 3 10.0 C3 D4"]).2 = Raise (KeyError "best").
Proof.
  set (stderr := ["move C3 5 40.0 41.0 42.0 3 10.0 C3 D4"]).
  pose (l := match scan (D:=Demo.dialect) Demo.black_to_move stderr with
             | Ok l => l
             | Raise _ => locals0
             end).
  pose (st := match find_chosen (D:=Demo.dialect) Demo.black_to_move ["= C3"] (stats l) with
              | Ok st => st
              | Raise _ => ∅
              end).
  assert (Hl : scan (D:=Demo.dialect) Demo.black_to_move stderr = Ok l)
    by (vm_compute; reflexivity).
  assert (Hst : find_chosen (D:=Demo.dialect) Demo.black_to_move ["= C3"] (stats l) = Ok st)
    by (vm_compute; reflexivity).
  assert (Hlen : length (move_list l) = 1%nat) by (vm_compute; reflexivity).
  assert (Hml : move_list l <> []) by (intros Hnil; rewrite Hnil in Hlen; discriminate).
  assert (Hb : Forall (fun raw => is_banner raw = false) stderr)
    by (constructor; [vm_compute; reflexivity|constructor]).
  destruct (parse_without_banner Demo.black_to_move ["= C3"] stderr l st Hb Hl Hst)
    as [_ Hparse].
  clearbody l st. rewrite (Hparse Hml). reflexivity.
Defined.

(** Two candidate lines among three lines give two records. *)
Lemma one_candidate_per_line_witness :
  let stderr := ["move C3 5 40.0 41.0 42.0 3 10.0 C3"; "visits 5";
                 "move D4 0 10.0 11.0 12.0 0 20.0 D4"] in
  match scan (D:=Demo.dialect) Demo.black_to_move stderr with
  | Ok l => length (move_list l) = 2%nat
  | Raise _ => False
  end.
Proof.
  intros stderr.
  pose (l := match scan (D:=Demo.dialect) Demo.black_to_move stderr with
             | Ok l => l
             | Raise _ => locals0
             end).
  assert (Hl : scan (D:=Demo.dialect) Demo.black_to_move stderr = Ok l)
    by (vm_compute; reflexivity).
  rewrite Hl, (one_candidate_per_line Demo.black_to_move stderr l Hl).
  vm_compute. reflexivity.
Defined.

(** A book position with the move Q16 chosen. *)
Lemma parse_book_position_witness :
  exists st,
    parse (D:=Demo.dialect) Demo.black_to_move ["= Q16"] ["book 12 34"]
    = ([], Ok (st, [Variations.book_candidate "pd"])).
Proof.
  pose (l := match scan (D:=Demo.dialect) Demo.black_to_move ["book 12 34"] with
             | Ok l => l
             | Raise _ => locals0
             end).
  pose (st := match find_chosen (D:=Demo.dialect) Demo.black_to_move ["= Q16"] (stats l) with
              | Ok st => st
              | Raise _ => ∅
              end).
  assert (Hl : scan (D:=Demo.dialect) Demo.black_to_move ["book 12 34"] = Ok l)
    by (vm_compute; reflexivity).
  assert (Hst : find_chosen (D:=Demo.dialect) Demo.black_to_move ["= Q16"] (stats l) = Ok st)
    by (vm_compute; reflexivity).
  assert (Hbook : length (book_lines (D:=Demo.dialect) ["book 12 34"]) = 1%nat)
    by (vm_compute; reflexivity).
  assert (Hnone : candidate_lines (D:=Demo.dialect) ["book 12 34"] = [])
    by (vm_compute; reflexivity).
  assert (Hchosen : st !! "chosen" = Some (VStr "pd")) by (vm_compute; reflexivity).
  exists st. clearbody l st.
  apply (parse_book_position Demo.black_to_move ["= Q16"] ["book 12 34"] l st
           (VStr "pd") Hl Hst); [|exact Hnone|exact Hchosen].
  intros Hnil. rewrite Hnil in Hbook. discriminate.
Defined.

(** The engine resigns: the best move of the summary is returned as the
    chosen one. *)
Lemma parse_replaces_resign_witness :
  let stderr := ["move Q16 50 60.0 61.0 62.0 9 40.0 Q16"; "================";
                 "best 1 60.0 Q16"; "visits 50"] in
  match (parse (D:=Demo.dialect) Demo.black_to_move ["= resign"] stderr).2 with
  | Ok (st', _) => st' !! "chosen" <> Some (VStr "resign")
  | Raise _ => False
  end.
Proof.
  intros stderr.
  pose (l := match scan (D:=Demo.dialect) Demo.black_to_move stderr with
             | Ok l => l
             | Raise _ => locals0
             end).
  pose (st := match find_chosen (D:=Demo.dialect) Demo.black_to_move ["= resign"] (stats l) with
              | Ok st => st
              | Raise _ => ∅
              end).
  pose (out := match (parse (D:=Demo.dialect) Demo.black_to_move ["= resign"] stderr).2 with
               | Ok r => r
               | Raise _ => (∅, [])
               end).
  pose (w := (parse (D:=Demo.dialect) Demo.black_to_move ["= resign"] stderr).1).
  assert (Hl : scan (D:=Demo.dialect) Demo.black_to_move stderr = Ok l)
    by (vm_compute; reflexivity).
  assert (Hst : find_chosen (D:=Demo.dialect) Demo.black_to_move ["= resign"] (stats l) = Ok st)
    by (vm_compute; reflexivity).
  assert (Hp : parse (D:=Demo.dialect) Demo.black_to_move ["= resign"] stderr
               = (w, Ok (out.1, out.2))) by (vm_compute; reflexivity).
  assert (Hlen : length (move_list l) = 1%nat) by (vm_compute; reflexivity).
  assert (Hml : move_list l <> []) by (intros Hnil; rewrite Hnil in Hlen; discriminate).
  clearbody l st out w. rewrite Hp. simpl.
  exact (proj2 (proj2 (parse_replaces_resign Demo.black_to_move ["= resign"] stderr l st w
                         out.1 out.2 Hl Hst (or_intror Hml) Hp))).
Defined.

(** The tree of the game position after three searches. *)
Lemma leaves_are_the_unexplored_nodes_witness :
  NoDup (Variations.leaves Game.final)
  /\ exists nd, Variations.nodes Game.final !! 7%nat = Some nd
                /\ Variations.explored nd = false.
Proof.
  assert (Hrun : Variations.do_variations "black" (Some "dd") Game.analysis ∅ Game.moves0 3
                 = Some (Game.final, None)) by (vm_compute; reflexivity).
  destruct (leaves_are_the_unexplored_nodes "black" (Some "dd") Game.analysis
              ∅ Game.moves0 3 Game.final Hrun) as [Hnd Hiff].
  split; [exact Hnd|]. apply Hiff.
  apply (list_elem_of_lookup_2 _ 3%nat). vm_compute. reflexivity.
Defined.

Lemma children_follow_candidates_witness :
  exists nd, Variations.nodes Game.final !! 2%nat = Some nd
             /\ length (Variations.children nd) = length (Variations.move_list nd).
Proof.
  assert (Hrun : Variations.do_variations "black" (Some "dd") Game.analysis ∅ Game.moves0 3
                 = Some (Game.final, None)) by (vm_compute; reflexivity).
  destruct (Variations.nodes Game.final !! 2%nat) as [nd|] eqn:Hnd;
    [|vm_compute in Hnd; discriminate].
  exists nd. split; [reflexivity|].
  exact (proj1 (children_follow_candidates "black" (Some "dd") Game.analysis
                  ∅ Game.moves0 3 Game.final Hrun 2%nat nd Hnd)).
Defined.

Lemma colors_alternate_with_depth_witness :
  exists nd, Variations.nodes Game.final !! 6%nat = Some nd
             /\ length (Variations.history nd) = 3%nat
             /\ Variations.color nd = "white".
Proof.
  assert (Hrun : Variations.do_variations "black" (Some "dd") Game.analysis ∅ Game.moves0 3
                 = Some (Game.final, None)) by (vm_compute; reflexivity).
  assert (Han : forall k h, Game.analysis k h <> Raise AssertionError).
  { intros k h. destruct k as [|[|k]]; discriminate. }
  pose (nd := match Variations.nodes Game.final !! 6%nat with
              | Some nd => nd
              | None => Variations.root "black" ∅ []
              end).
  assert (Hnd : Variations.nodes Game.final !! 6%nat = Some nd) by (vm_compute; reflexivity).
  assert (Hlen : length (Variations.history nd) = 3%nat) by (vm_compute; reflexivity).
  exists nd. split; [exact Hnd|]. split; [exact Hlen|].
  clearbody nd.
  rewrite (proj2 (colors_alternate_with_depth "black" (Some "dd") Game.analysis
                    ∅ Game.moves0 3 Game.final None (or_introl eq_refl) Han Hrun)
             eq_refl 6%nat nd Hnd), Hlen.
  reflexivity.
Defined.

(** In the sapling the root was explored: two searches leave it alone. *)
Lemma explored_nodes_are_final_witness :
  Variations.nodes (Variations.search_loop "black" None Game.analysis 2 Game.sapling).1 !! 0%nat
  = Variations.nodes Game.sapling !! 0%nat.
Proof.
  assert (Hpool : TreeFacts.pool_inv Game.sapling).
  { split; [apply NoDup_singleton|].
    intros x. split.
    - intros Hx. apply list_elem_of_singleton in Hx as ->.
      eexists. split; reflexivity.
    - intros (nd & Hnd & Hun). destruct x as [|[|x]]; simpl in Hnd.
      + inversion Hnd; subst nd. discriminate.
      + apply list_elem_of_singleton. reflexivity.
      + rewrite lookup_nil in Hnd. discriminate. }
  exact (explored_nodes_are_final "black" None Game.analysis 2 Game.sapling 0%nat _
           Hpool eq_refl eq_refl).
Defined.

(** With skip_checkpoints set and a stale file in place, the engine is
    asked and the file then holds its answer. *)
Lemma do_analyze_touches_one_file_witness :
  let leela := LoggingEngine.mk ["bd4"] [] in
  let stale : checkpoints := {[ checkpoint_name "c" "bd4" 5 := (∅, []) ]} in
  let run := do_analyze true "c" 5 leela stale in
  run.1.2 !! checkpoint_name "c" "bd4" 5 = Some LoggingEngine.answer.
Proof.
  intros leela stale run.
  pose (l' := run.1.1). pose (fs' := run.1.2).
  assert (Hrun : do_analyze true "c" 5 leela stale
                 = ((l', fs'), Ok (LoggingEngine.answer.1, LoggingEngine.answer.2, false)))
    by (vm_compute; reflexivity).
  change (fs' !! checkpoint_name "c" "bd4" 5 = Some LoggingEngine.answer).
  clearbody l' fs'. clear run.
  destruct (do_analyze_touches_one_file true "c" 5 leela l' stale fs' _ _ _ Hrun)
    as (h & Hh & Hfile & _).
  inversion Hh; subst h. exact Hfile.
Defined.

(** Two think times for one position. *)
Lemma checkpoint_names_differ_witness :
  checkpoint_name "ckpt" "0cc175b9c0f1b6a8" 10 <> checkpoint_name "ckpt" "0cc175b9c0f1b6a8" 5.
Proof.
  assert (Hsecs : (10 : Z) <> 5) by lia.
  exact (checkpoint_names_differ "ckpt" "0cc175b9c0f1b6a8" "0cc175b9c0f1b6a8" 10 5
           (or_intror Hsecs)).
Defined.

(** A principal variation of nine moves: five are shown. *)
Lemma num_to_show_within_pv_witness : num_to_show 9 = 5.
Proof.
  exact (proj2 (proj2 (num_to_show_within_pv 9 ltac:(lia))) ltac:(lia)).
Defined.
